(** * BSM audit-trail decoder: a shallow embedding of [bsm.go]

    The development follows the layering of the Go package:
    byte-integer primitives ([bytesToUint16/32/64]), the token sizer
    ([determineTokenSize]), the token decoder ([TokenFromByteInput]) and
    the record framer ([ReadBsmRecord]).

    Conventions of the embedding:
    - a Go [byte] is a [Byte.byte]; its numeric value is [b2z];
    - Go's [int] and the unsigned integers are [Z]; every unsigned
      operation that can wrap is written with [wrap w];
    - a Go slice is a [list byte]; [input[lo:hi]] is [slice input lo hi]
      where the source guards the bounds, and [gslice] (which can panic)
      where it does not;
    - a Go function returning [(T, error)] returns a pair
      [T * option error]; a run-time panic is the outcome [Panic]. *)

From Stdlib Require Import ZArith List Lia Bool.
From Stdlib.Strings Require Import Byte.
Import ListNotations.
Open Scope Z_scope.

(** ** Bytes, slices and machine integers *)

Definition b2z (b : byte) : Z := Z.of_N (Byte.to_N b).

Definition len {A : Type} (l : list A) : Z := Z.of_nat (length l).

(** [input[lo:hi]] for [0 <= lo <= hi <= len input]. *)
Definition slice {A : Type} (l : list A) (lo hi : Z) : list A :=
  firstn (Z.to_nat (hi - lo)) (skipn (Z.to_nat lo) l).

(** Reduction modulo [2^w]: the value kept by a [w]-bit unsigned integer. *)
Definition wrap (w : Z) (z : Z) : Z := z mod 2 ^ w.

(** Conversion to [int32]: two's complement on 32 bits. *)
Definition toInt32 (z : Z) : Z := (z + 2 ^ 31) mod 2 ^ 32 - 2 ^ 31.

(** ** Errors

    One constructor per [errors.New] / [fmt.Errorf] site of the source;
    formatted values are kept as arguments. *)

Inductive error : Type :=
| ErrOverflow (width : Z)
    (* "more than ... bytes given -> risk of overflow" *)
| ErrAddressType (id : byte) (value : Z)
    (* "invalid value (%d) for '...' field in ... token" *)
| ErrTokenSize (id : byte)
    (* "can't determine the size of the given token (type): 0x%x" *)
| ErrHeaderLength
    (* "invalid length of 32bit header token" *)
| ErrTokenIDMismatch
    (* "token ID mismatch" *)
| ErrReadCount (n wanted : Z)
    (* "read n bytes, but wanted exactly ..." *)
| ErrTerminalAddress (id : byte)
    (* "can't process length of terminal machine address" and
       "invalid value for address length in 32bit expanded process token" *)
| ErrNewTokenID (id : byte)
    (* "new token ID found: 0x%x" *)
| ErrNoHeader
    (* "no header token found" *)
| ErrEOF
    (* io.EOF *)
| ErrIO (code : nat).
    (* any other error of the byte source *)

(** ** Byte-integer primitives *)

(** The loop shared by the three primitives, at width [w]. The iteration
    at index [i] sees [input[i]] and [exp = len(input) - i - 1], which is
    the length of what remains after [input[i]]. The length guard of each
    primitive keeps [exp] below [w / 8], where [math.Pow(256, exp)] is
    exact in [float64] and fits [w] bits, so the power is [256 ^ exp]. *)
Fixpoint accumulate (w : Z) (input : list byte) (result : Z) : Z :=
  match input with
  | [] => result
  | b :: rest =>
      let coeff := b2z b in
      let exp := len rest in
      let powerOf256 := 256 ^ exp in
      accumulate w rest (wrap w (result + wrap w (coeff * powerOf256)))
  end.

Definition bytesToUint64 (input : list byte) : Z * option error :=
  if 8 <? len input then (0, Some (ErrOverflow 64))
  else (accumulate 64 input 0, None).

Definition bytesToUint32 (input : list byte) : Z * option error :=
  if 4 <? len input then (0, Some (ErrOverflow 32))
  else (accumulate 32 input 0, None).

Definition bytesToUint16 (input : list byte) : Z * option error :=
  if 2 <? len input then (0, Some (ErrOverflow 16))
  else (accumulate 16 input 0, None).

(** The primitive of a given width, for statements that range over the
    three of them. *)
Definition bytesToUint (w : Z) : list byte -> Z * option error :=
  if w =? 16 then bytesToUint16
  else if w =? 32 then bytesToUint32
  else bytesToUint64.

(** The byte whose value is [z mod 256]. *)
Definition byteOfZ (z : Z) : byte :=
  match Byte.of_N (Z.to_N (z mod 256)) with
  | Some b => b
  | None => x00
  end.

(** The [n]-byte big-endian encoding of [N]. *)
Fixpoint bigEndian (n : nat) (N : Z) : list byte :=
  match n with
  | O => []
  | S k => byteOfZ (N / 256 ^ Z.of_nat k) :: bigEndian k N
  end.

(** ** Token sizer *)

(** The three ways [determineTokenSize] returns: a size, a request for
    more bytes, an error. The named results [size], [moreBytes], [err]
    start at [0], [0], [nil]. *)
Definition sized (size : Z) : Z * Z * option error := (size, 0, None).
Definition needMore (moreBytes : Z) : Z * Z * option error := (0, moreBytes, None).
Definition failed (e : error) : Z * Z * option error := (0, 0, Some e).

(** [bytes.Count(s, []byte{0x00})]. *)
Definition countNUL (s : list byte) : Z :=
  len (filter (Byte.eqb x00) s).

(** Size of a token whose length field is a 16-bit integer in
    [input[lo:hi]], once [input] holds [hi] bytes. *)
Definition withUint16 (input : list byte) (lo hi : Z)
    (k : Z -> Z * Z * option error) : Z * Z * option error :=
  if len input <? hi then needMore (hi - len input)
  else
    let '(v, cerr) := bytesToUint16 (slice input lo hi) in
    match cerr with
    | Some e => failed e
    | None => k v
    end.

(** The same with a 32-bit field in [input[lo:hi]], requested once
    [input] holds [need] bytes. *)
Definition withUint32 (input : list byte) (need lo hi : Z)
    (k : Z -> Z * Z * option error) : Z * Z * option error :=
  if len input <? need then needMore (need - len input)
  else
    let '(v, cerr) := bytesToUint32 (slice input lo hi) in
    match cerr with
    | Some e => failed e
    | None => k v
    end.

Definition determineTokenSize (input : list byte) : Z * Z * option error :=
  match input with
  | [] => needMore 1
  | id :: _ =>
    match id with
    | x11 => (* file token *)
        withUint16 input 9 (1 + 4 + 4 + 2) (fun fileNameLength =>
          sized (1 + 4 + 4 + 2 + fileNameLength + 1))
    | x13 => sized (1 + 2 + 4)
    | x14 => sized (1 + 4 + 1 + 2 + 2 + 4 + 4)
    | x15 => (* expanded 32 bit header token *)
        withUint32 input 15 10 14 (fun addrlen =>
          match addrlen with
          | 4 => sized (1 + 4 + 1 + 2 + 2 + 4 + 4 + 4 + 4)
          | 16 => sized (1 + 4 + 1 + 2 + 2 + 4 + 16 + 4 + 4)
          | _ => failed (ErrAddressType x15 addrlen)
          end)
    | x21 => (* arbitrary data token *)
        if len input <? 4 then needMore (4 - len input)
        else
          let unitSize := nth 2 input x00 in
          let unitCount := nth 3 input x00 in
          sized (1 + 1 + 1 + 1 + b2z unitSize * b2z unitCount)
    | x22 => sized (1 + 1 + 4)
    | x23 => (* path token *)
        withUint16 input 1 3 (fun count => sized (1 + 2 + count))
    | x24 => sized (1 + 4 + 4 + 4 + 4 + 4 + 4 + 4 + 4 + 4)
    | x25 => (* path attr token *)
        withUint16 input 1 3 (fun strCount =>
          if countNUL (skipn 3 input) <? strCount then needMore 1
          else sized (len input))
    | x26 => sized (1 + 4 + 4 + 4 + 4 + 4 + 4 + 4 + 4 + 4)
    | x27 => sized (1 + 1 + 4)
    | x28 => (* text token *)
        withUint16 input 1 3 (fun count => sized (1 + 2 + count))
    | x2a => sized (1 + 4)
    | x2b => sized (1 + 1 + 1 + 2 + 2 + 2 + 1 + 1 + 2 + 4 + 4)
    | x2c => sized (1 + 2)
    | x2d => (* 32bit arg token *)
        withUint16 input 6 8 (fun strlen => sized (1 + 1 + 4 + 2 + strlen))
    | x2e => sized (1 + 2 + 2 + 4)
    | x2f => sized (1 + 4)
    | x32 => sized (1 + 4 + 4 + 4 + 4 + 4 + 4 + 4)
    | x34 => (* groups token *)
        withUint16 input 1 3 (fun count => sized (1 + 2 + count * 4))
    | x3c => (* exec args token *)
        withUint32 input 5 1 5 (fun strCount =>
          if countNUL (skipn 5 input) <? strCount then needMore 1
          else sized (len input))
    | x3d => (* exec env token *)
        withUint32 input 5 1 5 (fun strCount =>
          if countNUL (skipn 5 input) <? strCount then needMore 1
          else sized (len input))
    | x3e => sized (1 + 4 + 4 + 4 + 4 + 8 + 4)
    | x52 => sized (1 + 4 + 4)
    | x60 => (* zone name token *)
        withUint16 input 1 3 (fun strlen => sized (1 + 2 + strlen))
    | x71 => (* 64 bit arg token *)
        withUint16 input 10 12 (fun strlen =>
          sized (1 + 1 + 8 + 2 + strlen + 1))
    | x72 => sized (1 + 1 + 8)
    | x73 => sized (1 + 4 + 4 + 4 + 4 + 8 + 8)
    | x74 => sized (1 + 4 + 1 + 2 + 2 + 8 + 8)
    | x75 => sized (1 + 4 + 4 + 4 + 4 + 4 + 4 + 4 + 8 + 4)
    | x77 => sized (1 + 4 + 4 + 4 + 4 + 4 + 4 + 4 + 8 + 8)
    | x79 => (* 64 bit expanded header token *)
        withUint32 input 15 10 14 (fun addrlen =>
          match addrlen with
          | 4 => sized (1 + 4 + 2 + 2 + 2 + 4 + 4 + 8 + 8)
          | 16 => sized (1 + 4 + 2 + 2 + 2 + 4 + 16 + 8 + 8)
          | _ => failed (ErrAddressType x79 addrlen)
          end)
    | x7a => (* expanded 32bit subject token *)
        withUint32 input 37 33 37 (fun addrlen =>
          match addrlen with
          | 4 => sized (1 + 4 + 4 + 4 + 4 + 4 + 4 + 4 + 4 + 4 + 4)
          | 16 => sized (1 + 4 + 4 + 4 + 4 + 4 + 4 + 4 + 4 + 4 + 16)
          | _ => failed (ErrAddressType x7a addrlen)
          end)
    | x7b => (* 32bit expanded process token *)
        withUint32 input 37 33 37 (fun addrlen =>
          match addrlen with
          | 4 => sized (1 + 4 + 4 + 4 + 4 + 4 + 4 + 4 + 4 + 4 + 4)
          | 16 => sized (1 + 4 + 4 + 4 + 4 + 4 + 4 + 4 + 4 + 4 + 16)
          | _ => failed (ErrAddressType x7b addrlen)
          end)
    | x7c => (* expanded 64bit subject token *)
        if len input <? 38 then needMore (38 - len input)
        else
          let addrlen := nth 37 input x00 in
          match addrlen with
          | x04 => sized (1 + 4 + 4 + 4 + 4 + 4 + 4 + 4 + 8 + 1 + 4)
          | x10 => sized (1 + 4 + 4 + 4 + 4 + 4 + 4 + 4 + 8 + 1 + 16)
          | _ => failed (ErrAddressType x7c (b2z addrlen))
          end
    | x7e => sized (1 + 1 + 16)
    | x7f => (* expanded socket token *)
        withUint16 input 5 7 (fun addrlen =>
          match addrlen with
          | 4 => sized (1 + 2 + 2 + 2 + 2 + 4 + 2 + 4)
          | 16 => sized (1 + 2 + 2 + 2 + 2 + 16 + 2 + 16)
          | _ => failed (ErrAddressType x7f addrlen)
          end)
    | x80 => sized (1 + 2 + 2 + 4)
    | x81 => sized (1 + 2 + 2 + 16)
    | x82 => sized (1 + 2 + 2 + 4)
    | _ => failed (ErrTokenSize id)
    end
  end.


(** ** Tokens

    The struct types the decoder builds or the framer inspects. [net.IP]
    and Go strings are byte sequences. *)

Definition IP : Type := list byte.
Definition gostring : Type := list byte.

Record TrailerToken : Type := mkTrailerToken {
  TrailerToken_TokenID : byte;
  TrailerToken_TrailerMagic : Z;
  TrailerToken_RecordByteCount : Z }.

Record HeaderToken32bit : Type := mkHeaderToken32bit {
  HeaderToken32bit_TokenID : byte;
  HeaderToken32bit_RecordByteCount : Z;
  HeaderToken32bit_VersionNumber : byte;
  HeaderToken32bit_EventType : Z;
  HeaderToken32bit_EventModifier : Z;
  HeaderToken32bit_Seconds : Z;
  HeaderToken32bit_NanoSeconds : Z }.

Record HeaderToken64bit : Type := mkHeaderToken64bit {
  HeaderToken64bit_TokenID : byte;
  HeaderToken64bit_RecordByteCount : Z;
  HeaderToken64bit_VersionNumber : byte;
  HeaderToken64bit_EventType : Z;
  HeaderToken64bit_EventModifier : Z;
  HeaderToken64bit_Seconds : Z;
  HeaderToken64bit_NanoSeconds : Z }.

Record ExpandedHeaderToken32bit : Type := mkExpandedHeaderToken32bit {
  ExpandedHeaderToken32bit_TokenID : byte;
  ExpandedHeaderToken32bit_RecordByteCount : Z;
  ExpandedHeaderToken32bit_VersionNumber : byte;
  ExpandedHeaderToken32bit_EventType : Z;
  ExpandedHeaderToken32bit_EventModifier : Z;
  ExpandedHeaderToken32bit_AddressType : Z;
  ExpandedHeaderToken32bit_MachineAddress : IP;
  ExpandedHeaderToken32bit_Seconds : Z;
  ExpandedHeaderToken32bit_NanoSeconds : Z }.

Record ExpandedHeaderToken64bit : Type := mkExpandedHeaderToken64bit {
  ExpandedHeaderToken64bit_TokenID : byte;
  ExpandedHeaderToken64bit_RecordByteCount : Z;
  ExpandedHeaderToken64bit_VersionNumber : byte;
  ExpandedHeaderToken64bit_EventType : Z;
  ExpandedHeaderToken64bit_EventModifier : Z;
  ExpandedHeaderToken64bit_AddressType : Z;
  ExpandedHeaderToken64bit_MachineAddress : IP;
  ExpandedHeaderToken64bit_Seconds : Z;
  ExpandedHeaderToken64bit_NanoSeconds : Z }.

Record PathToken : Type := mkPathToken {
  PathToken_TokenID : byte;
  PathToken_PathLength : Z;
  PathToken_Path : gostring }.

Record SubjectToken32bit : Type := mkSubjectToken32bit {
  SubjectToken32bit_TokenID : byte;
  SubjectToken32bit_AuditID : Z;
  SubjectToken32bit_EffectiveUserID : Z;
  SubjectToken32bit_EffectiveGroupID : Z;
  SubjectToken32bit_RealUserID : Z;
  SubjectToken32bit_RealGroupID : Z;
  SubjectToken32bit_ProcessID : Z;
  SubjectToken32bit_SessionID : Z;
  SubjectToken32bit_TerminalPortID : Z;
  SubjectToken32bit_TerminalMachineAddress : IP }.

Record ReturnToken32bit : Type := mkReturnToken32bit {
  ReturnToken32bit_TokenID : byte;
  ReturnToken32bit_ErrorNumber : byte;
  ReturnToken32bit_ReturnValue : Z }.

Record TextToken : Type := mkTextToken {
  TextToken_TokenID : byte;
  TextToken_TextLength : Z;
  TextToken_Text : gostring }.

Record IPortToken : Type := mkIPortToken {
  IPortToken_TokenID : byte;
  IPortToken_PortNumber : Z }.

Record ArgToken32bit : Type := mkArgToken32bit {
  ArgToken32bit_TokenID : byte;
  ArgToken32bit_ArgumentID : byte;
  ArgToken32bit_ArgumentValue : Z;
  ArgToken32bit_Length : Z;
  ArgToken32bit_Text : gostring }.

Record SocketToken : Type := mkSocketToken {
  SocketToken_TokenID : byte;
  SocketToken_SocketFamily : Z;
  SocketToken_LocalPort : Z;
  SocketToken_SocketAddress : IP }.

Record AttributeToken32bit : Type := mkAttributeToken32bit {
  AttributeToken32bit_TokenID : byte;
  AttributeToken32bit_FileAccessMode : Z;
  AttributeToken32bit_OwnerUserID : Z;
  AttributeToken32bit_OwnerGroupID : Z;
  AttributeToken32bit_FileSystemID : Z;
  AttributeToken32bit_FileSystemNodeID : Z;
  AttributeToken32bit_Device : Z }.

Record AttributeToken64bit : Type := mkAttributeToken64bit {
  AttributeToken64bit_TokenID : byte;
  AttributeToken64bit_FileAccessMode : Z;
  AttributeToken64bit_OwnerUserID : Z;
  AttributeToken64bit_OwnerGroupID : Z;
  AttributeToken64bit_FileSystemID : Z;
  AttributeToken64bit_FileSystemNodeID : Z;
  AttributeToken64bit_Device : Z }.

Record ExitToken : Type := mkExitToken {
  ExitToken_TokenID : byte;
  ExitToken_Status : Z;
  ExitToken_ReturnValue : Z }.

Record ZonenameToken : Type := mkZonenameToken {
  ZonenameToken_TokenID : byte;
  ZonenameToken_ZonenameLength : Z;
  ZonenameToken_Zonename : gostring }.

Record ExpandedSubjectToken32bit : Type := mkExpandedSubjectToken32bit {
  ExpandedSubjectToken32bit_TokenID : byte;
  ExpandedSubjectToken32bit_AuditID : Z;
  ExpandedSubjectToken32bit_EffectiveUserID : Z;
  ExpandedSubjectToken32bit_EffectiveGroupID : Z;
  ExpandedSubjectToken32bit_RealUserID : Z;
  ExpandedSubjectToken32bit_RealGroupID : Z;
  ExpandedSubjectToken32bit_ProcessID : Z;
  ExpandedSubjectToken32bit_SessionID : Z;
  ExpandedSubjectToken32bit_TerminalPortID : Z;
  ExpandedSubjectToken32bit_TerminalAddressLength : Z;
  ExpandedSubjectToken32bit_TerminalMachineAddress : IP }.

Record ExpandedProcessToken32bit : Type := mkExpandedProcessToken32bit {
  ExpandedProcessToken32bit_TokenID : byte;
  ExpandedProcessToken32bit_AuditID : Z;
  ExpandedProcessToken32bit_EffectiveUserID : Z;
  ExpandedProcessToken32bit_EffectiveGroupID : Z;
  ExpandedProcessToken32bit_RealUserID : Z;
  ExpandedProcessToken32bit_RealGroupID : Z;
  ExpandedProcessToken32bit_ProcessID : Z;
  ExpandedProcessToken32bit_SessionID : Z;
  ExpandedProcessToken32bit_TerminalPortID : Z;
  ExpandedProcessToken32bit_TerminalAddressLength : Z;
  ExpandedProcessToken32bit_TerminalMachineAddress : IP }.

(** A non-nil value of the interface type [empty]: a token together with
    its dynamic type. *)
Inductive empty : Type :=
| IsTrailerToken (t : TrailerToken)
| IsHeaderToken32bit (t : HeaderToken32bit)
| IsHeaderToken64bit (t : HeaderToken64bit)
| IsExpandedHeaderToken32bit (t : ExpandedHeaderToken32bit)
| IsExpandedHeaderToken64bit (t : ExpandedHeaderToken64bit)
| IsPathToken (t : PathToken)
| IsSubjectToken32bit (t : SubjectToken32bit)
| IsReturnToken32bit (t : ReturnToken32bit)
| IsTextToken (t : TextToken)
| IsIPortToken (t : IPortToken)
| IsArgToken32bit (t : ArgToken32bit)
| IsSocketToken (t : SocketToken)
| IsAttributeToken32bit (t : AttributeToken32bit)
| IsAttributeToken64bit (t : AttributeToken64bit)
| IsExitToken (t : ExitToken)
| IsZonenameToken (t : ZonenameToken)
| IsExpandedSubjectToken32bit (t : ExpandedSubjectToken32bit)
| IsExpandedProcessToken32bit (t : ExpandedProcessToken32bit).

(** The [TokenID] field of a token, whatever its type. *)
Definition TokenID (t : empty) : byte :=
  match t with
  | IsTrailerToken t => TrailerToken_TokenID t
  | IsHeaderToken32bit t => HeaderToken32bit_TokenID t
  | IsHeaderToken64bit t => HeaderToken64bit_TokenID t
  | IsExpandedHeaderToken32bit t => ExpandedHeaderToken32bit_TokenID t
  | IsExpandedHeaderToken64bit t => ExpandedHeaderToken64bit_TokenID t
  | IsPathToken t => PathToken_TokenID t
  | IsSubjectToken32bit t => SubjectToken32bit_TokenID t
  | IsReturnToken32bit t => ReturnToken32bit_TokenID t
  | IsTextToken t => TextToken_TokenID t
  | IsIPortToken t => IPortToken_TokenID t
  | IsArgToken32bit t => ArgToken32bit_TokenID t
  | IsSocketToken t => SocketToken_TokenID t
  | IsAttributeToken32bit t => AttributeToken32bit_TokenID t
  | IsAttributeToken64bit t => AttributeToken64bit_TokenID t
  | IsExitToken t => ExitToken_TokenID t
  | IsZonenameToken t => ZonenameToken_TokenID t
  | IsExpandedSubjectToken32bit t => ExpandedSubjectToken32bit_TokenID t
  | IsExpandedProcessToken32bit t => ExpandedProcessToken32bit_TokenID t
  end.

(** [net.IPv4(a, b, c, d)]: the 16-byte IPv4-in-IPv6 form. *)
Definition v4InV6Prefix : list byte :=
  [x00; x00; x00; x00; x00; x00; x00; x00; x00; x00; xff; xff].

Definition IPv4 (a b c d : byte) : IP := v4InV6Prefix ++ [a; b; c; d].

(** ** Outcomes of the decoder

    A call either returns a value with a nil error, returns a non-nil
    error, or panics (an index or slice bound out of range). *)

Inductive outcome (A : Type) : Type :=
| Ok (a : A)
| Err (e : error)
| Panic.

Arguments Ok {A} a.
Arguments Err {A} e.
Arguments Panic {A}.

Definition bind {A B : Type} (m : outcome A) (k : A -> outcome B) : outcome B :=
  match m with
  | Ok a => k a
  | Err e => Err e
  | Panic => Panic
  end.

Notation "x <- m ;; k" := (bind m (fun x => k))
  (at level 61, m at next level, right associativity).

Notation "' pat <- m ;; k" := (bind m (fun x => let 'pat := x in k))
  (at level 61, pat pattern, m at next level, right associativity).

(** [v, err := f(...); if err != nil { return nil, err }]. *)
Definition call {A : Type} (p : A * option error) : outcome A :=
  match snd p with
  | Some e => Err e
  | None => Ok (fst p)
  end.

(** [buf[i]], which panics out of range. *)
Definition index (buf : list byte) (i : Z) : outcome byte :=
  if i <? 0 then Panic
  else match nth_error buf (Z.to_nat i) with
       | Some b => Ok b
       | None => Panic
       end.

(** [buf[lo:hi]] for a buffer whose capacity is its length, which panics
    unless [0 <= lo <= hi <= len buf]. *)
Definition gslice (buf : list byte) (lo hi : Z) : outcome (list byte) :=
  if (0 <=? lo) && (lo <=? hi) && (hi <=? len buf)
  then Ok (slice buf lo hi)
  else Panic.

Definition uint16At (buf : list byte) (lo hi : Z) : outcome Z :=
  s <- gslice buf lo hi ;; call (bytesToUint16 s).

Definition uint32At (buf : list byte) (lo hi : Z) : outcome Z :=
  s <- gslice buf lo hi ;; call (bytesToUint32 s).

Definition uint64At (buf : list byte) (lo hi : Z) : outcome Z :=
  s <- gslice buf lo hi ;; call (bytesToUint64 s).

(** [net.IPv4(buf[i], buf[i+1], buf[i+2], buf[i+3])]. *)
Definition IPv4At (buf : list byte) (i : Z) : outcome IP :=
  a <- index buf i ;;
  b <- index buf (i + 1) ;;
  c <- index buf (i + 2) ;;
  d <- index buf (i + 3) ;;
  Ok (IPv4 a b c d).

(** ** [encoding/binary]: [Uvarint] and [Varint] of Go's standard library *)

(** The loop of [binary.Uvarint] from index [i], with the accumulator [x]
    and the shift [s]; [MaxVarintLen64] is 10. *)
Fixpoint UvarintFrom (buf : list byte) (i x s : Z) : Z * Z :=
  match buf with
  | [] => (0, 0)
  | b :: rest =>
      if i =? 10 then (0, - (i + 1))
      else if b2z b <? 0x80 then
        if (i =? 10 - 1) && (1 <? b2z b) then (0, - (i + 1))
        else (Z.lor x (wrap 64 (Z.shiftl (b2z b) s)), i + 1)
      else
        UvarintFrom rest (i + 1)
          (Z.lor x (wrap 64 (Z.shiftl (Z.land (b2z b) 0x7f) s))) (s + 7)
  end.

Definition Uvarint (buf : list byte) : Z * Z := UvarintFrom buf 0 0 0.

(** [binary.Varint]: the zig-zag decoding of [Uvarint]'s result. *)
Definition Varint (buf : list byte) : Z * Z :=
  let '(ux, n) := Uvarint buf in
  let x := Z.shiftr ux 1 in
  let x := if Z.land ux 1 =? 0 then x else Z.lnot x in
  (x, n).

(** ** Token decoder *)

(** [ParseHeaderToken32bit]: the token filled so far is returned beside
    the error. After the length check every slice below is in bounds. *)
Definition ParseHeaderToken32bit (input : list byte)
    : HeaderToken32bit * option error :=
  let token0 := mkHeaderToken32bit x00 0 x00 0 0 0 0 in
  if negb (len input =? 18) then (token0, Some ErrHeaderLength)
  else
    let tokenID := nth 0 input x00 in
    if negb (Byte.eqb tokenID x14) then (token0, Some ErrTokenIDMismatch)
    else
      let '(byteCount, err) := bytesToUint32 (slice input 1 5) in
      match err with
      | Some e => (mkHeaderToken32bit tokenID 0 x00 0 0 0 0, Some e)
      | None =>
      let version := nth 5 input x00 in
      let '(eventType, err) := bytesToUint16 (slice input 6 8) in
      match err with
      | Some e =>
          (mkHeaderToken32bit tokenID byteCount version 0 0 0 0, Some e)
      | None =>
      let '(eventModifier, err) := bytesToUint16 (slice input 8 10) in
      match err with
      | Some e =>
          (mkHeaderToken32bit tokenID byteCount version eventType 0 0 0,
           Some e)
      | None =>
      let '(seconds, err) := bytesToUint32 (slice input 10 14) in
      match err with
      | Some e =>
          (mkHeaderToken32bit tokenID byteCount version eventType
             eventModifier 0 0, Some e)
      | None =>
      let '(nanoSeconds, err) := bytesToUint32 (slice input 14 18) in
      match err with
      | Some e =>
          (mkHeaderToken32bit tokenID byteCount version eventType
             eventModifier seconds 0, Some e)
      | None =>
          (mkHeaderToken32bit tokenID byteCount version eventType
             eventModifier seconds nanoSeconds, None)
      end end end end end.

(** The three socket tokens with an IPv4 address (0x2e, 0x80, 0x82). *)
Definition socketToken4 (tokenBuffer : list byte) : outcome empty :=
  id <- index tokenBuffer 0 ;;
  family <- uint16At tokenBuffer 1 3 ;;
  port <- uint16At tokenBuffer 3 5 ;;
  addr <- IPv4At tokenBuffer 5 ;;
  Ok (IsSocketToken (mkSocketToken id family port addr)).

(** The eight 32-bit fields that open the subject and process tokens. *)
Definition eightUint32 (tokenBuffer : list byte)
    : outcome (Z * Z * Z * Z * Z * Z * Z * Z) :=
  auditID <- uint32At tokenBuffer 1 5 ;;
  effectiveUserID <- uint32At tokenBuffer 5 9 ;;
  effectiveGroupID <- uint32At tokenBuffer 9 13 ;;
  realUserID <- uint32At tokenBuffer 13 17 ;;
  realGroupID <- uint32At tokenBuffer 17 21 ;;
  processID <- uint32At tokenBuffer 21 25 ;;
  sessionID <- uint32At tokenBuffer 25 29 ;;
  terminalPortID <- uint32At tokenBuffer 29 33 ;;
  Ok (auditID, effectiveUserID, effectiveGroupID, realUserID, realGroupID,
      processID, sessionID, terminalPortID).

(** The [switch tokenBuffer[0]] that ends [TokenFromByteInput]
    ("process the buffer"). *)
Definition processBuffer (tokenBuffer : list byte) : outcome empty :=
  id <- index tokenBuffer 0 ;;
  match id with
  | x13 => (* trailer token *)
      tmagic <- uint16At tokenBuffer 1 3 ;;
      bcount <- uint32At tokenBuffer 3 6 ;;
      Ok (IsTrailerToken (mkTrailerToken id tmagic bcount))
  | x14 => (* 32 bit header token *)
      token <- call (ParseHeaderToken32bit tokenBuffer) ;;
      Ok (IsHeaderToken32bit token)
  | x23 => (* path token *)
      length <- uint16At tokenBuffer 1 3 ;;
      path <- gslice tokenBuffer 3 (wrap 16 (length + 2)) ;;
      Ok (IsPathToken (mkPathToken id length path))
  | x24 => (* 32 bit subject token *)
      '(auditID, effectiveUserID, effectiveGroupID, realUserID,
        realGroupID, processID, sessionID, terminalPortID)
        <- eightUint32 tokenBuffer ;;
      addr <- IPv4At tokenBuffer 33 ;;
      Ok (IsSubjectToken32bit
            (mkSubjectToken32bit id auditID effectiveUserID
               effectiveGroupID realUserID realGroupID processID
               sessionID terminalPortID addr))
  | x27 => (* 32 bit return token *)
      rval <- uint32At tokenBuffer 2 6 ;;
      errno <- index tokenBuffer 1 ;;
      Ok (IsReturnToken32bit (mkReturnToken32bit id errno rval))
  | x28 => (* text token *)
      length <- uint16At tokenBuffer 1 3 ;;
      text <- gslice tokenBuffer 3 (wrap 16 (length + 2)) ;;
      Ok (IsTextToken (mkTextToken id length text))
  | x2c => (* iport token *)
      port <- uint16At tokenBuffer 1 3 ;;
      Ok (IsIPortToken (mkIPortToken id port))
  | x2d => (* 32bit arg token *)
      argID <- index tokenBuffer 1 ;;
      val <- uint32At tokenBuffer 2 6 ;;
      length <- uint16At tokenBuffer 6 8 ;;
      text <- gslice tokenBuffer 8 (wrap 16 (length + 7)) ;;
      Ok (IsArgToken32bit (mkArgToken32bit id argID val length text))
  | x2e => socketToken4 tokenBuffer
  | x3e => (* 32bit attribute token *)
      mode <- uint32At tokenBuffer 1 5 ;;
      uid <- uint32At tokenBuffer 5 9 ;;
      gid <- uint32At tokenBuffer 9 13 ;;
      fsid <- uint32At tokenBuffer 13 17 ;;
      node <- uint64At tokenBuffer 17 25 ;;
      dev <- uint32At tokenBuffer 25 29 ;;
      Ok (IsAttributeToken32bit
            (mkAttributeToken32bit id mode uid gid fsid node dev))
  | x52 => (* exit token *)
      stat <- uint32At tokenBuffer 1 3 ;;
      s <- gslice tokenBuffer 3 7 ;;
      let '(rval, _) := Varint s in
      Ok (IsExitToken (mkExitToken id stat (toInt32 rval)))
  | x60 => (* zonename token *)
      length <- uint16At tokenBuffer 1 3 ;;
      name <- gslice tokenBuffer 3 (wrap 16 (length + 2)) ;;
      Ok (IsZonenameToken (mkZonenameToken id length name))
  | x73 => (* 64 bit attribute token *)
      mode <- uint32At tokenBuffer 1 5 ;;
      uid <- uint32At tokenBuffer 5 9 ;;
      gid <- uint32At tokenBuffer 9 13 ;;
      fsid <- uint32At tokenBuffer 13 17 ;;
      node <- uint64At tokenBuffer 17 25 ;;
      dev <- uint64At tokenBuffer 25 33 ;;
      Ok (IsAttributeToken64bit
            (mkAttributeToken64bit id mode uid gid fsid node dev))
  | x7a => (* expanded 32bit subject token *)
      '(auditID, effectiveUserID, effectiveGroupID, realUserID,
        realGroupID, processID, sessionID, terminalPortID)
        <- eightUint32 tokenBuffer ;;
      val <- uint32At tokenBuffer 33 37 ;;
      addr <- match val with
              | 4 => IPv4At tokenBuffer 37
              | 16 => gslice tokenBuffer 37 53
              | _ => Err (ErrTerminalAddress id)
              end ;;
      Ok (IsExpandedSubjectToken32bit
            (mkExpandedSubjectToken32bit id auditID effectiveUserID
               effectiveGroupID realUserID realGroupID processID
               sessionID terminalPortID val addr))
  | x7b => (* 32bit expanded process token *)
      '(auditID, effectiveUserID, effectiveGroupID, realUserID,
        realGroupID, processID, sessionID, terminalPortID)
        <- eightUint32 tokenBuffer ;;
      val <- uint32At tokenBuffer 33 37 ;;
      addr <- match val with
              | 4 => IPv4At tokenBuffer 37
              | 16 => gslice tokenBuffer 37 53
              | _ => Err (ErrTerminalAddress id)
              end ;;
      Ok (IsExpandedProcessToken32bit
            (mkExpandedProcessToken32bit id auditID effectiveUserID
               effectiveGroupID realUserID realGroupID processID
               sessionID terminalPortID val addr))
  | x80 => socketToken4 tokenBuffer
  | x81 => (* inet128 socket token *)
      family <- uint16At tokenBuffer 1 3 ;;
      port <- uint16At tokenBuffer 3 5 ;;
      addr <- gslice tokenBuffer 5 21 ;;
      Ok (IsSocketToken (mkSocketToken id family port addr))
  | x82 => socketToken4 tokenBuffer
  | _ => Err (ErrNewTokenID id)
  end.


(** ** The byte source

    [io.Reader]: [Read input n] is [input.Read(p)] for a slice [p] of
    length [n]. It gives the bytes stored at the front of [p] (their
    number is the count [Read] returns), the error, and the source after
    the call. *)

Class Reader (R : Type) : Type :=
  Read : R -> Z -> list byte * option error * R.

(** [bytes.Buffer], as the unread part of its contents. *)
Definition Buffer : Type := list byte.

#[export] Instance Buffer_Read : Reader Buffer :=
  fun b n =>
    match b with
    | [] => if n =? 0 then ([], None, b) else ([], Some ErrEOF, b)
    | _ => (firstn (Z.to_nat n) b, None, skipn (Z.to_nat n) b)
    end.

(** [make([]byte, n)]. *)
Definition make (n : Z) : list byte := repeat x00 (Z.to_nat n).

(** [copy(dst, src)]: the contents of [dst] afterwards. *)
Definition copy (dst src : list byte) : list byte :=
  firstn (length dst) src ++ skipn (length src) dst.

Definition sliceInBounds (buf : list byte) (lo hi : Z) : bool :=
  (0 <=? lo) && (lo <=? hi) && (hi <=? len buf).

(** ** Records *)

Record BsmRecord : Type := mkBsmRecord {
  Seconds : Z;
  NanoSeconds : Z;
  Tokens : list empty }.

(** What a call of a function without a panic-free guarantee does: it
    returns its results, or it panics. *)
Inductive returned (A : Type) : Type :=
| Returns (a : A)
| Panics.

Arguments Returns {A} a.
Arguments Panics {A}.

(** [_, isEnd := nextToken.(TrailerToken)]. *)
Definition isTrailerToken (t : empty) : bool :=
  match t with
  | IsTrailerToken _ => true
  | _ => false
  end.

Definition notTrailer (t : empty) : bool := negb (isTrailerToken t).

Section Decoder.

Context {R : Type} `{Reader R}.

(** [n, err := input.Read(buf[lo:hi])] for [lo:hi] in bounds: the
    buffer afterwards, [n], [err] and the source afterwards. A [Read]
    cannot store more than [hi - lo] bytes. *)
Definition readInto (input : R) (buf : list byte) (lo hi : Z)
    : list byte * Z * option error * R :=
  let '(data, err, input') := Read input (hi - lo) in
  let data := firstn (Z.to_nat (hi - lo)) data in
  let n := len data in
  (firstn (Z.to_nat lo) buf ++ data ++ skipn (Z.to_nat (lo + n)) buf,
   n, err, input').

(** The loop [for increase > 0] of [TokenFromByteInput]. A source may
    keep returning no byte and no error, so the loop runs on [fuel];
    [None] is the loop still running when the fuel is spent. *)
Fixpoint fill (fuel : nat) (input : R) (tokenBuffer : list byte)
    (bufidx increase : Z) : option (outcome (list byte * Z) * R) :=
  if increase >? 0 then
    match fuel with
    | O => None
    | S fuel' =>
        if sliceInBounds tokenBuffer bufidx (bufidx + increase) then
          let '(tokenBuffer, n, err, input) :=
            readInto input tokenBuffer bufidx (bufidx + increase) in
          match err with
          | Some e => Some (Err e, input)
          | None =>
              let bufidx := bufidx + n in
              let increase :=
                if negb (n =? increase) then increase - n else 0 in
              fill fuel' input tokenBuffer bufidx increase
          end
        else Some (Panic, input)
    end
  else Some (Ok (tokenBuffer, bufidx), input).

(** "read all the (remaining) bytes we need", then the switch. *)
Definition readRemaining (input : R) (tokenBuffer : list byte)
    (bufidx buflen : Z) : outcome empty * R :=
  if buflen <? 0 then (Panic, input)
  else
    let tokenBuffer := copy (make buflen) tokenBuffer in
    if sliceInBounds tokenBuffer bufidx buflen then
      let '(tokenBuffer, n, err, input) :=
        readInto input tokenBuffer bufidx buflen in
      match err with
      | Some e => (Err e, input)
      | None =>
          if negb (n =? buflen - bufidx)
          then (Err (ErrReadCount n (buflen - bufidx)), input)
          else (processBuffer tokenBuffer, input)
      end
    else (Panic, input).

Definition TokenFromByteInput (fuel : nat) (input : R)
    : option (outcome empty * R) :=
  let tokenBuffer := [x00] in
  let '(tokenBuffer, n, err, input) := readInto input tokenBuffer 0 1 in
  match err with
  | Some e => Some (Err e, input)
  | None =>
  if negb (n =? 1) then Some (Err (ErrReadCount n 1), input)
  else
    let bufidx := 1 in
    let '(buflen, increase, err) :=
      determineTokenSize (slice tokenBuffer 0 1) in
    match err with
    | Some e => Some (Err e, input)
    | None =>
    if negb (increase =? 0) then
      if 1 + increase <? 0 then Some (Panic, input)
      else
      let tokenBuffer := copy (make (1 + increase)) tokenBuffer in
      match fill fuel input tokenBuffer bufidx increase with
      | None => None
      | Some (Panic, input) => Some (Panic, input)
      | Some (Err e, input) => Some (Err e, input)
      | Some (Ok (tokenBuffer, bufidx), input) =>
          let '(buflen, increase, err) := determineTokenSize tokenBuffer in
          match err with
          | Some e => Some (Err e, input)
          | None => Some (readRemaining input tokenBuffer bufidx buflen)
          end
      end
    else Some (readRemaining input tokenBuffer bufidx buflen)
    end
  end.

(** The loop [for !isEnd] of [ReadBsmRecord]; [tokenFuel] is the fuel
    of each [TokenFromByteInput], [fuel] bounds the iterations. *)
Fixpoint collect (tokenFuel fuel : nat) (input : R) (rec : BsmRecord)
    (nextToken : empty)
    : option (returned (BsmRecord * option error) * R) :=
  if isTrailerToken nextToken then Some (Returns (rec, None), input)
  else
    match fuel with
    | O => None
    | S fuel' =>
        let rec :=
          mkBsmRecord (Seconds rec) (NanoSeconds rec)
            (Tokens rec ++ [nextToken]) in
        match TokenFromByteInput tokenFuel input with
        | None => None
        | Some (Panic, input) => Some (Panics, input)
        | Some (Err e, input) => Some (Returns (rec, Some e), input)
        | Some (Ok nextToken, input) =>
            collect tokenFuel fuel' input rec nextToken
        end
    end.

Definition ReadBsmRecord (fuel : nat) (input : R)
    : option (returned (BsmRecord * option error) * R) :=
  let rec := mkBsmRecord 0 0 [] in
  match TokenFromByteInput fuel input with
  | None => None
  | Some (Panic, input) => Some (Panics, input)
  | Some (Err e, input) => Some (Returns (rec, Some e), input)
  | Some (Ok header, input) =>
      let withTimestamps (seconds nanoSeconds : Z) :=
        let rec := mkBsmRecord seconds nanoSeconds (Tokens rec) in
        match TokenFromByteInput fuel input with
        | None => None
        | Some (Panic, input) => Some (Panics, input)
        | Some (Err e, input) => Some (Returns (rec, Some e), input)
        | Some (Ok nextToken, input) =>
            collect fuel fuel input rec nextToken
        end in
      match header with
      | IsHeaderToken32bit v =>
          withTimestamps (HeaderToken32bit_Seconds v)
            (HeaderToken32bit_NanoSeconds v)
      | IsHeaderToken64bit v =>
          withTimestamps (HeaderToken64bit_Seconds v)
            (HeaderToken64bit_NanoSeconds v)
      | IsExpandedHeaderToken32bit v =>
          withTimestamps (ExpandedHeaderToken32bit_Seconds v)
            (ExpandedHeaderToken32bit_NanoSeconds v)
      | IsExpandedHeaderToken64bit v =>
          withTimestamps (ExpandedHeaderToken64bit_Seconds v)
            (ExpandedHeaderToken64bit_NanoSeconds v)
      | _ => Some (Returns (rec, Some ErrNoHeader), input)
      end
  end.

End Decoder.

(** ** Vocabulary of the statements *)

(** The number a byte sequence denotes in network byte order. *)
Fixpoint beValue (s : list byte) : Z :=
  match s with
  | [] => 0
  | b :: rest => b2z b * 256 ^ len rest + beValue rest
  end.

(** The same four bytes as a signed two's-complement number. *)
Definition beInt32 (s : list byte) : Z := toInt32 (beValue s).

(** The token IDs of the registry. *)
Definition registry : list byte :=
  [x11; x13; x14; x74; x15; x79; x21; x22; x23; x24; x75; x25; x26; x77;
   x27; x72; x28; x2a; x2b; x2c; x2d; x71; x2e; x2f; x32; x34; x3c; x3d;
   x3e; x73; x52; x60; x7a; x7c; x7b; x7d; x7e; x7f; x80; x81; x82].

(** The token IDs that have a case in the switch of [processBuffer]. *)
Definition decoded : list byte :=
  [x13; x14; x23; x24; x27; x28; x2c; x2d; x2e; x3e; x52; x60; x73; x7a;
   x7b; x80; x81; x82].

(** The table of fixed token sizes: ID and total size in bytes. *)
Definition fixedSizes : list (byte * Z) :=
  [(x13, 7); (x14, 18); (x22, 6); (x24, 37); (x26, 37); (x27, 6); (x2a, 5);
   (x2b, 21); (x2c, 3); (x2e, 9); (x2f, 5); (x32, 29); (x3e, 29); (x52, 9);
   (x72, 10); (x73, 33); (x74, 26); (x75, 41); (x77, 41); (x7e, 18);
   (x80, 9); (x81, 21); (x82, 9)].

(** The size [TokenFromByteInput] obtains from the sizer for a token
    whose bytes are [buf]: one call on the ID and, when that call asks
    for more bytes, a second call on the ID and those bytes. *)
Definition reportedSize (buf : list byte) : option Z :=
  let '(buflen, increase, err) := determineTokenSize (slice buf 0 1) in
  match err with
  | Some _ => None
  | None =>
      if negb (increase =? 0) then
        let '(buflen, _, err) :=
          determineTokenSize (slice buf 0 (1 + increase)) in
        match err with
        | Some _ => None
        | None => Some buflen
        end
      else Some buflen
  end.

(** For the four tokens that carry one string (0x23, 0x28, 0x60, 0x2d):
    the declared length is at least 1 and the 16-bit end index of the
    string, [length + 2] or [length + 7], does not wrap. *)
Definition stringEndInRange (buf : list byte) : Prop :=
  match buf with
  | x23 :: _ | x28 :: _ | x60 :: _ =>
      1 <= beValue (slice buf 1 3) /\ beValue (slice buf 1 3) + 2 < 2 ^ 16
  | x2d :: _ =>
      1 <= beValue (slice buf 6 8) /\ beValue (slice buf 6 8) + 7 < 2 ^ 16
  | _ => True
  end.

(** The address-length or address-type field of an address-carrying
    token, once the input is long enough for the sizer to read it. *)
Definition addressField (input : list byte) : option Z :=
  match input with
  | x15 :: _ | x79 :: _ =>
      if 15 <=? len input then Some (beValue (slice input 10 14)) else None
  | x7a :: _ | x7b :: _ =>
      if 37 <=? len input then Some (beValue (slice input 33 37)) else None
  | x7c :: _ =>
      if 38 <=? len input then Some (b2z (nth 37 input x00)) else None
  | x7f :: _ =>
      if 7 <=? len input then Some (beValue (slice input 5 7)) else None
  | _ => None
  end.

(** The type switch of [ReadBsmRecord]: the header variants and their
    time stamps. *)
Definition headerTime (t : empty) : option (Z * Z) :=
  match t with
  | IsHeaderToken32bit v =>
      Some (HeaderToken32bit_Seconds v, HeaderToken32bit_NanoSeconds v)
  | IsHeaderToken64bit v =>
      Some (HeaderToken64bit_Seconds v, HeaderToken64bit_NanoSeconds v)
  | IsExpandedHeaderToken32bit v =>
      Some (ExpandedHeaderToken32bit_Seconds v,
            ExpandedHeaderToken32bit_NanoSeconds v)
  | IsExpandedHeaderToken64bit v =>
      Some (ExpandedHeaderToken64bit_Seconds v,
            ExpandedHeaderToken64bit_NanoSeconds v)
  | _ => None
  end.

(** [decodes fuel input ts input']: successive calls of
    [TokenFromByteInput] on [input] return the tokens [ts], each with a
    nil error, and leave the source as [input']. *)
Inductive decodes {R : Type} `{Reader R} (fuel : nat)
    : R -> list empty -> R -> Prop :=
| decodes_nil (input : R) : decodes fuel input [] input
| decodes_cons (input input' input'' : R) (t : empty) (ts : list empty) :
    TokenFromByteInput fuel input = Some (Ok t, input') ->
    decodes fuel input' ts input'' ->
    decodes fuel input (t :: ts) input''.

(** A result of the sizer whose size is not 0 comes with no request for
    more bytes and no error. *)
Definition exclusive (r : Z * Z * option error) : Prop :=
  fst (fst r) <> 0 -> snd (fst r) = 0 /\ snd r = None.

(** ** Sample inputs *)

(** An expanded 32-bit header (0x15) up to its address type, which is 4. *)
Definition sampleExpandedHeader32 : list byte :=
  x15 :: repeat x00 9 ++ [x00; x00; x00; x04; x00].

(** An expanded 64-bit header (0x79) laid out as its struct says, with
    address type 4 and a 4-byte address: 34 bytes. *)
Definition sampleExpandedHeader64 : list byte :=
  x79 :: repeat x00 9 ++ [x00; x00; x00; x04] ++ repeat x00 20.

(** An expanded 64-bit process token (0x7d) up to the byte at offset 37,
    which is 4. *)
Definition sampleExpandedProcess64 : list byte :=
  x7d :: repeat x00 36 ++ [x04].

(** A System V IPC token (0x22), six bytes. *)
Definition sampleSystemVIpc : list byte :=
  [x22; x01; x00; x00; x00; x2a].

(** An exit token (0x52) whose bytes 3..7 are 00 00 00 01. *)
Definition sampleExit : list byte :=
  [x52; x00; x00; x00; x00; x00; x01; x00; x00].

(** A trailer token (0x13) whose bytes 3..7 are 00 00 00 38. *)
Definition sampleTrailer : list byte :=
  [x13; xb1; x05; x00; x00; x00; x38].

(** A 32-bit header token (0x14). *)
Definition sampleHeader32 : list byte :=
  [x14; x00; x00; x00; x38; x0b; xaf; xc8; x00; x00;
   x5a; x9a; xc2; xe6; x00; x03; x01; x28].

(** A text token (0x28) holding "hello". *)
Definition sampleText : list byte :=
  [x28; x00; x06; x68; x65; x6c; x6c; x6f; x00].

(** An expanded 64-bit subject token (0x7c) up to the byte at offset 37,
    which is 16. *)
Definition sampleExpandedSubject64 : list byte :=
  x7c :: repeat x00 36 ++ [x10].

(** An expanded 32-bit subject token (0x7a) whose address length, the
    bytes at offsets 33..37, is 00 00 01 02. *)
Definition sampleExpandedSubject32 : list byte :=
  x7a :: repeat x00 32 ++ [x00; x00; x01; x02; x03].

(** The text token as a decoded value. *)
Definition sampleTextToken : empty :=
  IsTextToken (mkTextToken x28 6 [x68; x65; x6c; x6c; x6f]).

(** The 32-bit header token as a decoded value. *)
Definition sampleHeaderToken : empty :=
  IsHeaderToken32bit
    (mkHeaderToken32bit x14 56 x0b 0xafc8 0 0x5a9ac2e6 0x00030128).

(** A stream that holds a header, a text token and a byte that is no
    token ID. *)
Definition sampleBrokenStream : Buffer :=
  sampleHeader32 ++ sampleText ++ [xff].

(** A stream that holds one record with one text token. *)
Definition sampleStream : Buffer :=
  sampleHeader32 ++ sampleText ++ sampleTrailer.

(** The record the two sample streams lead to. *)
Definition sampleRecord : BsmRecord :=
  mkBsmRecord 0x5a9ac2e6 0x00030128 [sampleTextToken].

(** ** The stream generator *)

Record ParsingResult : Type := mkParsingResult {
  ParsingResult_Record : BsmRecord;
  ParsingResult_Error : option error }.

(** [res.Error == io.EOF]. *)
Definition isEOF (err : option error) : bool :=
  match err with
  | Some ErrEOF => true
  | _ => false
  end.

(** How the goroutine of [RecordGenerator] ends: it closes the channel,
    or a panic of [ReadBsmRecord] stops the program. *)
Inductive ending : Type :=
| Closed
| Crashed.

Section Generator.

Context {R : Type} `{Reader R}.

(** [RecordGenerator]: the values the goroutine sends on the channel, in
    the order it sends them, and how it ends. The loop has no bound of
    its own, so it runs on [fuel]; [recordFuel] is the fuel of each
    [ReadBsmRecord]. *)
Fixpoint RecordGenerator (recordFuel fuel : nat) (input : R)
    : option (list ParsingResult * ending * R) :=
  match fuel with
  | O => None
  | S fuel' =>
      match ReadBsmRecord recordFuel input with
      | None => None
      | Some (Panics, input) => Some ([], Crashed, input)
      | Some (Returns (rec, err), input) =>
          let res := mkParsingResult rec err in
          if isEOF (ParsingResult_Error res) then Some ([res], Closed, input)
          else
            match RecordGenerator recordFuel fuel' input with
            | None => None
            | Some (sent, e, input) => Some (res :: sent, e, input)
            end
      end
  end.

End Generator.

(** ** More vocabulary *)

(** The token IDs that have a case in [determineTokenSize]. *)
Definition sizerIDs : list byte :=
  [x11; x13; x14; x15; x21; x22; x23; x24; x25; x26; x27; x28; x2a; x2b;
   x2c; x2d; x2e; x2f; x32; x34; x3c; x3d; x3e; x52; x60; x71; x72; x73;
   x74; x75; x77; x79; x7a; x7b; x7c; x7e; x7f; x80; x81; x82].

(** The tokens whose size depends on their contents, with the number of
    bytes the sizer needs before it looks at them. *)
Definition decisionPoints : list (byte * Z) :=
  [(x11, 11); (x15, 15); (x21, 4); (x23, 3); (x25, 3); (x28, 3); (x2d, 8);
   (x34, 3); (x3c, 5); (x3d, 5); (x60, 3); (x71, 12); (x79, 15); (x7a, 37);
   (x7b, 37); (x7c, 38); (x7f, 7)].

(** The tokens with a 16-bit length or count field: ID, bounds of the
    field, and the size as [base + factor * field]. *)
Definition lengthPrefixed : list (byte * Z * Z * Z * Z) :=
  [(x11, 9, 11, 12, 1); (x23, 1, 3, 3, 1); (x28, 1, 3, 3, 1);
   (x2d, 6, 8, 8, 1); (x34, 1, 3, 3, 4); (x60, 1, 3, 3, 1);
   (x71, 10, 12, 13, 1)].

(** The tokens sized by counting NUL bytes: ID and end of the count
    field, which starts at offset 1. *)
Definition nulCounted : list (byte * Z) :=
  [(x25, 3); (x3c, 5); (x3d, 5)].

(** The three results of the sizer, told apart; [P] holds of the error. *)
Inductive sizerAnswer (P : error -> Prop) : Z * Z * option error -> Prop :=
| AnswerSize (size : Z) :
    0 < size -> sizerAnswer P (size, 0, None)
| AnswerMore (moreBytes : Z) :
    0 < moreBytes -> sizerAnswer P (0, moreBytes, None)
| AnswerError (e : error) :
    P e -> sizerAnswer P (0, 0, Some e).

(** The errors of an address length or address type that is not 4 or 16. *)
Definition isAddressError (e : error) : Prop :=
  match e with
  | ErrAddressType _ v => v <> 4 /\ v <> 16
  | _ => False
  end.

(** The error of a token ID without a case in the sizer. *)
Definition isTokenSizeError (e : error) : Prop :=
  match e with
  | ErrTokenSize _ => True
  | _ => False
  end.

(** The token IDs for which [processBuffer] builds each type of token;
    none for the three header types it never builds. *)
Definition variantIDs (t : empty) : list byte :=
  match t with
  | IsTrailerToken _ => [x13]
  | IsHeaderToken32bit _ => [x14]
  | IsHeaderToken64bit _ => []
  | IsExpandedHeaderToken32bit _ => []
  | IsExpandedHeaderToken64bit _ => []
  | IsPathToken _ => [x23]
  | IsSubjectToken32bit _ => [x24]
  | IsReturnToken32bit _ => [x27]
  | IsTextToken _ => [x28]
  | IsIPortToken _ => [x2c]
  | IsArgToken32bit _ => [x2d]
  | IsSocketToken _ => [x2e; x80; x81; x82]
  | IsAttributeToken32bit _ => [x3e]
  | IsAttributeToken64bit _ => [x73]
  | IsExitToken _ => [x52]
  | IsZonenameToken _ => [x60]
  | IsExpandedSubjectToken32bit _ => [x7a]
  | IsExpandedProcessToken32bit _ => [x7b]
  end.

(** The zero value of [HeaderToken32bit]. *)
Definition zeroHeaderToken32bit : HeaderToken32bit :=
  mkHeaderToken32bit x00 0 x00 0 0 0 0.

(** The fixed-size tokens that the sizer knows and the decoder's switch
    does not. *)
Definition sizedNotDecoded : list byte :=
  [x22; x26; x2a; x2b; x2f; x32; x72; x74; x75; x77; x7e].

(** [tokenBytes buf t]: [buf] has the size the sizer reports for it and
    the decoder's switch returns [t] on it. *)
Definition tokenBytes (buf : list byte) (t : empty) : Prop :=
  reportedSize buf = Some (len buf) /\ processBuffer buf = Ok t.

(** [recordBytes bytes rec]: [bytes] is a header token, the tokens of
    [rec], none of them a trailer, and a trailer token, and the header
    carries the time stamps of [rec]. *)
Definition recordBytes (bytes : list byte) (rec : BsmRecord) : Prop :=
  exists (header trailer : list byte) (interior : list (list byte))
         (h tr : empty),
    bytes = header ++ concat interior ++ trailer /\
    tokenBytes header h /\
    headerTime h = Some (Seconds rec, NanoSeconds rec) /\
    Forall2 tokenBytes interior (Tokens rec) /\
    forallb notTrailer (Tokens rec) = true /\
    tokenBytes trailer tr /\
    isTrailerToken tr = true.

(** The result that ends a stream: the zero record with [io.EOF]. *)
Definition endOfStream : ParsingResult :=
  mkParsingResult (mkBsmRecord 0 0 []) (Some ErrEOF).

(** [iotest.ErrReader(err)]: a byte source whose every [Read] returns no
    byte and the error [err]. *)
Definition ErrReader : Type := error.

#[export] Instance ErrReader_Read : Reader ErrReader :=
  fun r _ => ([], Some r, r).

(** A result of the generator whose error is not [io.EOF]. *)
Definition notEOF (res : ParsingResult) : Prop :=
  isEOF (ParsingResult_Error res) = false.

(** The bytes of a path (0x23), text (0x28) or zonename (0x60) token that
    holds the string [s]: the ID, the 16-bit length of the string with
    its terminator, the string, and the terminator [z]. *)
Definition stringTokenBytes (id : byte) (s : list byte) (z : byte)
    : list byte :=
  id :: bigEndian 2 (len s + 1) ++ s ++ [z].

(** The token of that ID with the declared length [n] and the string
    [s]. *)
Definition stringToken (id : byte) (n : Z) (s : gostring) : empty :=
  match id with
  | x23 => IsPathToken (mkPathToken id n s)
  | x28 => IsTextToken (mkTextToken id n s)
  | _ => IsZonenameToken (mkZonenameToken id n s)
  end.

(** ** Byte sources that fill their reads *)

(** [fillsReads content]: a byte source whose unread bytes are
    [content input] fills the slice it is given whenever that many bytes
    are left, and keeps the bytes after them, as [bytes.Buffer],
    [bytes.Reader] and [strings.Reader] do. Nothing is asked of a [Read]
    for no byte or for more bytes than are left. *)
Definition fillsReads {R : Type} `{Reader R} (content : R -> list byte)
    : Prop :=
  forall (input : R) (n : Z),
    0 < n <= len (content input) ->
    exists input' : R,
      Read input n = (firstn (Z.to_nat n) (content input), None, input') /\
      content input' = skipn (Z.to_nat n) (content input).

(** [iotest.OneByteReader(r)] over a [bytes.Buffer]: a [Read] into a
    slice that is not empty reads one byte from [r]. *)
Record OneByteReader : Type := mkOneByteReader {
  OneByteReader_r : Buffer }.

#[export] Instance OneByteReader_Read : Reader OneByteReader :=
  fun input n =>
    if n =? 0 then ([], None, input)
    else
      let '(data, err, r) := Read (OneByteReader_r input) 1 in
      (data, err, mkOneByteReader r).

(** * Properties *)

(** ** Bytes and lengths *)

Lemma b2z_range (b : byte) : 0 <= b2z b < 256.
Proof.
  unfold b2z. pose proof (Byte.to_N_bounded b). lia.
Qed.

Lemma b2z_byteOfZ (z : Z) : b2z (byteOfZ z) = z mod 256.
Proof.
  unfold byteOfZ, b2z.
  pose proof (Z.mod_pos_bound z 256 ltac:(lia)) as Hz.
  destruct (Byte.of_N (Z.to_N (z mod 256))) as [b|] eqn:E.
  - apply Byte.to_of_N in E. rewrite E. lia.
  - apply Byte.of_N_None_iff in E. lia.
Qed.

Lemma b2z_inj (a b : byte) : b2z a = b2z b -> a = b.
Proof.
  unfold b2z. intros E. apply N2Z.inj in E.
  pose proof (Byte.of_to_N a) as Ha. pose proof (Byte.of_to_N b) as Hb.
  rewrite E in Ha. congruence.
Qed.

Lemma len_nonneg {A : Type} (l : list A) : 0 <= len l.
Proof. unfold len. lia. Qed.

Lemma len_cons {A : Type} (a : A) (l : list A) : len (a :: l) = 1 + len l.
Proof. unfold len. cbn [length]. lia. Qed.

Lemma len_slice {A : Type} (l : list A) (lo hi : Z) :
  0 <= lo <= hi -> hi <= len l -> len (slice l lo hi) = hi - lo.
Proof.
  unfold len, slice. intros Hlo Hhi.
  rewrite length_firstn, length_skipn. lia.
Qed.

Lemma len_bigEndian (n : nat) (N : Z) : len (bigEndian n N) = Z.of_nat n.
Proof.
  unfold len. f_equal. induction n as [|k IH]; cbn [bigEndian length]; congruence.
Qed.

(** ** The primitives compute the big-endian value *)

Lemma beValue_bounds (s : list byte) : 0 <= beValue s < 256 ^ len s.
Proof.
  induction s as [|b rest IH]; cbn [beValue].
  - unfold len. cbn. lia.
  - rewrite len_cons. pose proof (b2z_range b) as Hb.
    pose proof (len_nonneg rest) as Hl.
    rewrite Z.pow_add_r, Z.pow_1_r by lia. nia.
Qed.

Lemma accumulate_wrap (w : Z) (s : list byte) (acc : Z) :
  accumulate w s (wrap w acc) = wrap w (acc + beValue s).
Proof.
  revert acc. induction s as [|b rest IH]; intros acc; cbn [accumulate beValue].
  - now rewrite Z.add_0_r.
  - assert (E : wrap w (wrap w acc + wrap w (b2z b * 256 ^ len rest))
                = wrap w (acc + b2z b * 256 ^ len rest))
      by (unfold wrap; symmetry; apply Zplus_mod).
    rewrite E, IH. f_equal. lia.
Qed.

Lemma accumulate_beValue (w : Z) (s : list byte) :
  0 <= w -> len s * 8 <= w -> accumulate w s 0 = beValue s.
Proof.
  intros Hw Hlen.
  assert (E0 : 0 = wrap w 0) by (unfold wrap; now rewrite Z.mod_0_l by (apply Z.pow_nonzero; lia)).
  rewrite E0 at 1. rewrite accumulate_wrap. cbn [Z.add]. unfold wrap.
  apply Z.mod_small. pose proof (beValue_bounds s) as Hb.
  pose proof (len_nonneg s) as Hl.
  assert (256 ^ len s <= 2 ^ w).
  { replace 256 with (2 ^ 8) by reflexivity. rewrite <- Z.pow_mul_r by lia.
    apply Z.pow_le_mono_r; lia. }
  lia.
Qed.

Lemma beValue_bigEndian (n : nat) (N : Z) :
  beValue (bigEndian n N) = N mod 256 ^ Z.of_nat n.
Proof.
  induction n as [|k IH]; cbn [bigEndian beValue].
  - cbn. now rewrite Z.mod_1_r.
  - rewrite IH, len_bigEndian, b2z_byteOfZ, Nat2Z.inj_succ, Z.pow_succ_r by lia.
    rewrite (Z.mul_comm 256), Z.rem_mul_r by (try apply Z.pow_nonzero; lia).
    lia.
Qed.

Lemma bytesToUint16_value (s : list byte) :
  len s <= 2 -> bytesToUint16 s = (beValue s, None).
Proof.
  intros Hs. unfold bytesToUint16.
  destruct (Z.ltb_spec 2 (len s)); [lia|].
  now rewrite accumulate_beValue by lia.
Qed.

Lemma bytesToUint32_value (s : list byte) :
  len s <= 4 -> bytesToUint32 s = (beValue s, None).
Proof.
  intros Hs. unfold bytesToUint32.
  destruct (Z.ltb_spec 4 (len s)); [lia|].
  now rewrite accumulate_beValue by lia.
Qed.

Lemma bytesToUint64_value (s : list byte) :
  len s <= 8 -> bytesToUint64 s = (beValue s, None).
Proof.
  intros Hs. unfold bytesToUint64.
  destruct (Z.ltb_spec 8 (len s)); [lia|].
  now rewrite accumulate_beValue by lia.
Qed.

(** C4. Integer round trip: for each width [w] of 16, 32 and 64 bits and
    each [N] from [0] to [2^w - 1], the primitive of that width returns
    [N] with a nil error on the [w/8]-byte big-endian encoding of [N];
    and on every slice longer than [w/8] bytes it returns an error. *)
Theorem bytesToUint_roundtrip (w N : Z) (input : list byte) :
  In w [16; 32; 64] ->
  0 <= N <= 2 ^ w - 1 ->
  w / 8 < len input ->
  bytesToUint w (bigEndian (Z.to_nat (w / 8)) N) = (N, None) /\
  exists e, bytesToUint w input = (0, Some e).
Proof.
  intros Hw HN Hlong.
  assert (Hround : forall n, w = 8 * Z.of_nat n ->
            beValue (bigEndian n N) = N).
  { intros n ->. rewrite beValue_bigEndian.
    replace 256 with (2 ^ 8) by reflexivity.
    rewrite <- Z.pow_mul_r by lia. apply Z.mod_small. lia. }
  cbn [In] in Hw. destruct Hw as [<-|[<-|[<-|[]]]]; cbn in Hlong |- *.
  - split.
    + change (Pos.to_nat 2) with 2%nat.
      rewrite bytesToUint16_value by (rewrite len_bigEndian; lia).
      now rewrite Hround by reflexivity.
    + unfold bytesToUint16. destruct (Z.ltb_spec 2 (len input)); [eauto|lia].
  - split.
    + change (Pos.to_nat 4) with 4%nat.
      rewrite bytesToUint32_value by (rewrite len_bigEndian; lia).
      now rewrite Hround by reflexivity.
    + unfold bytesToUint32. destruct (Z.ltb_spec 4 (len input)); [eauto|lia].
  - split.
    + change (Pos.to_nat 8) with 8%nat.
      rewrite bytesToUint64_value by (rewrite len_bigEndian; lia).
      now rewrite Hround by reflexivity.
    + unfold bytesToUint64. destruct (Z.ltb_spec 8 (len input)); [eauto|lia].
Qed.

(** ** The sizer *)

(** C3. Fixed token sizes: on the one-byte input holding the ID, the
    sizer returns the listed size of every entry of the table with no
    request for more bytes and no error, except for 0x77 (64-bit process
    token), where it returns 45 and the table lists 41. *)
Theorem fixed_sizes_except_process64 :
  Forall (fun entry =>
            fst entry = x77 \/
            determineTokenSize [fst entry] = (snd entry, 0, None))
         fixedSizes /\
  In (x77, 41) fixedSizes /\
  determineTokenSize [x77] = (45, 0, None).
Proof.
  split; [|split].
  - unfold fixedSizes.
    repeat (apply Forall_cons;
            [first [right; reflexivity | left; reflexivity]|]).
    apply Forall_nil.
  - unfold fixedSizes. cbn [In]. tauto.
  - reflexivity.
Qed.

Lemma address_switch {A : Type} (v : Z) (a b c : A) :
  v <> 4 -> v <> 16 ->
  match v with 4 => a | 16 => b | _ => c end = c.
Proof.
  intros H4 H16.
  destruct v as [|p|p]; try reflexivity.
  do 5 (destruct p as [p|p|]; try reflexivity; try contradiction).
Qed.

Lemma byte_address_switch {A : Type} (v : byte) (a b c : A) :
  b2z v <> 4 -> b2z v <> 16 ->
  match v with x04 => a | x10 => b | _ => c end = c.
Proof.
  intros H4 H16.
  destruct v; first [reflexivity | exfalso; apply H4; reflexivity
                    | exfalso; apply H16; reflexivity].
Qed.

Lemma withUint16_ready (input : list byte) (lo hi : Z)
    (k : Z -> Z * Z * option error) :
  0 <= lo <= hi -> hi - lo <= 2 -> hi <= len input ->
  withUint16 input lo hi k = k (beValue (slice input lo hi)).
Proof.
  intros Hlo Hw Hlen. unfold withUint16.
  destruct (Z.ltb_spec (len input) hi); [lia|].
  now rewrite bytesToUint16_value by (rewrite len_slice; lia).
Qed.

Lemma withUint32_ready (input : list byte) (need lo hi : Z)
    (k : Z -> Z * Z * option error) :
  0 <= lo <= hi -> hi - lo <= 4 -> hi <= need -> need <= len input ->
  withUint32 input need lo hi k = k (beValue (slice input lo hi)).
Proof.
  intros Hlo Hw Hneed Hlen. unfold withUint32.
  destruct (Z.ltb_spec (len input) need); [lia|].
  now rewrite bytesToUint32_value by (rewrite len_slice; lia).
Qed.

(** C5, as the code has it. For the expanded 32-bit header token 0x15,
    given at least 15 bytes, the sizer reads the 32-bit address type at
    offsets 10..14 and, when it is 4 or 16, returns the base 22 plus the
    address length: 26 or 38. *)
Theorem expanded_header_size (input : list byte) (addrlen : Z) :
  hd_error input = Some x15 ->
  15 <= len input ->
  beValue (slice input 10 14) = addrlen ->
  addrlen = 4 \/ addrlen = 16 ->
  determineTokenSize input = (22 + addrlen, 0, None).
Proof.
  intros Hid Hlen Hfield Haddr.
  destruct input as [|b rest]; [discriminate|].
  cbn [hd_error] in Hid. injection Hid as ->.
  unfold determineTokenSize; cbv beta iota.
  rewrite withUint32_ready by lia. rewrite Hfield.
  destruct Haddr as [->| ->]; reflexivity.
Qed.

(** C5, as the claim states it, fails: with address type 4 the sizer
    gives 26 for an expanded 32-bit header, not 19 + 4. *)
Lemma expanded_header_size_not_23 :
  hd_error sampleExpandedHeader32 = Some x15 /\
  15 <= len sampleExpandedHeader32 /\
  beValue (slice sampleExpandedHeader32 10 14) = 4 /\
  determineTokenSize sampleExpandedHeader32 = (26, 0, None) /\
  determineTokenSize sampleExpandedHeader32 <> (19 + 4, 0, None).
Proof.
  split; [reflexivity|]. split; [vm_compute; discriminate|].
  split; [reflexivity|]. split; [reflexivity|].
  vm_compute. discriminate.
Qed.

(** The sum of the 64-bit sibling 0x79 counts two bytes for the version
    number, where [ExpandedHeaderToken64bit] has one byte and the address
    type is read at offsets 10..14 all the same: a token of 34 bytes,
    laid out as the struct says with a 4-byte address, is sized 35. *)
Lemma expanded_header64_size_off_by_one :
  len sampleExpandedHeader64 = 1 + 4 + 1 + 2 + 2 + 4 + 4 + 8 + 8 /\
  beValue (slice sampleExpandedHeader64 10 14) = 4 /\
  determineTokenSize sampleExpandedHeader64 = (35, 0, None).
Proof.
  split; [reflexivity|]. split; reflexivity.
Qed.

(** C6, as the code has it. For the expanded 64-bit subject token 0x7c,
    given at least 38 bytes, the sizer reads the byte at offset 37 and
    returns 38 + 4 = 42 when it is 4 and 38 + 16 = 54 when it is 16. *)
Theorem expanded_subject64_size (input : list byte) (addrlen : byte)
    (n : Z) :
  hd_error input = Some x7c ->
  38 <= len input ->
  nth 37 input x00 = addrlen ->
  In (addrlen, n) [(x04, 4); (x10, 16)] ->
  determineTokenSize input = (38 + n, 0, None).
Proof.
  intros Hid Hlen Hfield Haddr.
  destruct input as [|b rest]; [discriminate|].
  cbn [hd_error] in Hid. injection Hid as ->.
  unfold determineTokenSize; cbv beta iota zeta.
  destruct (Z.ltb_spec (len (x7c :: rest)) 38); [lia|].
  rewrite Hfield. cbn [In] in Haddr.
  destruct Haddr as [E|[E|[]]]; injection E as <- <-; reflexivity.
Qed.

(** C6, as the claim states it, fails for 0x7d: the sizer has no case
    for that ID and returns its unknown-token error. *)
Lemma expanded_process64_not_sized :
  hd_error sampleExpandedProcess64 = Some x7d /\
  38 <= len sampleExpandedProcess64 /\
  nth 37 sampleExpandedProcess64 x00 = x04 /\
  determineTokenSize sampleExpandedProcess64
    = (0, 0, Some (ErrTokenSize x7d)) /\
  determineTokenSize sampleExpandedProcess64 <> (42, 0, None).
Proof.
  split; [reflexivity|]. split; [vm_compute; discriminate|].
  split; [reflexivity|]. split; [reflexivity|].
  vm_compute. discriminate.
Qed.

(** C7. For an input that starts with one of the address-carrying IDs
    0x15, 0x79, 0x7a, 0x7b, 0x7c, 0x7f and is long enough for the sizer
    to read the address-length or address-type field, a field value
    other than 4 and 16 makes the sizer return an error, with neither a
    size nor a request for more bytes. *)
Theorem invalid_address_length_is_error (input : list byte) (v : Z) :
  addressField input = Some v ->
  v <> 4 -> v <> 16 ->
  exists e, determineTokenSize input = (0, 0, Some e).
Proof.
  intros Hfield H4 H16.
  destruct input as [|id rest]; [discriminate|].
  unfold addressField in Hfield.
  destruct id; try discriminate Hfield; cbv beta iota in Hfield;
    match type of Hfield with
    | (if ?n <=? ?l then _ else _) = _ =>
        destruct (Z.leb_spec n l) as [Hlen|]; [|discriminate Hfield]
    end;
    injection Hfield as Hv;
    unfold determineTokenSize; cbv beta iota zeta.
  - (* 0x15 *)
    rewrite withUint32_ready by lia. rewrite Hv.
    rewrite address_switch by assumption. unfold failed. eauto.
  - (* 0x79 *)
    rewrite withUint32_ready by lia. rewrite Hv.
    rewrite address_switch by assumption. unfold failed. eauto.
  - (* 0x7a *)
    rewrite withUint32_ready by lia. rewrite Hv.
    rewrite address_switch by assumption. unfold failed. eauto.
  - (* 0x7b *)
    rewrite withUint32_ready by lia. rewrite Hv.
    rewrite address_switch by assumption. unfold failed. eauto.
  - (* 0x7c *)
    match goal with
    | |- context [?l <? 38] => destruct (Z.ltb_spec l 38); [lia|]
    end.
    rewrite byte_address_switch by (subst v; assumption).
    unfold failed. eauto.
  - (* 0x7f *)
    rewrite withUint16_ready by lia. rewrite Hv.
    rewrite address_switch by assumption. unfold failed. eauto.
Qed.

(** ** Slices of prefixes *)

Lemma len_prefix {A : Type} (l : list A) (n : Z) :
  0 <= n -> len (slice l 0 n) = Z.min n (len l).
Proof.
  intros Hn. unfold len, slice. cbn [Z.to_nat skipn].
  rewrite length_firstn. lia.
Qed.

Lemma slice_prefix {A : Type} (l : list A) (n lo hi : Z) :
  0 <= lo <= hi -> hi <= n ->
  slice (slice l 0 n) lo hi = slice l lo hi.
Proof.
  intros Hlo Hhi. unfold slice. cbn [Z.to_nat skipn].
  rewrite skipn_firstn_comm, firstn_firstn. f_equal. lia.
Qed.

Lemma prefix_cons {A : Type} (a : A) (l : list A) (n : Z) :
  0 < n -> slice (a :: l) 0 n = a :: slice l 0 (n - 1).
Proof.
  intros Hn. unfold slice. cbn [Z.to_nat skipn].
  replace (Z.to_nat (n - 0)) with (S (Z.to_nat (n - 1 - 0))) by lia.
  reflexivity.
Qed.

Lemma withUint16_prefix (input : list byte) (n lo hi : Z)
    (k : Z -> Z * Z * option error) :
  0 <= lo <= hi -> hi <= n ->
  withUint16 (slice input 0 n) lo hi k = withUint16 input lo hi k.
Proof.
  intros Hlo Hhi. unfold withUint16.
  rewrite len_prefix, slice_prefix by lia.
  destruct (Z.ltb_spec (len input) hi) as [Hshort|Hlong].
  - rewrite Z.min_r by lia.
    destruct (Z.ltb_spec (len input) hi); [reflexivity|lia].
  - destruct (Z.ltb_spec (Z.min n (len input)) hi); [lia|reflexivity].
Qed.

Lemma withUint32_prefix (input : list byte) (n need lo hi : Z)
    (k : Z -> Z * Z * option error) :
  0 <= lo <= hi -> hi <= need -> need <= n ->
  withUint32 (slice input 0 n) need lo hi k = withUint32 input need lo hi k.
Proof.
  intros Hlo Hhi Hneed. unfold withUint32.
  rewrite len_prefix, slice_prefix by lia.
  destruct (Z.ltb_spec (len input) need) as [Hshort|Hlong].
  - rewrite Z.min_r by lia.
    destruct (Z.ltb_spec (len input) need); [reflexivity|lia].
  - destruct (Z.ltb_spec (Z.min n (len input)) need); [lia|reflexivity].
Qed.

(** ** Shape of the sizer's result *)

Lemma exclusive_sized (size : Z) : exclusive (sized size).
Proof. unfold exclusive, sized. cbn. auto. Qed.

Lemma exclusive_needMore (n : Z) : exclusive (needMore n).
Proof. unfold exclusive, needMore. cbn. intros []. reflexivity. Qed.

Lemma exclusive_failed (e : error) : exclusive (failed e).
Proof. unfold exclusive, failed. cbn. intros []. reflexivity. Qed.

Lemma exclusive_if (c : bool) (a b : Z * Z * option error) :
  exclusive a -> exclusive b -> exclusive (if c then a else b).
Proof. destruct c; auto. Qed.

Lemma exclusive_withUint16 (input : list byte) (lo hi : Z)
    (k : Z -> Z * Z * option error) :
  (forall v, exclusive (k v)) -> exclusive (withUint16 input lo hi k).
Proof.
  intros Hk. unfold withUint16.
  apply exclusive_if; [apply exclusive_needMore|].
  destruct (bytesToUint16 _) as [v [e|]]; [apply exclusive_failed|apply Hk].
Qed.

Lemma exclusive_withUint32 (input : list byte) (need lo hi : Z)
    (k : Z -> Z * Z * option error) :
  (forall v, exclusive (k v)) -> exclusive (withUint32 input need lo hi k).
Proof.
  intros Hk. unfold withUint32.
  apply exclusive_if; [apply exclusive_needMore|].
  destruct (bytesToUint32 _) as [v [e|]]; [apply exclusive_failed|apply Hk].
Qed.

Lemma exclusive_address_switch (v : Z) (a b c : Z * Z * option error) :
  exclusive a -> exclusive b -> exclusive c ->
  exclusive (match v with 4 => a | 16 => b | _ => c end).
Proof.
  intros Ha Hb Hc.
  destruct v as [|p|p]; try assumption.
  do 5 (destruct p as [p|p|]; try assumption).
Qed.

Lemma exclusive_byte_switch (v : byte) (a b c : Z * Z * option error) :
  exclusive a -> exclusive b -> exclusive c ->
  exclusive (match v with x04 => a | x10 => b | _ => c end).
Proof.
  intros Ha Hb Hc. destruct v; assumption.
Qed.

Create HintDb sizer.

#[local] Hint Resolve exclusive_sized exclusive_needMore exclusive_failed
  exclusive_if exclusive_withUint16 exclusive_withUint32
  exclusive_address_switch exclusive_byte_switch : sizer.

Lemma determineTokenSize_exclusive (input : list byte) :
  exclusive (determineTokenSize input).
Proof.
  destruct input as [|id rest]; [apply exclusive_needMore|].
  destruct id; unfold determineTokenSize; cbv beta iota zeta;
    auto 6 with sizer.
Qed.

(** ** The two calls of the sizer *)

Lemma determineTokenSize_prefix (id : byte) (rest : list byte) (n : Z) :
  In (id, n) [(x23, 3); (x28, 3); (x60, 3); (x2d, 8); (x7a, 37); (x7b, 37)] ->
  determineTokenSize (slice (id :: rest) 0 n) = determineTokenSize (id :: rest).
Proof.
  intros Hin. cbn [In] in Hin.
  repeat (destruct Hin as [E|Hin]; [injection E as <- <-|]);
    try contradiction;
    rewrite prefix_cons by lia;
    unfold determineTokenSize; cbv beta iota;
    rewrite <- prefix_cons by lia;
    first [apply withUint16_prefix | apply withUint32_prefix]; lia.
Qed.

(** For the IDs the decoder knows, the size obtained from the sizer
    through the two calls of [TokenFromByteInput] is the size the sizer
    gives on the whole token. *)
Lemma reportedSize_decoded (buf : list byte) (id : byte) (n : Z) :
  hd_error buf = Some id ->
  In id decoded ->
  reportedSize buf = Some n ->
  n <> 0 ->
  determineTokenSize buf = (n, 0, None).
Proof.
  intros Hid Hdec Hsize Hn.
  destruct buf as [|b rest]; [discriminate|].
  cbn [hd_error] in Hid. injection Hid as ->.
  unfold reportedSize in Hsize.
  change (slice (id :: rest) 0 1) with [id] in Hsize.
  unfold decoded in Hdec. cbn [In] in Hdec.
  repeat (destruct Hdec as [<-|Hdec]); try contradiction;
    (* fixed sizes: one call *)
    try (injection Hsize as <-; reflexivity);
    (* variable sizes: a second call on the prefix *)
    match type of Hsize with
    | context [determineTokenSize [?b]] =>
        let r := eval vm_compute in (determineTokenSize [b]) in
        change (determineTokenSize [b]) with r in Hsize
    end;
    cbv beta iota zeta in Hsize;
    cbn [negb Z.eqb Pos.eqb Z.add Pos.add Pos.succ] in Hsize;
    rewrite determineTokenSize_prefix in Hsize by (cbn [In]; tauto);
    match goal with
    | |- determineTokenSize ?l = _ =>
        pose proof (determineTokenSize_exclusive l) as Hx;
        destruct (determineTokenSize l) as [[size more] [e|]];
        [discriminate Hsize|]
    end;
    injection Hsize as ->;
    destruct (Hx Hn) as [Hmore _]; cbn in Hmore; now subst more.
Qed.

Lemma sized_inj (size n : Z) : sized size = (n, 0, None) -> n = size.
Proof. unfold sized. congruence. Qed.

Lemma withUint16_sized (input : list byte) (lo hi : Z)
    (k : Z -> Z * Z * option error) (n : Z) :
  withUint16 input lo hi k = (n, 0, None) -> n <> 0 ->
  0 <= lo <= hi -> hi - lo <= 2 ->
  hi <= len input /\ k (beValue (slice input lo hi)) = (n, 0, None).
Proof.
  intros Hs Hn Hlo Hw. unfold withUint16 in Hs.
  destruct (Z.ltb_spec (len input) hi) as [Hshort|Hlong].
  - unfold needMore in Hs. congruence.
  - now rewrite bytesToUint16_value in Hs by (rewrite len_slice; lia).
Qed.

Lemma withUint32_sized (input : list byte) (need lo hi : Z)
    (k : Z -> Z * Z * option error) (n : Z) :
  withUint32 input need lo hi k = (n, 0, None) -> n <> 0 ->
  0 <= lo <= hi -> hi - lo <= 4 -> hi <= need ->
  need <= len input /\ k (beValue (slice input lo hi)) = (n, 0, None).
Proof.
  intros Hs Hn Hlo Hw Hneed. unfold withUint32 in Hs.
  destruct (Z.ltb_spec (len input) need) as [Hshort|Hlong].
  - unfold needMore in Hs. congruence.
  - now rewrite bytesToUint32_value in Hs by (rewrite len_slice; lia).
Qed.

Lemma address_sized (v n s4 s16 : Z) (c : Z * Z * option error) :
  match v with 4 => sized s4 | 16 => sized s16 | _ => c end = (n, 0, None) ->
  c = (n, 0, None) \/ (v = 4 /\ n = s4) \/ (v = 16 /\ n = s16).
Proof.
  intros Hs.
  destruct (Z.eq_dec v 4) as [->|N4]; [apply sized_inj in Hs; auto|].
  destruct (Z.eq_dec v 16) as [->|N16]; [apply sized_inj in Hs; auto|].
  rewrite address_switch in Hs by assumption. auto.
Qed.

(** ** Reading fields of a buffer that is long enough *)

Lemma index_ok (buf : list byte) (i : Z) :
  0 <= i < len buf -> index buf i = Ok (nth (Z.to_nat i) buf x00).
Proof.
  intros Hi. unfold index.
  destruct (Z.ltb_spec i 0); [lia|].
  destruct (nth_error buf (Z.to_nat i)) as [b|] eqn:E.
  - now rewrite (nth_error_nth _ _ _ E).
  - apply nth_error_None in E. unfold len in Hi. lia.
Qed.

Lemma gslice_ok (buf : list byte) (lo hi : Z) :
  0 <= lo <= hi -> hi <= len buf -> gslice buf lo hi = Ok (slice buf lo hi).
Proof.
  intros Hlo Hhi. unfold gslice.
  destruct (Z.leb_spec 0 lo); [|lia].
  destruct (Z.leb_spec lo hi); [|lia].
  destruct (Z.leb_spec hi (len buf)); [|lia].
  reflexivity.
Qed.

Lemma uint16At_ok (buf : list byte) (lo hi : Z) :
  0 <= lo <= hi -> hi <= len buf -> hi - lo <= 2 ->
  uint16At buf lo hi = Ok (beValue (slice buf lo hi)).
Proof.
  intros Hlo Hhi Hw. unfold uint16At.
  rewrite gslice_ok by lia. cbn [bind].
  now rewrite bytesToUint16_value by (rewrite len_slice; lia).
Qed.

Lemma uint32At_ok (buf : list byte) (lo hi : Z) :
  0 <= lo <= hi -> hi <= len buf -> hi - lo <= 4 ->
  uint32At buf lo hi = Ok (beValue (slice buf lo hi)).
Proof.
  intros Hlo Hhi Hw. unfold uint32At.
  rewrite gslice_ok by lia. cbn [bind].
  now rewrite bytesToUint32_value by (rewrite len_slice; lia).
Qed.

Lemma uint64At_ok (buf : list byte) (lo hi : Z) :
  0 <= lo <= hi -> hi <= len buf -> hi - lo <= 8 ->
  uint64At buf lo hi = Ok (beValue (slice buf lo hi)).
Proof.
  intros Hlo Hhi Hw. unfold uint64At.
  rewrite gslice_ok by lia. cbn [bind].
  now rewrite bytesToUint64_value by (rewrite len_slice; lia).
Qed.

Lemma IPv4At_ok (buf : list byte) (i : Z) :
  0 <= i -> i + 4 <= len buf ->
  IPv4At buf i =
    Ok (IPv4 (nth (Z.to_nat i) buf x00) (nth (Z.to_nat (i + 1)) buf x00)
          (nth (Z.to_nat (i + 2)) buf x00) (nth (Z.to_nat (i + 3)) buf x00)).
Proof.
  intros Hi Hlen. unfold IPv4At.
  now rewrite !index_ok by lia.
Qed.

Lemma eightUint32_ok (buf : list byte) :
  33 <= len buf ->
  eightUint32 buf =
    Ok (beValue (slice buf 1 5), beValue (slice buf 5 9),
        beValue (slice buf 9 13), beValue (slice buf 13 17),
        beValue (slice buf 17 21), beValue (slice buf 21 25),
        beValue (slice buf 25 29), beValue (slice buf 29 33)).
Proof.
  intros Hlen. unfold eightUint32.
  now rewrite !uint32At_ok by lia.
Qed.

Lemma socketToken4_ok (buf : list byte) :
  9 <= len buf ->
  socketToken4 buf =
    Ok (IsSocketToken
          (mkSocketToken (nth 0 buf x00) (beValue (slice buf 1 3))
             (beValue (slice buf 3 5))
             (IPv4 (nth 5 buf x00) (nth 6 buf x00) (nth 7 buf x00)
                (nth 8 buf x00)))).
Proof.
  intros Hlen. unfold socketToken4.
  rewrite index_ok, !uint16At_ok, IPv4At_ok by lia. reflexivity.
Qed.

Lemma ParseHeaderToken32bit_ok (input : list byte) :
  len input = 18 -> nth 0 input x00 = x14 ->
  ParseHeaderToken32bit input =
    (mkHeaderToken32bit x14 (beValue (slice input 1 5)) (nth 5 input x00)
       (beValue (slice input 6 8)) (beValue (slice input 8 10))
       (beValue (slice input 10 14)) (beValue (slice input 14 18)), None).
Proof.
  intros Hlen Hid. unfold ParseHeaderToken32bit.
  rewrite Hlen, Hid. cbn [Z.eqb Pos.eqb negb Byte.eqb].
  change (Byte.eqb x14 x14) with true. cbn [negb].
  rewrite !bytesToUint32_value, !bytesToUint16_value
    by (rewrite len_slice; lia).
  reflexivity.
Qed.

(** ** The decoder *)

Ltac field_step :=
  first
    [ rewrite uint16At_ok by lia
    | rewrite uint32At_ok by lia
    | rewrite uint64At_ok by lia
    | rewrite eightUint32_ok by lia
    | rewrite IPv4At_ok by lia
    | rewrite index_ok by lia
    | rewrite gslice_ok by lia
    | rewrite socketToken4_ok by lia ];
  cbn [bind].

(** C1, as the code has it. For every token ID that has a case in the
    decoder's switch (0x13, 0x14, 0x23, 0x24, 0x27, 0x28, 0x2c, 0x2d,
    0x2e, 0x3e, 0x52, 0x60, 0x73, 0x7a, 0x7b, 0x80, 0x81, 0x82) and every
    buffer of exactly the size the sizer reported for it, whose declared
    string length (tokens 0x23, 0x28, 0x60, 0x2d) is at least 1 and keeps
    the 16-bit end index in range, the decoder returns, with a nil error,
    a token whose [TokenID] is the buffer's first byte. *)
Theorem decoder_totality_decoded (buf : list byte) (id : byte) :
  hd_error buf = Some id ->
  In id decoded ->
  reportedSize buf = Some (len buf) ->
  stringEndInRange buf ->
  exists token, processBuffer buf = Ok token /\ TokenID token = id.
Proof.
  intros Hid Hdec Hsize Hstr.
  assert (Hpos : len buf <> 0)
    by (destruct buf; [discriminate|rewrite len_cons; pose proof (len_nonneg buf); lia]).
  pose proof (reportedSize_decoded buf id (len buf) Hid Hdec Hsize Hpos) as Hs.
  clear Hsize.
  destruct buf as [|b rest]; [discriminate|].
  cbn [hd_error] in Hid. injection Hid as ->.
  unfold decoded in Hdec. cbn [In] in Hdec.
  repeat (destruct Hdec as [<-|Hdec]); try contradiction;
    unfold determineTokenSize in Hs; cbv beta iota in Hs;
    unfold processBuffer;
    change (index (?a :: rest) 0) with (Ok a); cbn [bind]; cbv beta iota.
  all: try (apply sized_inj in Hs; rename Hs into Hlen).
  all: try solve [repeat field_step; eexists; split; reflexivity].
  - (* 0x14 *)
    rewrite ParseHeaderToken32bit_ok by (lia || reflexivity).
    cbn [call snd fst bind]. eexists; split; reflexivity.
  - (* 0x23 *)
    apply withUint16_sized in Hs; [|assumption|lia..].
    destruct Hs as [Hlong Hs]. apply sized_inj in Hs.
    unfold stringEndInRange in Hstr. cbv beta iota in Hstr.
    change (2 ^ 16) with 65536 in *.
    field_step. unfold wrap. rewrite Z.mod_small by lia.
    field_step. eexists; split; reflexivity.
  - (* 0x28 *)
    apply withUint16_sized in Hs; [|assumption|lia..].
    destruct Hs as [Hlong Hs]. apply sized_inj in Hs.
    unfold stringEndInRange in Hstr. cbv beta iota in Hstr.
    change (2 ^ 16) with 65536 in *.
    field_step. unfold wrap. rewrite Z.mod_small by lia.
    field_step. eexists; split; reflexivity.
  - (* 0x2d *)
    apply withUint16_sized in Hs; [|assumption|lia..].
    destruct Hs as [Hlong Hs]. apply sized_inj in Hs.
    unfold stringEndInRange in Hstr. cbv beta iota in Hstr.
    change (2 ^ 16) with 65536 in *.
    do 3 field_step. unfold wrap. rewrite Z.mod_small by lia.
    field_step. eexists; split; reflexivity.
  - (* 0x52 *)
    repeat field_step. destruct (Varint _) as [rval n].
    eexists; split; reflexivity.
  - (* 0x60 *)
    apply withUint16_sized in Hs; [|assumption|lia..].
    destruct Hs as [Hlong Hs]. apply sized_inj in Hs.
    unfold stringEndInRange in Hstr. cbv beta iota in Hstr.
    change (2 ^ 16) with 65536 in *.
    field_step. unfold wrap. rewrite Z.mod_small by lia.
    field_step. eexists; split; reflexivity.
  - (* 0x7a *)
    apply withUint32_sized in Hs; [|assumption|lia..].
    destruct Hs as [Hlong Hs].
    apply address_sized in Hs.
    destruct Hs as [Hs|[[Hv Hlen]|[Hv Hlen]]]; [discriminate Hs| |];
      do 2 field_step; rewrite Hv; cbv beta iota;
      field_step; eexists; split; reflexivity.
  - (* 0x7b *)
    apply withUint32_sized in Hs; [|assumption|lia..].
    destruct Hs as [Hlong Hs].
    apply address_sized in Hs.
    destruct Hs as [Hs|[[Hv Hlen]|[Hv Hlen]]]; [discriminate Hs| |];
      do 2 field_step; rewrite Hv; cbv beta iota;
      field_step; eexists; split; reflexivity.
Qed.

(** C1, as the claim states it, fails: the System V IPC token 0x22 is in
    the registry and the sizer gives its size, 6, but the decoder has no
    case for it and returns the error "new token ID found". *)
Lemma decoder_rejects_SystemVIpc :
  In x22 registry /\
  hd_error sampleSystemVIpc = Some x22 /\
  reportedSize sampleSystemVIpc = Some (len sampleSystemVIpc) /\
  TokenFromByteInput 1 (sampleSystemVIpc : Buffer)
    = Some (Err (ErrNewTokenID x22), []) /\
  processBuffer sampleSystemVIpc = Err (ErrNewTokenID x22) /\
  ~ (exists token,
       processBuffer sampleSystemVIpc = Ok token /\ TokenID token = x22).
Proof.
  split; [unfold registry; cbn [In]; tauto|].
  split; [reflexivity|]. split; [reflexivity|].
  split; [reflexivity|]. split; [reflexivity|].
  intros [token [Hdec _]]. vm_compute in Hdec. discriminate Hdec.
Qed.

(** The fields of the exit token, for every nine-byte buffer. *)
Lemma exit_token_fields (buf : list byte) :
  hd_error buf = Some x52 -> len buf = 9 ->
  processBuffer buf =
    Ok (IsExitToken
          (mkExitToken x52 (beValue (slice buf 1 3))
             (toInt32 (fst (Varint (slice buf 3 7)))))).
Proof.
  intros Hid Hlen. destruct buf as [|b rest]; [discriminate|].
  cbn [hd_error] in Hid. injection Hid as ->.
  unfold processBuffer.
  change (index (x52 :: rest) 0) with (Ok x52). cbn [bind]. cbv beta iota.
  repeat field_step. now destruct (Varint _).
Qed.

(** C8. On the nine-byte exit token whose bytes at offsets 3..7 are
    00 00 00 01, a correctly sized buffer, the decoder sets [Status] to
    the two-byte big-endian value at offsets 1..3, as claimed, but sets
    [ReturnValue] to 0, the [binary.Varint] reading of those bytes,
    whereas their four-byte big-endian two's-complement value is 1. *)
Theorem exit_return_value_is_varint :
  reportedSize sampleExit = Some (len sampleExit) /\
  beInt32 (slice sampleExit 3 7) = 1 /\
  processBuffer sampleExit =
    Ok (IsExitToken (mkExitToken x52 (beValue (slice sampleExit 1 3)) 0)).
Proof.
  split; [reflexivity|]. split; reflexivity.
Qed.

(** The fields of the trailer token, for every seven-byte buffer. *)
Lemma trailer_token_fields (buf : list byte) :
  hd_error buf = Some x13 -> len buf = 7 ->
  processBuffer buf =
    Ok (IsTrailerToken
          (mkTrailerToken x13 (beValue (slice buf 1 3))
             (beValue (slice buf 3 6)))).
Proof.
  intros Hid Hlen. destruct buf as [|b rest]; [discriminate|].
  cbn [hd_error] in Hid. injection Hid as ->.
  unfold processBuffer.
  change (index (x13 :: rest) 0) with (Ok x13). cbn [bind]. cbv beta iota.
  now repeat field_step.
Qed.

(** C9. On the seven-byte trailer token b1 05 / 00 00 00 38, a correctly
    sized buffer, the decoder sets [RecordByteCount] to 0, the value of
    the three bytes at offsets 3..6, whereas the four-byte big-endian
    value at offsets 3..7 is 56. *)
Theorem trailer_byte_count_reads_three_bytes :
  reportedSize sampleTrailer = Some (len sampleTrailer) /\
  beValue (slice sampleTrailer 3 7) = 56 /\
  beValue (slice sampleTrailer 3 6) = 0 /\
  processBuffer sampleTrailer =
    Ok (IsTrailerToken (mkTrailerToken x13 0xb105 0)).
Proof.
  split; [reflexivity|]. split; [reflexivity|]. split; reflexivity.
Qed.

(** ** The framer *)

Section Framing.

Context {R : Type} `{Reader R}.

Lemma decodes_app (fuel : nat) (input input' input'' : R)
    (ts ts' : list empty) :
  decodes fuel input ts input' -> decodes fuel input' ts' input'' ->
  decodes fuel input (ts ++ ts') input''.
Proof.
  induction 1 as [|? ? ? ? ? Hstep _ IH]; intros Hrest; cbn [app].
  - assumption.
  - eapply decodes_cons; [exact Hstep|auto].
Qed.

(** The loop, when it ends without an error: the token in hand and
    the tokens read after it are the appended tokens followed by a
    trailer. *)
Lemma collect_returns (tokenFuel fuel : nat) :
  forall (input : R) (rec : BsmRecord) (nextToken : empty)
         (rec' : BsmRecord) (input' : R),
    collect tokenFuel fuel input rec nextToken
      = Some (Returns (rec', None), input') ->
    exists (later interior : list empty) (trailer : empty),
      decodes tokenFuel input later input' /\
      nextToken :: later = interior ++ [trailer] /\
      isTrailerToken trailer = true /\
      forallb notTrailer interior = true /\
      Tokens rec' = Tokens rec ++ interior /\
      Seconds rec' = Seconds rec /\
      NanoSeconds rec' = NanoSeconds rec.
Proof.
  induction fuel as [|fuel IH]; intros input rec nextToken rec' input' Hc;
    cbn [collect] in Hc;
    destruct (isTrailerToken nextToken) eqn:Hend.
  - injection Hc as <- <-.
    exists [], [], nextToken. rewrite app_nil_r.
    repeat split; auto using decodes_nil.
  - discriminate Hc.
  - injection Hc as <- <-.
    exists [], [], nextToken. rewrite app_nil_r.
    repeat split; auto using decodes_nil.
  - destruct (TokenFromByteInput tokenFuel input)
      as [[[next|e|] input1]|] eqn:Hnext; try discriminate Hc.
    apply IH in Hc.
    destruct Hc as (later & interior & trailer & Hdec & Hsplit & Htrl
                    & Hint & Htok & Hsec & Hnano).
    exists (next :: later), (nextToken :: interior), trailer.
    cbn [Tokens Seconds NanoSeconds] in Htok, Hsec, Hnano.
    repeat split; auto.
    + eapply decodes_cons; eauto.
    + cbn [app]. now rewrite Hsplit.
    + cbn [forallb]. unfold notTrailer at 1. now rewrite Hend, Hint.
    + rewrite Htok, <- app_assoc. reflexivity.
Qed.

(** The loop, when it ends with an error: every token read before the
    failing call has been appended. *)
Lemma collect_fails (tokenFuel fuel : nat) :
  forall (input : R) (rec : BsmRecord) (nextToken : empty)
         (rec' : BsmRecord) (e : error) (input' : R),
    collect tokenFuel fuel input rec nextToken
      = Some (Returns (rec', Some e), input') ->
    exists (later : list empty) (input2 : R),
      decodes tokenFuel input later input2 /\
      TokenFromByteInput tokenFuel input2 = Some (Err e, input') /\
      forallb notTrailer (nextToken :: later) = true /\
      Tokens rec' = Tokens rec ++ nextToken :: later /\
      Seconds rec' = Seconds rec /\
      NanoSeconds rec' = NanoSeconds rec.
Proof.
  induction fuel as [|fuel IH];
    intros input rec nextToken rec' e input' Hc;
    cbn [collect] in Hc;
    destruct (isTrailerToken nextToken) eqn:Hend; try discriminate Hc.
  destruct (TokenFromByteInput tokenFuel input)
    as [[[next|e'|] input1]|] eqn:Hnext; try discriminate Hc.
  - apply IH in Hc.
    destruct Hc as (later & input2 & Hdec & Hfail & Hint & Htok
                    & Hsec & Hnano).
    exists (next :: later), input2.
    cbn [Tokens Seconds NanoSeconds] in Htok, Hsec, Hnano.
    repeat split; auto.
    + eapply decodes_cons; eauto.
    + cbn [forallb] in Hint |- *. unfold notTrailer at 1.
      now rewrite Hend, Hint.
    + rewrite Htok, <- app_assoc. reflexivity.
  - injection Hc as <- <- <-.
    exists [], input. cbn [Tokens Seconds NanoSeconds forallb].
    unfold notTrailer. rewrite Hend.
    repeat split; auto using decodes_nil.
Qed.

End Framing.

(** ** Reading a token from a [bytes.Buffer] *)

Lemma firstn_len_app {A : Type} (l l' : list A) :
  firstn (Z.to_nat (len l)) (l ++ l') = l.
Proof.
  unfold len. rewrite Nat2Z.id.
  rewrite firstn_app, Nat.sub_diag, firstn_all. cbn [firstn].
  apply app_nil_r.
Qed.

Lemma skipn_len_app {A : Type} (l l' : list A) :
  skipn (Z.to_nat (len l)) (l ++ l') = l'.
Proof.
  unfold len. rewrite Nat2Z.id.
  rewrite skipn_app, Nat.sub_diag, skipn_all. reflexivity.
Qed.

Lemma len_app {A : Type} (l l' : list A) : len (l ++ l') = len l + len l'.
Proof. unfold len. rewrite length_app. lia. Qed.

Lemma len_make (n : Z) : 0 <= n -> len (make n) = n.
Proof. intros Hn. unfold len, make. rewrite repeat_length. lia. Qed.

Lemma Buffer_Read_exact (data rest : list byte) :
  Read (data ++ rest : Buffer) (len data) = (data, None, rest).
Proof.
  unfold Read, Buffer_Read.
  destruct (data ++ rest) as [|b l] eqn:E.
  - apply app_eq_nil in E. destruct E as [-> ->]. reflexivity.
  - rewrite <- E. now rewrite firstn_len_app, skipn_len_app.
Qed.

Lemma readInto_Buffer (buf data rest : list byte) (lo : Z) :
  0 <= lo -> len buf = lo + len data ->
  readInto (data ++ rest : Buffer) buf lo (lo + len data)
    = (firstn (Z.to_nat lo) buf ++ data, len data, None, rest).
Proof.
  intros Hlo Hlen. unfold readInto.
  replace (lo + len data - lo) with (len data) by lia.
  rewrite Buffer_Read_exact.
  assert (E : firstn (Z.to_nat (len data)) data = data)
    by (apply firstn_all2; unfold len; lia).
  rewrite E.
  rewrite skipn_all2 by (unfold len in *; lia).
  now rewrite app_nil_r.
Qed.

Lemma copy_make (p : list byte) (n : Z) :
  0 <= n -> copy (make (len p + n)) p = p ++ make n.
Proof.
  intros Hn. unfold copy, make.
  rewrite repeat_length.
  replace (Z.to_nat (len p + n)) with (length p + Z.to_nat n)%nat
    by (unfold len; lia).
  rewrite repeat_app, skipn_app, repeat_length, Nat.sub_diag.
  rewrite (skipn_all2 (repeat x00 (length p))) by (rewrite repeat_length; lia).
  rewrite firstn_all2 by lia. reflexivity.
Qed.

(** With the bytes of the rest of the token at the front of the buffer,
    the last read completes the token and the switch runs on it. *)
Lemma readRemaining_Buffer (p data rest : list byte) :
  readRemaining (data ++ rest : Buffer) p (len p) (len p + len data)
    = (processBuffer (p ++ data), rest).
Proof.
  unfold readRemaining.
  pose proof (len_nonneg p) as Hp. pose proof (len_nonneg data) as Hd.
  destruct (Z.ltb_spec (len p + len data) 0); [lia|].
  rewrite copy_make by lia.
  unfold sliceInBounds. rewrite len_app, len_make by lia.
  destruct (Z.leb_spec 0 (len p)); [|lia].
  destruct (Z.leb_spec (len p) (len p + len data)); [|lia].
  destruct (Z.leb_spec (len p + len data) (len p + len data)); [|lia].
  cbn [andb].
  rewrite readInto_Buffer by (rewrite ?len_app, ?len_make; lia).
  rewrite firstn_len_app.
  replace (len data =? len p + len data - len p) with true
    by (symmetry; apply Z.eqb_eq; lia).
  reflexivity.
Qed.

(** One turn of the loop is enough when the buffer holds the bytes asked
    for. *)
Lemma fill_Buffer (fuel : nat) (p data rest : list byte) :
  0 < len data ->
  fill (S fuel) (data ++ rest : Buffer) (p ++ make (len data)) (len p)
    (len data)
    = Some (Ok (p ++ data, len p + len data), rest).
Proof.
  intros Hd. pose proof (len_nonneg p) as Hp.
  cbn [fill].
  destruct (Z.gtb_spec (len data) 0); [|lia].
  unfold sliceInBounds. rewrite len_app, len_make by lia.
  destruct (Z.leb_spec 0 (len p)); [|lia].
  destruct (Z.leb_spec (len p) (len p + len data)); [|lia].
  destruct (Z.leb_spec (len p + len data) (len p + len data)); [|lia].
  cbn [andb].
  rewrite readInto_Buffer by (rewrite ?len_app, ?len_make; lia).
  rewrite firstn_len_app. rewrite Z.eqb_refl. cbn [negb].
  destruct fuel; cbn [fill]; reflexivity.
Qed.

Lemma first_read_Buffer (id : byte) (rest : list byte) :
  readInto (id :: rest : Buffer) [x00] 0 1 = ([id], 1, None, rest).
Proof.
  exact (readInto_Buffer [x00] [id] rest 0 ltac:(lia) eq_refl).
Qed.

(** A token whose size the sizer gives from the ID alone. *)
Lemma TokenFromByteInput_one_call (fuel : nat) (id : byte)
    (tl rest : list byte) (n : Z) :
  determineTokenSize [id] = (n, 0, None) ->
  n = len (id :: tl) ->
  TokenFromByteInput fuel ((id :: tl) ++ rest : Buffer)
    = Some (processBuffer (id :: tl), rest).
Proof.
  intros Hsize Hn. unfold TokenFromByteInput.
  cbn [app]. rewrite first_read_Buffer. cbv beta iota zeta.
  change (slice [id] 0 1) with [id]. rewrite Hsize. cbv beta iota zeta.
  cbn [negb Z.eqb Pos.eqb].
  pose proof (readRemaining_Buffer [id] tl rest) as Hr.
  change (len [id]) with 1 in Hr. rewrite len_cons in Hn.
  rewrite <- Hn in Hr. rewrite Hr. reflexivity.
Qed.

(** A token whose size the sizer gives once it has the first [k]
    bytes. *)
Lemma TokenFromByteInput_two_calls (fuel : nat) (id : byte)
    (tl rest : list byte) (k n : Z) :
  determineTokenSize [id] = (0, k - 1, None) ->
  1 < k -> k <= len (id :: tl) ->
  determineTokenSize (slice (id :: tl) 0 k) = (n, 0, None) ->
  n = len (id :: tl) ->
  TokenFromByteInput (S fuel) ((id :: tl) ++ rest : Buffer)
    = Some (processBuffer (id :: tl), rest).
Proof.
  intros Hfirst Hk Hlong Hsize Hn. rewrite len_cons in Hlong, Hn.
  pose proof (len_nonneg tl) as Htl.
  unfold TokenFromByteInput.
  cbn [app]. rewrite first_read_Buffer. cbv beta iota zeta.
  change (slice [id] 0 1) with [id]. rewrite Hfirst. cbv beta iota zeta.
  cbn [negb Z.eqb Pos.eqb].
  destruct (Z.eqb_spec (k - 1) 0); [lia|]. cbn [negb].
  destruct (Z.ltb_spec (1 + (k - 1)) 0); [lia|].
  (* the bytes the loop reads and those left for the last read *)
  set (d1 := firstn (Z.to_nat (k - 1)) tl).
  set (d2 := skipn (Z.to_nat (k - 1)) tl).
  assert (Etl : tl = d1 ++ d2) by (symmetry; apply firstn_skipn).
  assert (Hd1 : len d1 = k - 1).
  { unfold d1, len in *. rewrite length_firstn. lia. }
  assert (Eprefix : slice (id :: tl) 0 k = [id] ++ d1).
  { rewrite prefix_cons by lia. unfold d1, slice.
    cbn [Z.to_nat skipn app]. now rewrite Z.sub_0_r. }
  rewrite Eprefix in Hsize.
  replace (copy (make (1 + (k - 1))) [id]) with ([id] ++ make (len d1))
    by (rewrite Hd1; symmetry; apply (copy_make [id]); lia).
  rewrite Etl at 1. rewrite <- app_assoc.
  pose proof (fill_Buffer fuel [id] d1 (d2 ++ rest) ltac:(lia)) as Hfill.
  change (len [id]) with 1 in Hfill. rewrite Hd1 in Hfill at 2 3.
  rewrite Hfill, Hsize.
  pose proof (readRemaining_Buffer ([id] ++ d1) d2 rest) as Hr.
  replace (len ([id] ++ d1)) with (1 + (k - 1)) in Hr
    by (rewrite len_app, Hd1; reflexivity).
  replace (1 + (k - 1) + len d2) with n in Hr
    by (rewrite Hn, Etl, len_app; lia).
  rewrite Hr, <- app_assoc, <- Etl. reflexivity.
Qed.

(** For a token the decoder knows, held by a [bytes.Buffer] in front of
    [rest]: [TokenFromByteInput] consumes exactly the token and gives
    what the switch gives on its bytes. *)
Lemma TokenFromByteInput_Buffer (fuel : nat) (buf rest : list byte)
    (id : byte) :
  hd_error buf = Some id ->
  In id decoded ->
  reportedSize buf = Some (len buf) ->
  TokenFromByteInput (S fuel) (buf ++ rest : Buffer)
    = Some (processBuffer buf, rest).
Proof.
  intros Hid Hdec Hsize.
  assert (Hpos : len buf <> 0)
    by (destruct buf; [discriminate|rewrite len_cons; pose proof (len_nonneg buf); lia]).
  pose proof (reportedSize_decoded buf id (len buf) Hid Hdec Hsize Hpos) as Hs.
  clear Hsize.
  destruct buf as [|b tl]; [discriminate|].
  cbn [hd_error] in Hid. injection Hid as ->.
  unfold decoded in Hdec. cbn [In] in Hdec.
  repeat (destruct Hdec as [<-|Hdec]); try contradiction;
    try (unfold determineTokenSize in Hs; cbv beta iota in Hs;
         apply sized_inj in Hs;
         eapply TokenFromByteInput_one_call; [reflexivity|symmetry; exact Hs]).
  - (* 0x23 *)
    apply TokenFromByteInput_two_calls with (k := 3) (n := len (x23 :: tl));
      [reflexivity|lia| |rewrite determineTokenSize_prefix by (cbn [In]; tauto); exact Hs|reflexivity].
    unfold determineTokenSize in Hs; cbv beta iota in Hs.
    apply withUint16_sized in Hs; [tauto|assumption|lia..].
  - (* 0x28 *)
    apply TokenFromByteInput_two_calls with (k := 3) (n := len (x28 :: tl));
      [reflexivity|lia| |rewrite determineTokenSize_prefix by (cbn [In]; tauto); exact Hs|reflexivity].
    unfold determineTokenSize in Hs; cbv beta iota in Hs.
    apply withUint16_sized in Hs; [tauto|assumption|lia..].
  - (* 0x2d *)
    apply TokenFromByteInput_two_calls with (k := 8) (n := len (x2d :: tl));
      [reflexivity|lia| |rewrite determineTokenSize_prefix by (cbn [In]; tauto); exact Hs|reflexivity].
    unfold determineTokenSize in Hs; cbv beta iota in Hs.
    apply withUint16_sized in Hs; [tauto|assumption|lia..].
  - (* 0x60 *)
    apply TokenFromByteInput_two_calls with (k := 3) (n := len (x60 :: tl));
      [reflexivity|lia| |rewrite determineTokenSize_prefix by (cbn [In]; tauto); exact Hs|reflexivity].
    unfold determineTokenSize in Hs; cbv beta iota in Hs.
    apply withUint16_sized in Hs; [tauto|assumption|lia..].
  - (* 0x7a *)
    apply TokenFromByteInput_two_calls with (k := 37) (n := len (x7a :: tl));
      [reflexivity|lia| |rewrite determineTokenSize_prefix by (cbn [In]; tauto); exact Hs|reflexivity].
    unfold determineTokenSize in Hs; cbv beta iota in Hs.
    apply withUint32_sized in Hs; [tauto|assumption|lia..].
  - (* 0x7b *)
    apply TokenFromByteInput_two_calls with (k := 37) (n := len (x7b :: tl));
      [reflexivity|lia| |rewrite determineTokenSize_prefix by (cbn [In]; tauto); exact Hs|reflexivity].
    unfold determineTokenSize in Hs; cbv beta iota in Hs.
    apply withUint32_sized in Hs; [tauto|assumption|lia..].
Qed.

(** ** Records *)

(** The fields of the 32-bit header token, for every 18-byte buffer. *)
Lemma header32_token_fields (buf : list byte) :
  hd_error buf = Some x14 -> len buf = 18 ->
  processBuffer buf =
    Ok (IsHeaderToken32bit
          (mkHeaderToken32bit x14 (beValue (slice buf 1 5)) (nth 5 buf x00)
             (beValue (slice buf 6 8)) (beValue (slice buf 8 10))
             (beValue (slice buf 10 14)) (beValue (slice buf 14 18)))).
Proof.
  intros Hid Hlen. destruct buf as [|b rest]; [discriminate|].
  cbn [hd_error] in Hid. injection Hid as ->.
  unfold processBuffer.
  change (index (x14 :: rest) 0) with (Ok x14). cbn [bind]. cbv beta iota.
  rewrite ParseHeaderToken32bit_ok by (assumption || reflexivity).
  reflexivity.
Qed.

Lemma beValue_uint32 (buf : list byte) (lo : Z) :
  0 <= lo -> lo + 4 <= len buf ->
  0 <= beValue (slice buf lo (lo + 4)) < 2 ^ 32.
Proof.
  intros Hlo Hlen.
  pose proof (beValue_bounds (slice buf lo (lo + 4))) as Hb.
  rewrite len_slice in Hb by lia.
  replace (lo + 4 - lo) with 4 in Hb by lia.
  change (256 ^ 4) with (2 ^ 32) in Hb. exact Hb.
Qed.

(** C10. When [ReadBsmRecord] returns a non-nil error after it decoded a
    header token, the record returned beside the error carries the
    header's seconds and nanoseconds and every token decoded between the
    header and the failing call, in their order. *)
Theorem partial_record_returned_on_error
    (R : Type) (reader : Reader R) (fuel : nat) (input input1 input' : R)
    (rec : BsmRecord) (e : error) (header : empty)
    (seconds nanoSeconds : Z) :
  ReadBsmRecord fuel input = Some (Returns (rec, Some e), input') ->
  TokenFromByteInput fuel input = Some (Ok header, input1) ->
  headerTime header = Some (seconds, nanoSeconds) ->
  Seconds rec = seconds /\
  NanoSeconds rec = nanoSeconds /\
  exists (interior : list empty) (input2 : R),
    decodes fuel input1 interior input2 /\
    TokenFromByteInput fuel input2 = Some (Err e, input') /\
    forallb notTrailer interior = true /\
    Tokens rec = interior.
Proof.
  intros Hret Hheader Htime.
  unfold ReadBsmRecord in Hret. rewrite Hheader in Hret.
  destruct header; try discriminate Htime;
    cbn [headerTime] in Htime; injection Htime as <- <-;
    cbv beta zeta in Hret;
    (destruct (TokenFromByteInput fuel input1)
       as [[[next|e'|] input2]|] eqn:Hnext; try discriminate Hret).
  all: first
    [ apply collect_fails in Hret;
      destruct Hret as (later & input3 & Hdec & Hfail & Hint & Htok
                        & Hsec & Hnano);
      cbn [Tokens Seconds NanoSeconds app] in Htok, Hsec, Hnano;
      refine (conj Hsec (conj Hnano _));
      exists (next :: later), input3;
      refine (conj _ (conj Hfail (conj Hint Htok)));
      eapply decodes_cons; [exact Hnext|exact Hdec]
    | injection Hret as <- <- <-;
      cbn [Tokens Seconds NanoSeconds];
      refine (conj eq_refl (conj eq_refl _));
      exists [], input1;
      refine (conj _ (conj Hnext (conj eq_refl eq_refl)));
      apply decodes_nil ].
Qed.

(** * Instances on the sample inputs *)

Lemma bytesToUint_roundtrip_sample :
  bytesToUint 32 (bigEndian (Z.to_nat (32 / 8)) 16777218)
    = (16777218, None) /\
  exists e, bytesToUint 32 [xff; x01; xac; xb4; x2c] = (0, Some e).
Proof.
  apply (bytesToUint_roundtrip 32 16777218 [xff; x01; xac; xb4; x2c]).
  - right; left; reflexivity.
  - split; vm_compute; discriminate.
  - reflexivity.
Defined.

Lemma expanded_header_size_sample :
  determineTokenSize sampleExpandedHeader32 = (22 + 4, 0, None).
Proof.
  apply (expanded_header_size sampleExpandedHeader32 4).
  - reflexivity.
  - vm_compute; discriminate.
  - reflexivity.
  - left; reflexivity.
Defined.

Lemma expanded_subject64_size_sample :
  determineTokenSize sampleExpandedSubject64 = (38 + 16, 0, None).
Proof.
  apply (expanded_subject64_size sampleExpandedSubject64 x10 16).
  - reflexivity.
  - vm_compute; discriminate.
  - reflexivity.
  - right; left; reflexivity.
Defined.

Lemma invalid_address_length_sample :
  exists e, determineTokenSize sampleExpandedSubject32 = (0, 0, Some e).
Proof.
  apply (invalid_address_length_is_error sampleExpandedSubject32 258).
  - reflexivity.
  - discriminate.
  - discriminate.
Defined.

Lemma decoder_totality_sample :
  exists token, processBuffer sampleText = Ok token /\ TokenID token = x28.
Proof.
  apply (decoder_totality_decoded sampleText x28).
  - reflexivity.
  - do 5 right; left; reflexivity.
  - reflexivity.
  - split; [vm_compute; discriminate|reflexivity].
Defined.

Lemma partial_record_sample :
  Seconds sampleRecord = 0x5a9ac2e6 /\
  NanoSeconds sampleRecord = 0x00030128 /\
  exists (interior : list empty) (input2 : Buffer),
    decodes 1%nat (sampleText ++ [xff] : Buffer) interior input2 /\
    TokenFromByteInput 1%nat input2 = Some (Err (ErrTokenSize xff), []) /\
    forallb notTrailer interior = true /\
    Tokens sampleRecord = interior.
Proof.
  apply (partial_record_returned_on_error Buffer Buffer_Read 1%nat
           sampleBrokenStream (sampleText ++ [xff]) [] sampleRecord
           (ErrTokenSize xff) sampleHeaderToken).
  - reflexivity.
  - reflexivity.
  - reflexivity.
Defined.

(** * Further properties of the code *)

(** ** The primitives on short slices *)

Lemma beValue_leading_zeros (k : nat) (s : list byte) :
  beValue (repeat x00 k ++ s) = beValue s.
Proof.
  induction k as [|k IH]; cbn [repeat app beValue]; [reflexivity|].
  rewrite IH. change (b2z x00) with 0. lia.
Qed.

(** A slice of at most [w/8] bytes is read as if it were padded with
    zero bytes on the left: leading zero bytes do not change the value,
    which is the big-endian value of the rest; no error is returned. *)
Theorem bytesToUint_leading_zeros (w : Z) (k : nat) (s : list byte) :
  In w [16; 32; 64] ->
  Z.of_nat k + len s <= w / 8 ->
  bytesToUint w (repeat x00 k ++ s) = (beValue s, None) /\
  bytesToUint w s = (beValue s, None).
Proof.
  intros Hw Hlen.
  assert (Hk : len (repeat x00 k ++ s) = Z.of_nat k + len s).
  { unfold len. rewrite length_app, repeat_length. lia. }
  pose proof (len_nonneg s) as Hs.
  cbn [In] in Hw. destruct Hw as [<-|[<-|[<-|[]]]];
    cbn in Hlen |- *; unfold bytesToUint; cbn [Z.eqb Pos.eqb];
    rewrite ?bytesToUint16_value, ?bytesToUint32_value, ?bytesToUint64_value
      by lia;
    now rewrite beValue_leading_zeros.
Qed.

(** For every input the value returned by a primitive fits its width,
    and the error is non-nil exactly when the slice is longer than
    [w/8] bytes. *)
Theorem bytesToUint_range_and_error (w : Z) (input : list byte) :
  In w [16; 32; 64] ->
  0 <= fst (bytesToUint w input) < 2 ^ w /\
  (snd (bytesToUint w input) <> None <-> w / 8 < len input).
Proof.
  intros Hw.
  assert (Hb : forall n, len input <= n ->
            0 <= beValue input < 2 ^ (8 * n)).
  { intros n Hn. pose proof (beValue_bounds input) as Hv.
    pose proof (len_nonneg input) as Hl.
    assert (256 ^ len input <= 2 ^ (8 * n)).
    { replace 256 with (2 ^ 8) by reflexivity. rewrite <- Z.pow_mul_r by lia.
      apply Z.pow_le_mono_r; lia. }
    lia. }
  cbn [In] in Hw. destruct Hw as [<-|[<-|[<-|[]]]];
    unfold bytesToUint; cbn [Z.eqb Pos.eqb].
  - change (16 / 8) with 2.
    destruct (Z.ltb_spec 2 (len input)) as [Hlong|Hshort].
    + unfold bytesToUint16.
      destruct (Z.ltb_spec 2 (len input)); [|lia]. cbn [fst snd].
      split; [split; [lia|reflexivity]|]. split; [lia|discriminate].
    + rewrite bytesToUint16_value by lia. cbn [fst snd].
      split; [apply (Hb 2 Hshort)|]. split; [congruence|lia].
  - change (32 / 8) with 4.
    destruct (Z.ltb_spec 4 (len input)) as [Hlong|Hshort].
    + unfold bytesToUint32.
      destruct (Z.ltb_spec 4 (len input)); [|lia]. cbn [fst snd].
      split; [split; [lia|reflexivity]|]. split; [lia|discriminate].
    + rewrite bytesToUint32_value by lia. cbn [fst snd].
      split; [apply (Hb 4 Hshort)|]. split; [congruence|lia].
  - change (64 / 8) with 8.
    destruct (Z.ltb_spec 8 (len input)) as [Hlong|Hshort].
    + unfold bytesToUint64.
      destruct (Z.ltb_spec 8 (len input)); [|lia]. cbn [fst snd].
      split; [split; [lia|reflexivity]|]. split; [lia|discriminate].
    + rewrite bytesToUint64_value by lia. cbn [fst snd].
      split; [apply (Hb 8 Hshort)|]. split; [congruence|lia].
Qed.

Lemma byteOfZ_b2z (b : byte) : byteOfZ (b2z b) = b.
Proof.
  apply b2z_inj. rewrite b2z_byteOfZ.
  apply Z.mod_small. apply b2z_range.
Qed.

Lemma byteOfZ_add_256 (z c : Z) : byteOfZ (z + c * 256) = byteOfZ z.
Proof.
  apply b2z_inj. rewrite !b2z_byteOfZ. apply Z_mod_plus_full.
Qed.

Lemma bigEndian_high_part (n : nat) (N c : Z) :
  bigEndian n (c * 256 ^ Z.of_nat n + N) = bigEndian n N.
Proof.
  revert c. induction n as [|k IH]; intros c; cbn [bigEndian]; [reflexivity|].
  rewrite Nat2Z.inj_succ, Z.pow_succ_r by lia.
  f_equal.
  - replace (c * (256 * 256 ^ Z.of_nat k) + N)
      with (N + c * 256 * 256 ^ Z.of_nat k) by lia.
    rewrite Z.div_add by (apply Z.pow_nonzero; lia).
    apply byteOfZ_add_256.
  - replace (c * (256 * 256 ^ Z.of_nat k) + N)
      with ((c * 256) * 256 ^ Z.of_nat k + N) by lia.
    apply IH.
Qed.

Lemma bigEndian_beValue (s : list byte) :
  bigEndian (length s) (beValue s) = s.
Proof.
  induction s as [|b rest IH]; cbn [length bigEndian beValue]; [reflexivity|].
  fold (len rest). pose proof (beValue_bounds rest) as Hv.
  f_equal.
  - rewrite Z.add_comm, Z.div_add by (apply Z.pow_nonzero; [lia|apply len_nonneg]).
    rewrite Z.div_small by lia. apply byteOfZ_b2z.
  - unfold len at 1. rewrite bigEndian_high_part. exact IH.
Qed.

(** Decoding then encoding: a slice of exactly [w/8] bytes is the
    big-endian encoding of the value its primitive returns, so the
    primitives lose nothing on full-width slices. *)
Theorem bigEndian_bytesToUint (w : Z) (s : list byte) :
  In w [16; 32; 64] ->
  len s = w / 8 ->
  bigEndian (Z.to_nat (w / 8)) (fst (bytesToUint w s)) = s.
Proof.
  intros Hw Hlen.
  assert (E : bytesToUint w s = (beValue s, None)).
  { cbn [In] in Hw. destruct Hw as [<-|[<-|[<-|[]]]];
      cbn in Hlen; unfold bytesToUint; cbn [Z.eqb Pos.eqb];
      [apply bytesToUint16_value|apply bytesToUint32_value
      |apply bytesToUint64_value]; lia. }
  rewrite E. cbn [fst]. rewrite <- Hlen. unfold len. rewrite Nat2Z.id.
  apply bigEndian_beValue.
Qed.

(** ** The three answers of the sizer *)

Lemma len_slice_le {A : Type} (l : list A) (lo hi : Z) :
  len (slice l lo hi) <= Z.max 0 (hi - lo).
Proof.
  unfold len, slice. rewrite length_firstn. lia.
Qed.

Lemma slice_app {A : Type} (l m : list A) (lo hi : Z) :
  0 <= lo -> hi <= len l -> slice (l ++ m) lo hi = slice l lo hi.
Proof.
  intros Hlo Hhi. unfold slice, len in *.
  rewrite skipn_app, firstn_app, length_skipn.
  replace (Z.to_nat (hi - lo) - (length l - Z.to_nat lo))%nat with 0%nat by lia.
  cbn [firstn]. apply app_nil_r.
Qed.

Section Answers.

Variable P : error -> Prop.

Lemma answer_sized (size : Z) : 0 < size -> sizerAnswer P (sized size).
Proof. apply AnswerSize. Qed.

Lemma answer_needMore (n : Z) : 0 < n -> sizerAnswer P (needMore n).
Proof. apply AnswerMore. Qed.

Lemma answer_failed (e : error) : P e -> sizerAnswer P (failed e).
Proof. apply AnswerError. Qed.

Lemma answer_withUint16 (input : list byte) (lo hi : Z)
    (k : Z -> Z * Z * option error) :
  hi - lo <= 2 ->
  (forall v, 0 <= v -> hi <= len input -> sizerAnswer P (k v)) ->
  sizerAnswer P (withUint16 input lo hi k).
Proof.
  intros Hw Hk. unfold withUint16.
  destruct (Z.ltb_spec (len input) hi); [apply answer_needMore; lia|].
  pose proof (len_slice_le input lo hi).
  rewrite bytesToUint16_value by lia.
  apply Hk; [apply beValue_bounds|assumption].
Qed.

Lemma answer_withUint32 (input : list byte) (need lo hi : Z)
    (k : Z -> Z * Z * option error) :
  hi - lo <= 4 ->
  (forall v, 0 <= v -> need <= len input -> sizerAnswer P (k v)) ->
  sizerAnswer P (withUint32 input need lo hi k).
Proof.
  intros Hw Hk. unfold withUint32.
  destruct (Z.ltb_spec (len input) need); [apply answer_needMore; lia|].
  pose proof (len_slice_le input lo hi).
  rewrite bytesToUint32_value by lia.
  apply Hk; [apply beValue_bounds|assumption].
Qed.

Lemma answer_address_switch (v : Z) (a b c : Z * Z * option error) :
  sizerAnswer P a -> sizerAnswer P b ->
  (v <> 4 -> v <> 16 -> sizerAnswer P c) ->
  sizerAnswer P (match v with 4 => a | 16 => b | _ => c end).
Proof.
  intros Ha Hb Hc.
  destruct (Z.eq_dec v 4) as [->|N4]; [exact Ha|].
  destruct (Z.eq_dec v 16) as [->|N16]; [exact Hb|].
  rewrite address_switch by assumption. auto.
Qed.

Lemma answer_byte_switch (v : byte) (a b c : Z * Z * option error) :
  sizerAnswer P a -> sizerAnswer P b ->
  (b2z v <> 4 -> b2z v <> 16 -> sizerAnswer P c) ->
  sizerAnswer P (match v with x04 => a | x10 => b | _ => c end).
Proof.
  intros Ha Hb Hc.
  destruct (Z.eq_dec (b2z v) 4) as [E|N4];
    [apply (b2z_inj v x04) in E; subst v; exact Ha|].
  destruct (Z.eq_dec (b2z v) 16) as [E|N16];
    [apply (b2z_inj v x10) in E; subst v; exact Hb|].
  rewrite byte_address_switch by assumption. auto.
Qed.

End Answers.

Ltac answer_error := cbn; first [exact I | split; assumption | tauto].

Ltac answer :=
  repeat first
    [ apply answer_withUint16; [lia|intros ? ? ?]
    | apply answer_withUint32; [lia|intros ? ? ?]
    | apply answer_address_switch; [| |intros ? ?]
    | apply answer_byte_switch; [| |intros ? ?]
    | match goal with
      | |- sizerAnswer _ (if ?a <? ?b then _ else _) =>
          destruct (Z.ltb_spec a b)
      end
    | apply answer_failed; answer_error
    | apply answer_needMore; lia
    | apply answer_sized;
      first [ reflexivity | lia
            | match goal with
              | |- context [b2z ?u * b2z ?c] =>
                  pose proof (b2z_range u); pose proof (b2z_range c); nia
              end ] ].

(** The sizer gives exactly one of three answers: a size greater than 0
    with nothing else, a request for more than 0 bytes with nothing else,
    or an error with size 0 and no request. The error is that of an
    unknown token ID or that of an address length or type other than 4
    and 16: the sizer never passes on an overflow error of the
    primitives. *)
Theorem determineTokenSize_answers (input : list byte) :
  sizerAnswer (fun e => isTokenSizeError e \/ isAddressError e)
    (determineTokenSize input).
Proof.
  destruct input as [|id rest]; [apply answer_needMore; lia|].
  destruct id; unfold determineTokenSize; cbv beta iota zeta; answer.
Qed.

Lemma known_token_answers (id : byte) (rest : list byte) :
  In id sizerIDs ->
  sizerAnswer isAddressError (determineTokenSize (id :: rest)).
Proof.
  intros Hin. unfold sizerIDs in Hin. cbn [In] in Hin.
  repeat (destruct Hin as [<-|Hin]); try contradiction;
    unfold determineTokenSize; cbv beta iota zeta; answer.
Qed.

(** A token ID without a case in the sizer gives, whatever follows it,
    the error that names this ID; an ID with a case never gives that
    error. *)
Theorem unknown_token_size_error (id : byte) (rest : list byte) :
  (~ In id sizerIDs ->
   determineTokenSize (id :: rest) = (0, 0, Some (ErrTokenSize id))) /\
  (In id sizerIDs ->
   forall id', determineTokenSize (id :: rest)
               <> (0, 0, Some (ErrTokenSize id'))).
Proof.
  split.
  - intros Hnot.
    destruct id; try reflexivity;
      exfalso; apply Hnot; unfold sizerIDs; cbn [In];
      repeat first [left; reflexivity | right].
  - intros Hin id' Heq.
    pose proof (known_token_answers id rest Hin) as Hans.
    rewrite Heq in Hans. inversion Hans as [| |e He]; subst.
    exact He.
Qed.

(** ** Variable-size tokens *)

(** For a token whose size depends on its contents, an input that stops
    before the sizer's decision point is answered by a request for
    exactly the missing bytes. *)
Theorem need_more_is_shortfall (input : list byte) (id : byte) (k : Z) :
  hd_error input = Some id ->
  In (id, k) decisionPoints ->
  len input < k ->
  determineTokenSize input = (0, k - len input, None).
Proof.
  intros Hid Hin Hshort.
  destruct input as [|b rest]; [discriminate|].
  cbn [hd_error] in Hid. injection Hid as ->.
  unfold decisionPoints in Hin. cbn [In] in Hin.
  repeat (destruct Hin as [E|Hin]; [injection E as <- <-|]);
    try contradiction;
    unfold determineTokenSize; cbv beta iota zeta;
    unfold withUint16, withUint32;
    match goal with
    | |- context [?a <? ?b] => destruct (Z.ltb_spec a b); [reflexivity|lia]
    end.
Qed.

(** For a token with a 16-bit length or count field, an input that holds
    the field is sized as the base plus the factor times the field read
    in network byte order, whatever follows the field. *)
Theorem length_prefixed_size (input : list byte) (id : byte)
    (lo hi base factor : Z) :
  hd_error input = Some id ->
  In (id, lo, hi, base, factor) lengthPrefixed ->
  hi <= len input ->
  determineTokenSize input
    = (base + factor * beValue (slice input lo hi), 0, None) /\
  0 <= beValue (slice input lo hi) < 2 ^ 16.
Proof.
  intros Hid Hin Hlong.
  destruct input as [|b rest]; [discriminate|].
  cbn [hd_error] in Hid. injection Hid as ->.
  unfold lengthPrefixed in Hin. cbn [In] in Hin.
  repeat (destruct Hin as [E|Hin]; [injection E as <- <- <- <- <-|]);
    try contradiction;
    (split;
     [ unfold determineTokenSize; cbv beta iota zeta;
       rewrite withUint16_ready by lia;
       change (1 + 4 + 4 + 2) with 11;
       unfold sized; do 2 f_equal; lia
     | match goal with
       | |- 0 <= beValue ?s < _ =>
           pose proof (beValue_bounds s) as Hb;
           rewrite len_slice in Hb by lia; exact Hb
       end ]).
Qed.

(** For a token sized by counting NUL bytes, an input that holds the
    count field is sized as its own length as soon as the bytes after
    the field contain at least [count] NUL bytes; until then the sizer
    asks for one more byte. *)
Theorem nul_counted_size (input : list byte) (id : byte) (hi : Z) :
  hd_error input = Some id ->
  In (id, hi) nulCounted ->
  hi <= len input ->
  determineTokenSize input =
    if countNUL (skipn (Z.to_nat hi) input) <? beValue (slice input 1 hi)
    then (0, 1, None)
    else (len input, 0, None).
Proof.
  intros Hid Hin Hlong.
  destruct input as [|b rest]; [discriminate|].
  cbn [hd_error] in Hid. injection Hid as ->.
  unfold nulCounted in Hin. cbn [In] in Hin.
  repeat (destruct Hin as [E|Hin]; [injection E as <- <-|]);
    try contradiction;
    unfold determineTokenSize; cbv beta iota zeta;
    rewrite ?withUint16_ready, ?withUint32_ready by lia;
    reflexivity.
Qed.

Lemma nth_app_left (l m : list byte) (i : nat) :
  Z.of_nat i < len l -> nth i (l ++ m) x00 = nth i l x00.
Proof.
  intros Hi. apply app_nth1. unfold len in Hi. lia.
Qed.

(** Once the sizer has given a size, more input does not change it: for
    every token except those sized by counting NUL bytes, the size given
    on an input is the size given on every extension of that input. *)
Theorem size_stable_under_extension (input more : list byte) (id : byte)
    (n : Z) :
  hd_error input = Some id ->
  ~ In id [x25; x3c; x3d] ->
  determineTokenSize input = (n, 0, None) ->
  n <> 0 ->
  determineTokenSize (input ++ more) = (n, 0, None).
Proof.
  intros Hid Hnot Hs Hn.
  destruct input as [|b rest]; [discriminate|].
  cbn [hd_error] in Hid. injection Hid as ->.
  assert (Hlen : len ((id :: rest) ++ more) = len (id :: rest) + len more)
    by apply len_app.
  pose proof (len_nonneg more) as Hmore.
  cbn [app] in Hlen |- *.
  destruct id;
    try (exfalso; apply Hnot; cbn [In]; tauto);
    unfold determineTokenSize in Hs |- *; cbv beta iota zeta in Hs |- *;
    try exact Hs;
    try (apply withUint16_sized in Hs; [|assumption|lia..];
         destruct Hs as [Hlong Hs];
         rewrite withUint16_ready by lia;
         match goal with
         | |- context [slice (?i :: rest ++ more) ?lo ?hi] =>
             change (i :: rest ++ more) with ((i :: rest) ++ more);
             rewrite slice_app by lia
         end; exact Hs);
    try (apply withUint32_sized in Hs; [|assumption|lia..];
         destruct Hs as [Hlong Hs];
         rewrite withUint32_ready by lia;
         match goal with
         | |- context [slice (?i :: rest ++ more) ?lo ?hi] =>
             change (i :: rest ++ more) with ((i :: rest) ++ more);
             rewrite slice_app by lia
         end; exact Hs).
  - (* 0x21 *)
    destruct (Z.ltb_spec (len (x21 :: rest)) 4) as [Hshort|Hlong];
      [unfold needMore in Hs; congruence|].
    destruct (Z.ltb_spec (len (x21 :: rest ++ more)) 4); [lia|].
    change (x21 :: rest ++ more) with ((x21 :: rest) ++ more).
    rewrite !nth_app_left by lia. exact Hs.
  - (* 0x7c *)
    destruct (Z.ltb_spec (len (x7c :: rest)) 38) as [Hshort|Hlong];
      [unfold needMore in Hs; congruence|].
    destruct (Z.ltb_spec (len (x7c :: rest ++ more)) 38); [lia|].
    change (x7c :: rest ++ more) with ((x7c :: rest) ++ more).
    rewrite nth_app_left by lia. exact Hs.
Qed.

(** ** What the decoder returns *)

(** [ParseHeaderToken32bit] has two errors only, a length other than 18
    and a first byte other than 0x14, each returned with the zero token;
    the errors of the primitives cannot occur. Otherwise the fields are
    the big-endian values at offsets 1..5, 5, 6..8, 8..10, 10..14 and
    14..18. *)
Theorem ParseHeaderToken32bit_cases (input : list byte) :
  (len input <> 18 ->
   ParseHeaderToken32bit input = (zeroHeaderToken32bit, Some ErrHeaderLength)) /\
  (len input = 18 -> nth 0 input x00 <> x14 ->
   ParseHeaderToken32bit input
     = (zeroHeaderToken32bit, Some ErrTokenIDMismatch)) /\
  (len input = 18 -> nth 0 input x00 = x14 ->
   ParseHeaderToken32bit input =
     (mkHeaderToken32bit x14 (beValue (slice input 1 5)) (nth 5 input x00)
        (beValue (slice input 6 8)) (beValue (slice input 8 10))
        (beValue (slice input 10 14)) (beValue (slice input 14 18)), None)).
Proof.
  split; [|split].
  - intros Hlen. unfold ParseHeaderToken32bit.
    destruct (Z.eqb_spec (len input) 18); [contradiction|reflexivity].
  - intros Hlen Hid. unfold ParseHeaderToken32bit.
    rewrite Hlen. cbn [Z.eqb Pos.eqb negb].
    destruct (Byte.eqb (nth 0 input x00) x14) eqn:E;
      [apply Byte.byte_dec_bl in E; contradiction|reflexivity].
  - apply ParseHeaderToken32bit_ok.
Qed.

Lemma ParseHeaderToken32bit_None (input : list byte)
    (token : HeaderToken32bit) :
  ParseHeaderToken32bit input = (token, None) ->
  len input = 18 /\
  token =
    mkHeaderToken32bit x14 (beValue (slice input 1 5)) (nth 5 input x00)
      (beValue (slice input 6 8)) (beValue (slice input 8 10))
      (beValue (slice input 10 14)) (beValue (slice input 14 18)).
Proof.
  intros Hp.
  destruct (Z.eq_dec (len input) 18) as [Hlen|Hlen].
  - destruct (Byte.byte_eq_dec (nth 0 input x00) x14) as [Hid|Hid].
    + rewrite ParseHeaderToken32bit_ok in Hp by assumption.
      split; [assumption|congruence].
    + unfold ParseHeaderToken32bit in Hp. rewrite Hlen in Hp.
      cbn [Z.eqb Pos.eqb negb] in Hp.
      destruct (Byte.eqb (nth 0 input x00) x14) eqn:E;
        [apply Byte.byte_dec_bl in E; contradiction|discriminate Hp].
  - unfold ParseHeaderToken32bit in Hp.
    destruct (Z.eqb_spec (len input) 18); [contradiction|discriminate Hp].
Qed.

Ltac peel H :=
  repeat
    (match type of H with
     | bind ?m _ = Ok _ =>
         let E := fresh "E" in
         destruct m eqn:E; cbn [bind] in H;
         [|discriminate H|discriminate H]
     end;
     repeat match goal with
            | x : (_ * _)%type |- _ => destruct x
            end).

(** The switch, read backwards: a token it returns has the first byte of
    the buffer as its ID, a type that the switch builds for that ID, and,
    if it is a header, time stamps of 32 bits. *)
Lemma processBuffer_Ok_inv (buf : list byte) (t : empty) :
  processBuffer buf = Ok t ->
  hd_error buf = Some (TokenID t) /\
  In (TokenID t) (variantIDs t) /\
  (forall s ns, headerTime t = Some (s, ns) ->
     0 <= s < 2 ^ 32 /\ 0 <= ns < 2 ^ 32).
Proof.
  intros Hp.
  destruct buf as [|b rest]; [discriminate Hp|].
  unfold processBuffer in Hp.
  change (index (b :: rest) 0) with (Ok b) in Hp. cbn [bind] in Hp.
  destruct b; cbv beta iota in Hp; try discriminate Hp;
    unfold socketToken4 in Hp;
    try change (index (?a :: rest) 0) with (Ok a) in Hp;
    peel Hp;
    try (destruct (Varint _) as [rval n]);
    try match goal with
        | E : @Ok byte _ = Ok _ |- _ => injection E as <-
        end;
    try (injection Hp as <-; cbn [TokenID variantIDs hd_error headerTime
           TrailerToken_TokenID PathToken_TokenID SubjectToken32bit_TokenID
           ReturnToken32bit_TokenID TextToken_TokenID IPortToken_TokenID
           ArgToken32bit_TokenID SocketToken_TokenID
           AttributeToken32bit_TokenID AttributeToken64bit_TokenID
           ExitToken_TokenID ZonenameToken_TokenID
           ExpandedSubjectToken32bit_TokenID
           ExpandedProcessToken32bit_TokenID In];
         split; [reflexivity|split; [tauto|discriminate]]).
  (* 0x14 *)
  injection Hp as <-.
  unfold call in E. 
  destruct (ParseHeaderToken32bit (x14 :: rest)) as [token [e|]] eqn:Hparse;
    cbn [snd fst] in E; [discriminate E|]. injection E as ->.
  apply ParseHeaderToken32bit_None in Hparse. destruct Hparse as [Hlen ->].
  cbn [TokenID variantIDs hd_error headerTime HeaderToken32bit_TokenID
       HeaderToken32bit_Seconds HeaderToken32bit_NanoSeconds In].
  split; [reflexivity|split; [tauto|]].
  intros s ns Ht. injection Ht as <- <-.
  split; [apply (beValue_uint32 _ 10)|apply (beValue_uint32 _ 14)]; lia.
Qed.

(** Whatever the buffer and its length, a token returned by the decoder's
    switch carries the first byte of the buffer as its [TokenID]; that
    ID is one of the 18 the switch knows, and the type of the token is
    the one the switch builds for it. The types [HeaderToken64bit],
    [ExpandedHeaderToken32bit] and [ExpandedHeaderToken64bit] are never
    returned. *)
Theorem decoder_keeps_id_and_type (buf : list byte) (t : empty) :
  processBuffer buf = Ok t ->
  hd_error buf = Some (TokenID t) /\
  In (TokenID t) (variantIDs t) /\
  In (TokenID t) decoded /\
  (forall v, t <> IsHeaderToken64bit v) /\
  (forall v, t <> IsExpandedHeaderToken32bit v) /\
  (forall v, t <> IsExpandedHeaderToken64bit v).
Proof.
  intros Hp. apply processBuffer_Ok_inv in Hp.
  destruct Hp as (Hid & Hvar & _).
  split; [exact Hid|]. split; [exact Hvar|].
  split.
  - destruct t; cbn [variantIDs In] in Hvar; unfold decoded; cbn [In];
      intuition congruence.
  - repeat split; intros v ->; cbn [variantIDs In] in Hvar; exact Hvar.
Qed.

(** ** Tokens in a [bytes.Buffer] *)

Lemma TokenFromByteInput_Buffer_start (fuel : nat) (id : byte)
    (tail : Buffer) :
  TokenFromByteInput fuel (id :: tail : Buffer) =
    let '(buflen, increase, err) := determineTokenSize [id] in
    match err with
    | Some e => Some (Err e, tail)
    | None =>
        if negb (increase =? 0) then
          if 1 + increase <? 0 then Some (Panic, tail)
          else
            match fill fuel tail (copy (make (1 + increase)) [id]) 1 increase
            with
            | None => None
            | Some (Panic, input) => Some (Panic, input)
            | Some (Err e, input) => Some (Err e, input)
            | Some (Ok (tokenBuffer, bufidx), input) =>
                let '(buflen, _, err) := determineTokenSize tokenBuffer in
                match err with
                | Some e => Some (Err e, input)
                | None =>
                    Some (readRemaining input tokenBuffer bufidx buflen)
                end
            end
        else Some (readRemaining tail [id] 1 buflen)
    end.
Proof.
  unfold TokenFromByteInput. rewrite first_read_Buffer. reflexivity.
Qed.

(** On a [bytes.Buffer] that starts with a byte the sizer has no case
    for, [TokenFromByteInput] returns the error naming that byte and has
    consumed this one byte only; on an empty buffer it returns
    [io.EOF]. *)
Theorem unknown_token_consumes_one_byte (fuel : nat) (id : byte)
    (tail : list byte) :
  (~ In id sizerIDs ->
   TokenFromByteInput fuel (id :: tail : Buffer)
     = Some (Err (ErrTokenSize id), tail)) /\
  TokenFromByteInput fuel ([] : Buffer) = Some (Err ErrEOF, []).
Proof.
  split; [|reflexivity].
  intros Hnot. rewrite TokenFromByteInput_Buffer_start.
  destruct id; try reflexivity;
    exfalso; apply Hnot; unfold sizerIDs; cbn [In];
    repeat first [left; reflexivity | right].
Qed.

Lemma processBuffer_not_decoded (id : byte) (tl : list byte) :
  In id sizedNotDecoded ->
  processBuffer (id :: tl) = Err (ErrNewTokenID id).
Proof.
  intros Hin. unfold sizedNotDecoded in Hin. cbn [In] in Hin.
  repeat (destruct Hin as [<-|Hin]); try contradiction; reflexivity.
Qed.

(** A fixed-size token that the sizer knows and the decoder does not
    (0x22, 0x26, 0x2a, 0x2b, 0x2f, 0x32, 0x72, 0x74, 0x75, 0x77, 0x7e)
    is read in full from a [bytes.Buffer] and then refused with the
    error "new token ID found"; so a stream that starts with such a
    token, a 64-bit header (0x74) among them, gives no record: 
    [ReadBsmRecord] returns the zero record with that error. *)
Theorem undecoded_token_is_read_then_refused (fuel : nat) (id : byte)
    (tl rest : list byte) :
  In id sizedNotDecoded ->
  determineTokenSize [id] = (len (id :: tl), 0, None) ->
  TokenFromByteInput fuel ((id :: tl) ++ rest : Buffer)
    = Some (Err (ErrNewTokenID id), rest) /\
  ReadBsmRecord fuel ((id :: tl) ++ rest : Buffer)
    = Some (Returns (mkBsmRecord 0 0 [], Some (ErrNewTokenID id)), rest).
Proof.
  intros Hin Hsize.
  assert (Htok : TokenFromByteInput fuel ((id :: tl) ++ rest : Buffer)
                 = Some (Err (ErrNewTokenID id), rest)).
  { rewrite (TokenFromByteInput_one_call fuel id tl rest _ Hsize eq_refl).
    now rewrite processBuffer_not_decoded. }
  split; [exact Htok|].
  unfold ReadBsmRecord. now rewrite Htok.
Qed.

(** A fixed-size token cut short by the end of a [bytes.Buffer] is never
    returned as a token: when nothing follows the ID the error is
    [io.EOF], and when some but not all bytes follow it is the error
    "read n bytes, but wanted exactly m", with the buffer emptied. *)
Theorem truncated_token_is_an_error (fuel : nat) (id : byte)
    (tl : list byte) (n : Z) :
  determineTokenSize [id] = (n, 0, None) ->
  len (id :: tl) < n ->
  TokenFromByteInput fuel (id :: tl : Buffer) =
    Some (Err (match tl with
               | [] => ErrEOF
               | _ => ErrReadCount (len tl) (n - 1)
               end), []).
Proof.
  intros Hsize Hshort. rewrite len_cons in Hshort.
  pose proof (len_nonneg tl) as Htl.
  rewrite TokenFromByteInput_Buffer_start, Hsize.
  cbn [negb Z.eqb]. unfold readRemaining.
  destruct (Z.ltb_spec n 0); [lia|].
  set (tb := copy (make n) [id]).
  assert (Htb : len tb = n).
  { unfold tb. replace n with (len [id] + (n - 1))
      by (change (len [id]) with 1; lia).
    rewrite copy_make, len_app, len_make by lia. reflexivity. }
  assert (Hb : sliceInBounds tb 1 n = true).
  { unfold sliceInBounds. rewrite Htb.
    rewrite !(proj2 (Z.leb_le _ _)) by lia. reflexivity. }
  rewrite Hb. unfold readInto, Read, Buffer_Read.
  destruct tl as [|b tl'].
  - destruct (Z.eqb_spec (n - 1) 0); [unfold len in *; cbn in *; lia|].
    reflexivity.
  - set (tl := b :: tl') in *.
    assert (E1 : firstn (Z.to_nat (n - 1)) tl = tl)
      by (apply firstn_all2; unfold len in *; lia).
    assert (E2 : skipn (Z.to_nat (n - 1)) tl = [])
      by (apply skipn_all2; unfold len in *; lia).
    rewrite E1, E1, E2.
    destruct (Z.eqb_spec (len tl) (n - 1)); [lia|].
    reflexivity.
Qed.

Lemma copy_make_zero (p : list byte) : copy (make 0) p = [].
Proof.
  unfold copy, make. cbn [Z.to_nat repeat length firstn].
  now rewrite skipn_nil.
Qed.

(** On a [bytes.Buffer] that holds the [k] bytes the sizer asks for, the
    loop reads them in one turn and the sizer is asked again. *)
Lemma TokenFromByteInput_second_call (fuel : nat) (id : byte)
    (d1 : list byte) (rest : Buffer) (k : Z) :
  determineTokenSize [id] = (0, k - 1, None) ->
  1 < k -> len d1 = k - 1 ->
  TokenFromByteInput (S fuel) ((id :: d1) ++ rest : Buffer) =
    let '(buflen, _, err) := determineTokenSize (id :: d1) in
    match err with
    | Some e => Some (Err e, rest)
    | None => Some (readRemaining rest (id :: d1) k buflen)
    end.
Proof.
  intros Hfirst Hk Hd1.
  cbn [app]. rewrite TokenFromByteInput_Buffer_start, Hfirst.
  cbv beta iota zeta.
  destruct (Z.eqb_spec (k - 1) 0); [lia|]. cbn [negb].
  destruct (Z.ltb_spec (1 + (k - 1)) 0); [lia|].
  replace (copy (make (1 + (k - 1))) [id]) with ([id] ++ make (len d1))
    by (rewrite Hd1; symmetry; apply (copy_make [id]); lia).
  pose proof (fill_Buffer fuel [id] d1 rest ltac:(lia)) as Hfill.
  change (len [id]) with 1 in Hfill. rewrite Hd1 in Hfill at 2 3.
  rewrite Hfill. cbn [app].
  replace (1 + (k - 1)) with k by lia. reflexivity.
Qed.

(** The tokens sized by counting NUL bytes (0x25, 0x3c, 0x3d) are never
    decoded. From a [bytes.Buffer] that holds the ID and the count field,
    [TokenFromByteInput] reads exactly these bytes and then, when the
    count is 0, returns the error "new token ID found", and when the
    count is not 0, panics: the sizer's second answer is a request for
    one more byte, which leaves the size at 0 and the slice
    [tokenBuffer[bufidx:0]] out of bounds. *)
Theorem nul_counted_tokens_never_decode (fuel : nat) (id : byte) (hi : Z)
    (prefix rest : list byte) :
  In (id, hi) nulCounted ->
  hd_error prefix = Some id ->
  len prefix = hi ->
  TokenFromByteInput (S fuel) (prefix ++ rest : Buffer) =
    Some (if beValue (slice prefix 1 hi) =? 0
          then Err (ErrNewTokenID id)
          else Panic, rest).
Proof.
  intros Hin Hid Hlen.
  destruct prefix as [|b d1]; [discriminate|].
  cbn [hd_error] in Hid. injection Hid as ->.
  assert (Hd1 : len d1 = hi - 1) by (rewrite len_cons in Hlen; lia).
  pose proof (beValue_bounds (slice (id :: d1) 1 hi)) as Hcount.
  assert (Hnul : countNUL (skipn (Z.to_nat hi) (id :: d1)) = 0).
  { rewrite skipn_all2 by (unfold len in Hlen; lia). reflexivity. }
  pose proof (readRemaining_Buffer (id :: d1) [] rest) as Hr.
  rewrite Hlen in Hr. change (len (@nil byte)) with 0 in Hr.
  rewrite Z.add_0_r, app_nil_r in Hr. cbn [app] in Hr.
  unfold nulCounted in Hin. cbn [In] in Hin.
  repeat (destruct Hin as [E|Hin]; [injection E as <- <-|]);
    try contradiction;
    (rewrite (TokenFromByteInput_second_call fuel _ d1 rest _)
       by (reflexivity || lia || exact Hd1));
    unfold determineTokenSize; cbv beta iota zeta;
    rewrite ?withUint16_ready, ?withUint32_ready by lia;
    match type of Hnul with
    | context [Z.to_nat ?z] =>
        let n := eval vm_compute in (Z.to_nat z) in
        change (Z.to_nat z) with n in Hnul
    end;
    rewrite Hnul;
    match goal with
    | |- context [0 <? ?c] =>
        destruct (Z.eqb_spec c 0) as [E0|E0];
        [ rewrite E0; cbn [Z.ltb Z.compare]; unfold sized; rewrite Hlen;
          rewrite Hr; reflexivity
        | destruct (Z.ltb_spec 0 c); [|lia];
          unfold needMore, readRemaining; cbn [Z.ltb Z.compare];
          rewrite copy_make_zero; reflexivity ]
    end.
Qed.

(** ** Whole records in a [bytes.Buffer] *)

Lemma variantIDs_decoded (t : empty) (id : byte) :
  In id (variantIDs t) -> In id decoded.
Proof.
  destruct t; cbn [variantIDs In]; unfold decoded; cbn [In];
    intuition congruence.
Qed.

Lemma tokenBytes_read (fuel : nat) (buf : list byte) (t : empty)
    (rest : Buffer) :
  tokenBytes buf t ->
  TokenFromByteInput (S fuel) (buf ++ rest : Buffer) = Some (Ok t, rest).
Proof.
  intros [Hsize Hdec].
  destruct (processBuffer_Ok_inv buf t Hdec) as (Hid & Hvar & _).
  rewrite (TokenFromByteInput_Buffer fuel buf rest (TokenID t) Hid
             (variantIDs_decoded t _ Hvar) Hsize).
  now rewrite Hdec.
Qed.

Lemma collect_Buffer (tokenFuel : nat) (trailer : list byte) (tr : empty)
    (rest : Buffer) :
  tokenBytes trailer tr -> isTrailerToken tr = true ->
  forall (interior : list (list byte)) (ts : list empty),
    Forall2 tokenBytes interior ts ->
    forall (fuel : nat) (next : empty) (rec : BsmRecord),
      forallb notTrailer (next :: ts) = true ->
      (length ts < fuel)%nat ->
      collect (S tokenFuel) fuel (concat interior ++ trailer ++ rest : Buffer)
        rec next
        = Some (Returns (mkBsmRecord (Seconds rec) (NanoSeconds rec)
                           (Tokens rec ++ next :: ts), None), rest).
Proof.
  intros Htrailer Hend interior ts Hall.
  induction Hall as [|buf t interior ts Hbuf Hall IH];
    intros fuel next rec Hnot Hfuel;
    (destruct fuel as [|fuel]; [cbn [length] in Hfuel; lia|]);
    cbn [forallb] in Hnot; apply andb_prop in Hnot;
    destruct Hnot as [Hnext Hnot];
    unfold notTrailer in Hnext; apply negb_true_iff in Hnext;
    cbn [collect]; rewrite Hnext.
  - cbn [concat app].
    rewrite (tokenBytes_read tokenFuel trailer tr rest Htrailer).
    destruct fuel; cbn [collect]; rewrite Hend; reflexivity.
  - cbn [concat]. rewrite <- app_assoc.
    rewrite (tokenBytes_read tokenFuel buf t _ Hbuf).
    rewrite IH by (cbn [length] in Hfuel; assumption || lia).
    cbn [Seconds NanoSeconds Tokens]. rewrite <- app_assoc. reflexivity.
Qed.

Lemma ReadBsmRecord_Buffer_record (fuel : nat) (header trailer : list byte)
    (interior : list (list byte)) (h tr : empty) (ts : list empty)
    (seconds nanoSeconds : Z) (rest : Buffer) :
  tokenBytes header h ->
  headerTime h = Some (seconds, nanoSeconds) ->
  Forall2 tokenBytes interior ts ->
  forallb notTrailer ts = true ->
  tokenBytes trailer tr ->
  isTrailerToken tr = true ->
  (length ts <= S fuel)%nat ->
  ReadBsmRecord (S fuel)
    (header ++ concat interior ++ trailer ++ rest : Buffer)
    = Some (Returns (mkBsmRecord seconds nanoSeconds ts, None), rest).
Proof.
  intros Hheader Htime Hall Hnot Htrailer Hend Hfuel.
  unfold ReadBsmRecord.
  rewrite (tokenBytes_read fuel header h _ Hheader).
  assert (Hbody :
    match TokenFromByteInput (S fuel)
            (concat interior ++ trailer ++ rest : Buffer) with
    | None => None
    | Some (Panic, input) => Some (Panics, input)
    | Some (Err e, input) =>
        Some (Returns (mkBsmRecord seconds nanoSeconds [], Some e), input)
    | Some (Ok nextToken, input) =>
        collect (S fuel) (S fuel) input
          (mkBsmRecord seconds nanoSeconds []) nextToken
    end = Some (Returns (mkBsmRecord seconds nanoSeconds ts, None), rest)).
  { destruct Hall as [|buf t interior ts Hbuf Hall].
    - cbn [concat app].
      rewrite (tokenBytes_read fuel trailer tr rest Htrailer).
      cbn [collect]. rewrite Hend. reflexivity.
    - cbn [concat]. rewrite <- app_assoc.
      rewrite (tokenBytes_read fuel buf t _ Hbuf).
      rewrite (collect_Buffer fuel trailer tr rest Htrailer Hend
                 interior ts Hall)
        by (assumption || (cbn [length] in Hfuel; lia)).
      reflexivity. }
  destruct h; try discriminate Htime;
    cbn [headerTime] in Htime; injection Htime as <- <-;
    cbv beta zeta; cbn [Tokens]; exact Hbody.
Qed.

(** Reading a record back. When a [bytes.Buffer] holds, ahead of any
    other bytes, a header token, tokens that the decoder knows and that
    are no trailers, and a trailer token, each of the size the sizer
    reports, [ReadBsmRecord] consumes exactly these bytes and returns,
    with a nil error, the record made of the header's time stamps and
    the decoded tokens in their order. *)
Theorem ReadBsmRecord_reads_record (fuel : nat) (bytes : list byte)
    (rec : BsmRecord) (rest : Buffer) :
  recordBytes bytes rec ->
  (length (Tokens rec) <= S fuel)%nat ->
  ReadBsmRecord (S fuel) (bytes ++ rest : Buffer)
    = Some (Returns (rec, None), rest).
Proof.
  intros (header & trailer & interior & h & tr & -> & Hheader & Htime
          & Hall & Hnot & Htrailer & Hend) Hfuel.
  rewrite <- !app_assoc.
  rewrite (ReadBsmRecord_Buffer_record fuel header trailer interior h tr
             (Tokens rec) (Seconds rec) (NanoSeconds rec) rest)
    by assumption.
  now destruct rec.
Qed.

(** The stream of a [bytes.Buffer] made of whole records: the generator
    sends each record with a nil error, in the order of the stream, then
    the zero record with [io.EOF], and closes the channel with the buffer
    empty. *)
Theorem RecordGenerator_yields_records (recordFuel fuel : nat)
    (chunks : list (list byte)) (recs : list BsmRecord) :
  Forall2 recordBytes chunks recs ->
  Forall (fun rec => (length (Tokens rec) <= S recordFuel)%nat) recs ->
  (length recs < fuel)%nat ->
  RecordGenerator (S recordFuel) fuel (concat chunks : Buffer)
    = Some (map (fun rec => mkParsingResult rec None) recs ++ [endOfStream],
            Closed, []).
Proof.
  intros Hall. revert fuel.
  induction Hall as [|bytes rec chunks recs Hrec Hall IH];
    intros fuel Hfit Hfuel;
    (destruct fuel as [|fuel]; [cbn [length] in Hfuel; lia|]).
  - reflexivity.
  - inversion Hfit as [|? ? Hfit1 Hfit2]; subst.
    destruct Hrec as (header & trailer & interior & h & tr & -> & Hheader
                      & Htime & Hinner & Hnot & Htrailer & Hend).
    cbn [concat RecordGenerator]. rewrite <- !app_assoc.
    rewrite (ReadBsmRecord_Buffer_record recordFuel header trailer interior
               h tr (Tokens rec) (Seconds rec) (NanoSeconds rec)
               (concat chunks))
      by assumption.
    cbn [ParsingResult_Error isEOF].
    rewrite IH by (assumption || (cbn [length] in Hfuel; lia)).
    cbn [map app]. now destruct rec.
Qed.

(** ** Any byte source *)

Section AnySource.

Context {R : Type} `{Reader R}.

Lemma readInto_facts (input input' : R) (buf buf' : list byte)
    (lo hi n : Z) (err : option error) :
  readInto input buf lo hi = (buf', n, err, input') ->
  0 <= lo <= hi -> hi <= len buf ->
  0 <= n <= hi - lo /\
  len buf' = len buf /\
  firstn (Z.to_nat lo) buf' = firstn (Z.to_nat lo) buf.
Proof.
  unfold readInto. intros Hr Hlo Hhi.
  destruct (Read input (hi - lo)) as [[data e] input1].
  injection Hr as <- <- _ _.
  set (d := firstn (Z.to_nat (hi - lo)) data).
  assert (Hd : 0 <= len d <= hi - lo).
  { unfold d, len. rewrite length_firstn. lia. }
  split; [exact Hd|]. split.
  - rewrite !len_app. unfold len in *.
    rewrite length_firstn, length_skipn. lia.
  - rewrite firstn_app, firstn_firstn, Nat.min_id.
    rewrite length_firstn.
    replace (Z.to_nat lo - Nat.min (Z.to_nat lo) (length buf))%nat with 0%nat
      by (unfold len in *; lia).
    cbn [firstn]. apply app_nil_r.
Qed.

Lemma firstn_shorter {A : Type} (l l' : list A) (a b : nat) :
  (a <= b)%nat -> firstn b l = firstn b l' -> firstn a l = firstn a l'.
Proof.
  intros Hab E.
  rewrite <- (Nat.min_l a b Hab), <- !firstn_firstn. now rewrite E.
Qed.

(** The loop returns only after it has stored all the bytes asked for,
    behind those already in the buffer. *)
Lemma fill_facts (fuel : nat) :
  forall (input input' : R) (tb tb' : list byte) (bufidx increase idx' : Z),
    fill fuel input tb bufidx increase = Some (Ok (tb', idx'), input') ->
    0 <= bufidx ->
    len tb' = len tb /\
    firstn (Z.to_nat bufidx) tb' = firstn (Z.to_nat bufidx) tb /\
    idx' = bufidx + Z.max 0 increase.
Proof.
  induction fuel as [|fuel IH];
    intros input input' tb tb' bufidx increase idx' Hf Hidx;
    cbn [fill] in Hf;
    destruct (Z.gtb_spec increase 0) as [Hpos|Hneg];
    try discriminate Hf;
    try (injection Hf as <- <- <-; repeat split; lia).
  unfold sliceInBounds in Hf.
  destruct (Z.leb_spec 0 bufidx); [|discriminate Hf].
  destruct (Z.leb_spec bufidx (bufidx + increase)); [|discriminate Hf].
  destruct (Z.leb_spec (bufidx + increase) (len tb)); [|discriminate Hf].
  cbn [andb] in Hf.
  destruct (readInto input tb bufidx (bufidx + increase))
    as [[[tb1 n] [e|]] input1] eqn:Hr; [discriminate Hf|].
  apply readInto_facts in Hr; [|lia|lia].
  destruct Hr as (Hn & Hlen1 & Hpre1).
  apply IH in Hf; [|lia].
  destruct Hf as (Hlen & Hpre & Hidx').
  split; [congruence|]. split.
  - rewrite <- Hpre1. apply (firstn_shorter _ _ _ (Z.to_nat (bufidx + n)));
      [lia|exact Hpre].
  - destruct (Z.eqb_spec n increase); cbn [negb] in Hidx'; lia.
Qed.

Lemma len_copy (dst src : list byte) : len (copy dst src) = len dst.
Proof.
  unfold copy, len. rewrite length_app, length_firstn, length_skipn. lia.
Qed.

Lemma firstn_copy (dst src : list byte) (k : nat) :
  (k <= length src)%nat -> (k <= length dst)%nat ->
  firstn k (copy dst src) = firstn k src.
Proof.
  intros Hsrc Hdst. unfold copy.
  rewrite firstn_app, firstn_firstn, length_firstn.
  replace (k - Nat.min (length dst) (length src))%nat with 0%nat by lia.
  cbn [firstn]. rewrite app_nil_r. f_equal. lia.
Qed.

Lemma readRemaining_Ok_inv (input input' : R) (tb : list byte)
    (bufidx buflen : Z) (t : empty) :
  readRemaining input tb bufidx buflen = (Ok t, input') ->
  0 <= bufidx <= len tb ->
  exists buf,
    processBuffer buf = Ok t /\
    len buf = buflen /\
    bufidx <= buflen /\
    firstn (Z.to_nat bufidx) buf = firstn (Z.to_nat bufidx) tb.
Proof.
  unfold readRemaining. intros Hr Hidx.
  destruct (Z.ltb_spec buflen 0); [discriminate Hr|].
  unfold sliceInBounds in Hr. rewrite len_copy, len_make in Hr by lia.
  destruct (Z.leb_spec 0 bufidx); [|discriminate Hr].
  destruct (Z.leb_spec bufidx buflen); [|discriminate Hr].
  destruct (Z.leb_spec buflen buflen); [|lia].
  cbn [andb] in Hr.
  destruct (readInto input (copy (make buflen) tb) bufidx buflen)
    as [[[buf n] [e|]] input1] eqn:Hread; [discriminate Hr|].
  destruct (negb (n =? buflen - bufidx)); [discriminate Hr|].
  injection Hr as Hp _.
  apply readInto_facts in Hread;
    [|lia|rewrite len_copy, len_make; lia].
  destruct Hread as (_ & Hlen & Hpre).
  rewrite len_copy, len_make in Hlen by lia.
  exists buf. repeat split; try assumption.
  rewrite Hpre. apply firstn_copy.
  - unfold len in Hidx. lia.
  - unfold make. rewrite repeat_length. lia.
Qed.

Lemma first_call_request (id : byte) (n increase : Z) :
  determineTokenSize [id] = (n, increase, None) -> 0 <= increase.
Proof.
  destruct id; intros Hs; vm_compute in Hs; injection Hs as _ <-; lia.
Qed.

Lemma len_one (l : list byte) : len l = 1 -> exists b, l = [b].
Proof.
  destruct l as [|b [|c l]]; unfold len; cbn [length]; intros Hl;
    try lia. now exists b.
Qed.

Lemma prefix_is_firstn (l : list byte) (k : Z) :
  slice l 0 k = firstn (Z.to_nat k) l.
Proof.
  unfold slice. cbn [Z.to_nat skipn]. now rewrite Z.sub_0_r.
Qed.

(** A token that [TokenFromByteInput] returns is the answer of the
    switch on a buffer of the size the sizer reported for it. *)
Lemma TokenFromByteInput_Ok_inv (fuel : nat) (input input' : R) (t : empty) :
  TokenFromByteInput fuel input = Some (Ok t, input') ->
  exists buf, tokenBytes buf t.
Proof.
  unfold TokenFromByteInput. intros Ht.
  destruct (readInto input [x00] 0 1) as [[[tb0 n0] [e|]] input1] eqn:Hr0;
    [discriminate Ht|].
  destruct (negb (n0 =? 1)); [discriminate Ht|].
  apply readInto_facts in Hr0; [|lia|change (len [x00]) with 1; lia].
  destruct Hr0 as (_ & Hlen0 & _).
  apply len_one in Hlen0. destruct Hlen0 as [id ->].
  change (slice [id] 0 1) with [id] in Ht.
  destruct (determineTokenSize [id]) as [[buflen1 inc] [e|]] eqn:Hs1;
    [discriminate Ht|].
  pose proof (first_call_request id _ _ Hs1) as Hinc.
  destruct (Z.eqb_spec inc 0) as [->|Hnz]; cbn [negb] in Ht.
  - (* one call of the sizer *)
    assert (Hrem : readRemaining input1 [id] 1 buflen1 = (Ok t, input'))
      by congruence.
    clear Ht.
    apply readRemaining_Ok_inv in Hrem; [|change (len [id]) with 1; lia].
    destruct Hrem as (buf & Hp & Hlen & _ & Hpre).
    exists buf. split; [|exact Hp].
    unfold reportedSize. rewrite prefix_is_firstn.
    change (Z.to_nat 1) with 1%nat in Hpre |- *.
    rewrite Hpre. cbn [firstn]. rewrite Hs1. cbn [negb Z.eqb].
    now rewrite Hlen.
  - (* two calls of the sizer *)
    destruct (Z.ltb_spec (1 + inc) 0); [lia|].
    destruct (fill fuel input1 (copy (make (1 + inc)) [id]) 1 inc)
      as [[[[tb1 idx1]|e|] input2]|] eqn:Hfill; try discriminate Ht.
    apply fill_facts in Hfill; [|lia].
    destruct Hfill as (Hlen1 & Hpre1 & ->).
    rewrite Z.max_r in * by lia.
    replace (copy (make (1 + inc)) [id]) with ([id] ++ make inc) in *
      by (symmetry; apply (copy_make [id]); lia).
    rewrite len_app, len_make in Hlen1 by lia.
    change (len [id]) with 1 in Hlen1.
    change (firstn (Z.to_nat 1) ([id] ++ make inc)) with [id] in Hpre1.
    destruct (determineTokenSize tb1) as [[buflen inc2] [e|]] eqn:Hs2;
      [discriminate Ht|].
    assert (Hrem : readRemaining input2 tb1 (1 + inc) buflen
                   = (Ok t, input')) by congruence.
    clear Ht.
    apply readRemaining_Ok_inv in Hrem; [|lia].
    destruct Hrem as (buf & Hp & Hlen & Hle & Hpre).
    assert (Etb1 : firstn (Z.to_nat (1 + inc)) tb1 = tb1)
      by (apply firstn_all2; unfold len in Hlen1; lia).
    rewrite Etb1 in Hpre.
    exists buf. split; [|exact Hp].
    unfold reportedSize. rewrite !prefix_is_firstn.
    assert (E1 : firstn (Z.to_nat 1) buf = [id]).
    { rewrite <- Hpre1.
      apply (firstn_shorter _ _ _ (Z.to_nat (1 + inc))); [lia|].
      now rewrite Hpre, Etb1. }
    rewrite E1, Hs1. cbv beta iota zeta.
    destruct (Z.eqb_spec inc 0); [contradiction|]. cbn [negb].
    rewrite prefix_is_firstn, Hpre, Hs2. now rewrite Hlen.
Qed.

Lemma header_time_32bit (fuel : nat) (input input' : R) (t : empty)
    (s ns : Z) :
  TokenFromByteInput fuel input = Some (Ok t, input') ->
  headerTime t = Some (s, ns) ->
  0 <= s < 2 ^ 32 /\ 0 <= ns < 2 ^ 32.
Proof.
  intros Ht Htime. apply TokenFromByteInput_Ok_inv in Ht.
  destruct Ht as (buf & _ & Hp).
  destruct (processBuffer_Ok_inv buf t Hp) as (_ & _ & Hb). auto.
Qed.

Lemma collect_keeps_time (tokenFuel fuel : nat) :
  forall (input input' : R) (rec rec' : BsmRecord) (next : empty)
         (err : option error),
    collect tokenFuel fuel input rec next
      = Some (Returns (rec', err), input') ->
    Seconds rec' = Seconds rec /\ NanoSeconds rec' = NanoSeconds rec.
Proof.
  intros input input' rec rec' next [e|] Hc.
  - apply collect_fails in Hc.
    destruct Hc as (? & ? & _ & _ & _ & _ & Hs & Hn). auto.
  - apply collect_returns in Hc.
    destruct Hc as (? & ? & ? & _ & _ & _ & _ & _ & Hs & Hn). auto.
Qed.

(** Whatever the byte source and whatever the error, the record that
    [ReadBsmRecord] returns has seconds and nanoseconds below [2^32]: the
    only header the decoder returns is the 32-bit one, so the 64-bit time
    stamps of the other header types never reach a record. *)
Theorem record_time_is_32bit (fuel : nat) (input input' : R)
    (rec : BsmRecord) (err : option error) :
  ReadBsmRecord fuel input = Some (Returns (rec, err), input') ->
  0 <= Seconds rec < 2 ^ 32 /\ 0 <= NanoSeconds rec < 2 ^ 32.
Proof.
  assert (Hzero : 0 <= 0 < 2 ^ 32) by (split; [lia|reflexivity]).
  intros Hret. unfold ReadBsmRecord in Hret.
  destruct (TokenFromByteInput fuel input)
    as [[[header|e|] input1]|] eqn:Hheader; try discriminate Hret;
    [|injection Hret as <- _ _; cbn [Seconds NanoSeconds]; auto].
  destruct (headerTime header) as [[s ns]|] eqn:Htime.
  - pose proof (header_time_32bit _ _ _ _ _ _ Hheader Htime) as Hb.
    destruct header; try discriminate Htime;
      cbn [headerTime] in Htime; injection Htime as <- <-;
      cbv beta zeta in Hret;
      (destruct (TokenFromByteInput fuel input1)
         as [[[next|e|] input2]|] eqn:Hnext; try discriminate Hret);
      first
        [ apply collect_keeps_time in Hret;
          cbn [Seconds NanoSeconds] in Hret;
          destruct Hret as [-> ->]; exact Hb
        | injection Hret as <- _ _; cbn [Seconds NanoSeconds]; exact Hb ].
  - destruct header; try discriminate Htime;
      injection Hret as <- _ _; cbn [Seconds NanoSeconds]; auto.
Qed.

(** When the generator closes the channel, the last value it sent, and
    no value before it, has the error [io.EOF]; when instead a panic
    stops it, no value sent has that error. *)
Theorem RecordGenerator_ends_with_EOF (recordFuel fuel : nat) :
  forall (input input' : R) (sent : list ParsingResult) (e : ending),
    RecordGenerator recordFuel fuel input = Some (sent, e, input') ->
    match e with
    | Closed =>
        exists (init : list ParsingResult) (last : ParsingResult),
          sent = init ++ [last] /\
          isEOF (ParsingResult_Error last) = true /\
          Forall notEOF init
    | Crashed => Forall notEOF sent
    end.
Proof.
  induction fuel as [|fuel IH]; intros input input' sent e Hg;
    cbn [RecordGenerator] in Hg; [discriminate Hg|].
  destruct (ReadBsmRecord recordFuel input)
    as [[[[rec err]|] input1]|] eqn:Hread; try discriminate Hg.
  - cbn [ParsingResult_Error] in Hg.
    destruct (isEOF err) eqn:Heof.
    + injection Hg as <- <- _.
      exists [], (mkParsingResult rec err).
      split; [reflexivity|]. split; [exact Heof|constructor].
    + destruct (RecordGenerator recordFuel fuel input1)
        as [[[sent1 e1] input2]|] eqn:Hrec; [|discriminate Hg].
      injection Hg as <- <- _.
      apply IH in Hrec. destruct e1.
      * destruct Hrec as (init & last & -> & Hlast & Hinit).
        exists (mkParsingResult rec err :: init), last.
        split; [reflexivity|]. split; [exact Hlast|].
        constructor; [exact Heof|exact Hinit].
      * constructor; [exact Heof|exact Hrec].
  - injection Hg as <- <- _. constructor.
Qed.

(** The generator stops at [io.EOF] only. On a byte source whose every
    [Read] returns another error and leaves the source as it is, the
    generator sends that error over and over: however much fuel it is
    given, it has neither closed the channel nor stopped. *)
Theorem RecordGenerator_does_not_stop_on_error (recordFuel fuel : nat)
    (input : R) (e : error) :
  (forall n, Read input n = ([], Some e, input)) ->
  e <> ErrEOF ->
  ReadBsmRecord recordFuel input
    = Some (Returns (mkBsmRecord 0 0 [], Some e), input) /\
  RecordGenerator recordFuel fuel input = None.
Proof.
  intros Hread Hne.
  assert (Htok : TokenFromByteInput recordFuel input = Some (Err e, input)).
  { unfold TokenFromByteInput, readInto. now rewrite Hread. }
  assert (Hrec : ReadBsmRecord recordFuel input
                 = Some (Returns (mkBsmRecord 0 0 [], Some e), input)).
  { unfold ReadBsmRecord. now rewrite Htok. }
  split; [exact Hrec|].
  induction fuel as [|fuel IH]; cbn [RecordGenerator]; [reflexivity|].
  rewrite Hrec. cbn [ParsingResult_Error].
  assert (Heof : isEOF (Some e) = false)
    by (clear - Hne; destruct e; first [reflexivity|contradiction]).
  rewrite Heof.
  now rewrite IH.
Qed.

End AnySource.

(** ** Strings *)

Lemma slice_cons {A : Type} (a : A) (l : list A) (lo hi : Z) :
  0 < lo -> slice (a :: l) lo hi = slice l (lo - 1) (hi - 1).
Proof.
  intros Hlo. unfold slice.
  replace (Z.to_nat lo) with (S (Z.to_nat (lo - 1))) by lia.
  cbn [skipn]. f_equal. lia.
Qed.

Lemma slice_whole_prefix {A : Type} (l m : list A) :
  slice (l ++ m) 0 (len l) = l.
Proof.
  rewrite slice_app by (pose proof (len_nonneg l); lia).
  unfold slice. cbn [Z.to_nat skipn]. rewrite Z.sub_0_r.
  apply firstn_all2. unfold len. lia.
Qed.

Lemma slice_after_prefix {A : Type} (l m n : list A) (hi : Z) :
  hi = len l + len m ->
  slice (l ++ m ++ n) (len l) hi = m.
Proof.
  intros ->. unfold slice.
  rewrite skipn_len_app.
  replace (len l + len m - len l) with (len m) by lia.
  apply firstn_len_app.
Qed.

(** Writing then reading a string token. For the path, text and zonename
    tokens, a string of at most 65532 bytes written as ID, 16-bit length
    of the string plus one, string and one terminating byte is read back
    from a [bytes.Buffer] as the token with that length and that string:
    the terminating byte is dropped, whatever it is, and the bytes after
    it are left in the buffer. *)
Theorem string_token_round_trip (fuel : nat) (id z : byte)
    (s : list byte) (rest : Buffer) :
  In id [x23; x28; x60] ->
  len s <= 65532 ->
  TokenFromByteInput (S fuel) (stringTokenBytes id s z ++ rest : Buffer)
    = Some (Ok (stringToken id (len s + 1) s), rest).
Proof.
  intros Hid Hs. pose proof (len_nonneg s) as Hs0.
  set (n := len s + 1).
  set (field := bigEndian 2 n).
  assert (Hfield : len field = 2) by apply (len_bigEndian 2).
  assert (Hvalue : beValue field = n).
  { unfold field. rewrite beValue_bigEndian.
    change (256 ^ Z.of_nat 2) with 65536. apply Z.mod_small. lia. }
  assert (Hlen : len (stringTokenBytes id s z) = 3 + n).
  { unfold stringTokenBytes. fold n field.
    rewrite len_cons, !len_app, Hfield.
    change (len [z]) with 1. lia. }
  assert (Hlength : slice (stringTokenBytes id s z) 1 3 = field).
  { unfold stringTokenBytes. fold n field.
    rewrite slice_cons by lia.
    change (1 - 1) with 0. change (3 - 1) with 2.
    rewrite <- Hfield. apply slice_whole_prefix. }
  assert (Hstring : slice (stringTokenBytes id s z) 3 (n + 2) = s).
  { unfold stringTokenBytes. fold n field.
    rewrite slice_cons by lia.
    replace (3 - 1) with (len field) by lia.
    apply slice_after_prefix. lia. }
  apply tokenBytes_read. split.
  - (* the sizer reports the length of the bytes *)
    unfold reportedSize, stringTokenBytes. fold n field.
    change (slice (id :: field ++ s ++ [z]) 0 1) with [id].
    cbn [In] in Hid.
    destruct Hid as [<-|[<-|[<-|[]]]];
      match goal with
      | |- context [determineTokenSize [?i]] =>
          let r := eval vm_compute in (determineTokenSize [i]) in
          change (determineTokenSize [i]) with r
      end;
      cbv beta iota zeta; cbn [negb Z.eqb Z.add Pos.add];
      rewrite determineTokenSize_prefix by (cbn [In]; tauto);
      unfold determineTokenSize; cbv beta iota zeta;
      match goal with
      | |- context [withUint16 (?i :: ?l) _ _ _] =>
          change (i :: l) with (stringTokenBytes i s z)
      end;
      rewrite withUint16_ready by lia;
      rewrite Hlength, Hvalue, Hlen; unfold sized; do 2 f_equal; lia.
  - (* the switch returns the string *)
    unfold processBuffer.
    change (index (stringTokenBytes id s z) 0) with (Ok id).
    cbn [bind In] in Hid |- *.
    destruct Hid as [<-|[<-|[<-|[]]]]; cbv beta iota;
      rewrite uint16At_ok by lia; cbn [bind];
      rewrite Hlength, Hvalue;
      unfold wrap; rewrite Z.mod_small by (change (2 ^ 16) with 65536; lia);
      rewrite gslice_ok by lia; cbn [bind];
      rewrite Hstring; reflexivity.
Qed.

(** A token that is no header cannot open a record: when a
    [bytes.Buffer] starts with a token that the decoder returns and that
    is none of the header types, [ReadBsmRecord] consumes this token and
    returns the zero record with the error "no header token found". *)
Theorem record_must_start_with_header (fuel : nat) (buf : list byte)
    (t : empty) (rest : Buffer) :
  tokenBytes buf t ->
  headerTime t = None ->
  ReadBsmRecord (S fuel) (buf ++ rest : Buffer)
    = Some (Returns (mkBsmRecord 0 0 [], Some ErrNoHeader), rest).
Proof.
  intros Hbuf Htime. unfold ReadBsmRecord.
  rewrite (tokenBytes_read fuel buf t rest Hbuf).
  destruct t; try discriminate Htime; reflexivity.
Qed.

(** ** A [bytes.Buffer] is read to its end *)

Lemma Buffer_Read_shrinks (b b' : Buffer) (n : Z) (data : list byte)
    (err : option error) :
  Read b n = (data, err, b') ->
  len b' <= len b /\
  (b = [] -> 0 < n -> err = Some ErrEOF).
Proof.
  unfold Read, Buffer_Read. intros Hr.
  destruct b as [|c b0].
  - destruct (Z.eqb_spec n 0); injection Hr as <- <- <-;
      (split; [lia|intros _ Hn; first [lia|reflexivity]]).
  - injection Hr as <- <- <-. split; [|discriminate].
    unfold len. rewrite length_skipn. lia.
Qed.

Lemma readInto_Buffer_shrinks (b b' : Buffer) (buf buf' : list byte)
    (lo hi n : Z) (err : option error) :
  readInto b buf lo hi = (buf', n, err, b') ->
  len b' <= len b /\
  (b = [] -> lo < hi -> err = Some ErrEOF).
Proof.
  unfold readInto. intros Hr.
  destruct (Read b (hi - lo)) as [[data e] b1] eqn:Hread.
  injection Hr as _ _ <- <-.
  apply Buffer_Read_shrinks in Hread. destruct Hread as [Hle Heof].
  split; [exact Hle|]. intros Hb Hlo. apply Heof; [exact Hb|lia].
Qed.

Lemma readInto_Buffer_drains (b b' : Buffer) (buf buf' : list byte)
    (lo hi n : Z) :
  readInto b buf lo hi = (buf', n, None, b') ->
  lo < hi -> n <> hi - lo -> b' = [].
Proof.
  unfold readInto, Read, Buffer_Read. intros Hr Hlo Hn.
  destruct b as [|c b0].
  - destruct (Z.eqb_spec (hi - lo) 0); [lia|discriminate Hr].
  - injection Hr as _ Hlen <-.
    set (b := c :: b0) in *. set (k := Z.to_nat (hi - lo)) in *.
    rewrite firstn_firstn, Nat.min_id in Hlen.
    apply skipn_all2. unfold len in Hlen.
    rewrite length_firstn in Hlen. lia.
Qed.

Lemma fill_Buffer_end (fuel : nat) (tb : list byte) (bufidx increase : Z) :
  exists o, fill (S fuel) ([] : Buffer) tb bufidx increase = Some (o, []).
Proof.
  cbn [fill].
  destruct (Z.gtb_spec increase 0); [|eauto].
  destruct (sliceInBounds tb bufidx (bufidx + increase)); [|eauto].
  destruct (readInto ([] : Buffer) tb bufidx (bufidx + increase))
    as [[[tb1 n] err] b1] eqn:Hr.
  pose proof (readInto_Buffer_shrinks _ _ _ _ _ _ _ _ Hr) as [_ Heof].
  rewrite (Heof eq_refl ltac:(lia)).
  unfold readInto, Read, Buffer_Read in Hr.
  destruct (bufidx + increase - bufidx =? 0); injection Hr as _ _ _ <-; eauto.
Qed.

Lemma fill_Buffer_total (fuel : nat) (b : Buffer) (tb : list byte)
    (bufidx increase : Z) :
  exists o b',
    fill (S (S fuel)) b tb bufidx increase = Some (o, b') /\
    len b' <= len b.
Proof.
  cbn [fill].
  destruct (Z.gtb_spec increase 0) as [Hpos|]; [|eauto using Z.le_refl].
  destruct (sliceInBounds tb bufidx (bufidx + increase));
    [|eauto using Z.le_refl].
  destruct (readInto b tb bufidx (bufidx + increase))
    as [[[tb1 n] [e|]] b1] eqn:Hr;
    pose proof (readInto_Buffer_shrinks _ _ _ _ _ _ _ _ Hr) as [Hle _];
    [eauto|].
  destruct (Z.eqb_spec n increase) as [->|Hn]; cbn [negb].
  - destruct (Z.gtb_spec 0 0); [lia|]. eauto.
  - apply readInto_Buffer_drains in Hr; [|lia|lia]. subst b1.
    destruct (Z.gtb_spec (increase - n) 0).
    + destruct (sliceInBounds tb1 (bufidx + n) (bufidx + n + (increase - n)));
        [|eauto].
      destruct (readInto ([] : Buffer) tb1 (bufidx + n)
                  (bufidx + n + (increase - n)))
        as [[[tb2 n2] err] b2] eqn:Hr2.
      pose proof (readInto_Buffer_shrinks _ _ _ _ _ _ _ _ Hr2) as [Hle2 Heof].
      rewrite (Heof eq_refl ltac:(lia)). exists (Err ErrEOF), b2.
      split; [reflexivity|lia].
    + eauto.
Qed.

Lemma readRemaining_Buffer_total (b : Buffer) (tb : list byte)
    (bufidx buflen : Z) :
  exists o b',
    readRemaining b tb bufidx buflen = (o, b') /\ len b' <= len b.
Proof.
  unfold readRemaining.
  destruct (buflen <? 0); [eauto using Z.le_refl|].
  destruct (sliceInBounds _ bufidx buflen); [|eauto using Z.le_refl].
  destruct (readInto b (copy (make buflen) tb) bufidx buflen)
    as [[[tb1 n] [e|]] b1] eqn:Hr;
    pose proof (readInto_Buffer_shrinks _ _ _ _ _ _ _ _ Hr) as [Hle _];
    [eauto|].
  destruct (negb (n =? buflen - bufidx)); eauto.
Qed.

(** With fuel for two turns of its loop, [TokenFromByteInput] returns on
    every [bytes.Buffer]; it takes at least one byte from a buffer that
    is not empty and gives [io.EOF] on an empty one. *)
Lemma TokenFromByteInput_Buffer_total (fuel : nat) (b : Buffer) :
  exists o b',
    TokenFromByteInput (S (S fuel)) b = Some (o, b') /\
    len b' <= len b /\
    (b <> [] -> len b' < len b) /\
    (b = [] -> o = Err ErrEOF).
Proof.
  destruct b as [|id tail].
  - exists (Err ErrEOF), []. repeat split; try reflexivity; try lia.
    intros Hb. now contradiction Hb.
  - rewrite TokenFromByteInput_Buffer_start.
    assert (Hlt : forall b' : Buffer,
              len b' <= len tail ->
              len b' <= len (id :: tail) /\
              (id :: tail <> [] -> len b' < len (id :: tail)) /\
              (id :: tail = [] -> forall o : outcome empty, o = Err ErrEOF)).
    { intros b' Hle. rewrite len_cons.
      repeat split; try lia. discriminate. }
    assert (Hdone : forall (o : outcome empty) (b' : Buffer),
              len b' <= len tail ->
              exists o' b'',
                Some (o, b') = Some (o', b'') /\
                len b'' <= len (id :: tail) /\
                (id :: tail <> [] -> len b'' < len (id :: tail)) /\
                (id :: tail = [] -> o' = Err ErrEOF)).
    { intros o b' Hle. exists o, b'. rewrite len_cons.
      repeat split; try lia. discriminate. }
    destruct (determineTokenSize [id]) as [[buflen inc] [e|]];
      [apply Hdone; lia|].
    destruct (negb (inc =? 0)).
    + destruct (1 + inc <? 0); [apply Hdone; lia|].
      destruct (fill_Buffer_total fuel tail
                  (copy (make (1 + inc)) [id]) 1 inc)
        as (o1 & b1 & -> & Hle1).
      destruct o1 as [[tb1 idx1]|e|]; try (apply Hdone; lia).
      destruct (determineTokenSize tb1) as [[buflen2 inc2] [e|]];
        [apply Hdone; lia|].
      destruct (readRemaining_Buffer_total b1 tb1 idx1 buflen2)
        as (o2 & b2 & -> & Hle2).
      apply Hdone; lia.
    + destruct (readRemaining_Buffer_total tail [id] 1 buflen)
        as (o2 & b2 & -> & Hle2).
      apply Hdone; lia.
Qed.

Lemma collect_Buffer_total (tokenFuel fuel : nat) :
  forall (b : Buffer) (rec : BsmRecord) (next : empty),
    (length b < fuel)%nat ->
    exists r b',
      collect (S (S tokenFuel)) fuel b rec next = Some (r, b') /\
      len b' <= len b.
Proof.
  induction fuel as [|fuel IH]; intros b rec next Hfuel; [lia|].
  cbn [collect].
  destruct (isTrailerToken next); [eauto using Z.le_refl|].
  destruct (TokenFromByteInput_Buffer_total tokenFuel b)
    as (o & b1 & -> & Hle & Hlt & Hempty).
  destruct o as [next'|e|]; [|eauto|eauto].
  assert (Hb : b <> []) by (intros ->; discriminate (Hempty eq_refl)).
  specialize (Hlt Hb).
  destruct (IH b1 (mkBsmRecord (Seconds rec) (NanoSeconds rec)
                     (Tokens rec ++ [next])) next')
    as (r & b2 & -> & Hle2); [unfold len in *; lia|].
  exists r, b2. split; [reflexivity|lia].
Qed.

Lemma ReadBsmRecord_Buffer_total (fuel : nat) (b : Buffer) :
  (length b <= fuel)%nat ->
  exists r b',
    ReadBsmRecord (S (S fuel)) b = Some (r, b') /\
    len b' <= len b /\
    (b <> [] -> len b' < len b) /\
    (b = [] -> r = Returns (mkBsmRecord 0 0 [], Some ErrEOF)).
Proof.
  intros Hfuel. unfold ReadBsmRecord.
  destruct (TokenFromByteInput_Buffer_total fuel b)
    as (o & b1 & -> & Hle & Hlt & Hempty).
  destruct o as [header|e|].
  - assert (Hb : b <> []) by (intros ->; discriminate (Hempty eq_refl)).
    specialize (Hlt Hb).
    assert (Hbody : forall seconds nanoSeconds,
      exists r b',
        match TokenFromByteInput (S (S fuel)) b1 with
        | None => None
        | Some (Panic, input) => Some (Panics, input)
        | Some (Err e, input) =>
            Some (Returns (mkBsmRecord seconds nanoSeconds [], Some e), input)
        | Some (Ok nextToken, input) =>
            collect (S (S fuel)) (S (S fuel)) input
              (mkBsmRecord seconds nanoSeconds []) nextToken
        end = Some (r, b') /\
        len b' <= len b /\
        (b <> [] -> len b' < len b) /\
        (b = [] ->
         r = Returns (mkBsmRecord 0 0 [], Some ErrEOF))).
    { intros seconds nanoSeconds.
      destruct (TokenFromByteInput_Buffer_total fuel b1)
        as (o2 & b2 & -> & Hle2 & _ & _).
      destruct o2 as [next|e|];
        try (eexists; eexists; split; [reflexivity|];
             repeat split; try lia; intros; contradiction).
      destruct (collect_Buffer_total fuel (S (S fuel)) b2
                  (mkBsmRecord seconds nanoSeconds []) next)
        as (r & b3 & -> & Hle3); [unfold len in *; lia|].
      eexists; eexists; split; [reflexivity|].
      repeat split; try lia; intros; contradiction. }
    destruct header; cbv beta zeta; cbn [Tokens];
      try apply Hbody;
      (eexists; eexists; split; [reflexivity|];
       repeat split; try lia; intros; contradiction).
  - eexists; eexists; split; [reflexivity|].
    repeat split; try assumption.
    intros Hb. specialize (Hempty Hb). injection Hempty as ->. reflexivity.
  - eexists; eexists; split; [reflexivity|].
    repeat split; try assumption.
    intros Hb. discriminate (Hempty Hb).
Qed.

(** On a [bytes.Buffer] the generator always comes to an end: with fuel
    beyond the length of the buffer, it closes the channel or a panic
    stops it, after it has sent at most one value per byte of the buffer
    and one more. *)
Theorem RecordGenerator_ends_on_Buffer (recordFuel fuel : nat)
    (b : Buffer) :
  (length b <= recordFuel)%nat ->
  (length b < fuel)%nat ->
  exists (sent : list ParsingResult) (e : ending) (b' : Buffer),
    RecordGenerator (S (S recordFuel)) fuel b = Some (sent, e, b') /\
    (length sent <= S (length b))%nat.
Proof.
  revert b. induction fuel as [|fuel IH]; intros b Hrec Hfuel; [lia|].
  cbn [RecordGenerator].
  destruct (ReadBsmRecord_Buffer_total recordFuel b Hrec)
    as (r & b1 & -> & Hle & Hlt & Hempty).
  destruct r as [[rec err]|].
  - cbn [ParsingResult_Error].
    destruct (isEOF err) eqn:Heof.
    + eexists; eexists; eexists; split; [reflexivity|]. cbn [length]. lia.
    + assert (Hb : b <> []).
      { intros ->. specialize (Hempty eq_refl).
        injection Hempty as _ ->. discriminate Heof. }
      specialize (Hlt Hb).
      destruct (IH b1) as (sent & e & b2 & -> & Hsent);
        [unfold len in *; lia..|].
      eexists; eexists; eexists; split; [reflexivity|].
      cbn [length]. unfold len in *. lia.
  - eexists; eexists; eexists; split; [reflexivity|]. cbn [length]. lia.
Qed.

(** * Further instances on the sample inputs *)

Lemma bytesToUint_leading_zeros_sample :
  bytesToUint 32 (repeat x00 1 ++ [x01; x02]) = (beValue [x01; x02], None) /\
  bytesToUint 32 [x01; x02] = (beValue [x01; x02], None).
Proof.
  apply (bytesToUint_leading_zeros 32 1 [x01; x02]).
  - right; left; reflexivity.
  - vm_compute; discriminate.
Defined.

Lemma bytesToUint_range_and_error_sample :
  0 <= fst (bytesToUint 16 [x01; x02; x03]) < 2 ^ 16 /\
  (snd (bytesToUint 16 [x01; x02; x03]) <> None
   <-> 16 / 8 < len [x01; x02; x03]).
Proof.
  apply (bytesToUint_range_and_error 16 [x01; x02; x03]).
  left; reflexivity.
Defined.

Lemma bigEndian_bytesToUint_sample :
  bigEndian (Z.to_nat (32 / 8)) (fst (bytesToUint 32 [x01; x00; x00; x02]))
    = [x01; x00; x00; x02].
Proof.
  apply (bigEndian_bytesToUint 32 [x01; x00; x00; x02]).
  - right; left; reflexivity.
  - reflexivity.
Defined.

Lemma unknown_token_size_error_sample :
  determineTokenSize (xff :: [x00]) = (0, 0, Some (ErrTokenSize xff)).
Proof.
  apply (proj1 (unknown_token_size_error xff [x00])).
  unfold sizerIDs. cbn [In]. intros Hin.
  repeat (destruct Hin as [Hin|Hin]; [discriminate Hin|]). exact Hin.
Defined.

Lemma need_more_is_shortfall_sample :
  determineTokenSize [x11] = (0, 11 - len [x11], None).
Proof.
  apply (need_more_is_shortfall [x11] x11 11).
  - reflexivity.
  - left; reflexivity.
  - reflexivity.
Defined.

Lemma length_prefixed_size_sample :
  determineTokenSize
    [x11; x00; x01; x02; x03; x04; x05; x06; x07; x23; xf8]
    = (12 + 1 * beValue
                  (slice [x11; x00; x01; x02; x03; x04; x05; x06; x07;
                          x23; xf8] 9 11), 0, None) /\
  0 <= beValue
         (slice [x11; x00; x01; x02; x03; x04; x05; x06; x07; x23; xf8]
            9 11) < 2 ^ 16.
Proof.
  apply (length_prefixed_size
           [x11; x00; x01; x02; x03; x04; x05; x06; x07; x23; xf8]
           x11 9 11 12 1).
  - reflexivity.
  - left; reflexivity.
  - vm_compute; discriminate.
Defined.

Lemma nul_counted_size_sample :
  determineTokenSize [x25; x00; x01; x61; x00] =
    if countNUL (skipn (Z.to_nat 3) [x25; x00; x01; x61; x00])
       <? beValue (slice [x25; x00; x01; x61; x00] 1 3)
    then (0, 1, None)
    else (len [x25; x00; x01; x61; x00], 0, None).
Proof.
  apply (nul_counted_size [x25; x00; x01; x61; x00] x25 3).
  - reflexivity.
  - left; reflexivity.
  - vm_compute; discriminate.
Defined.

Lemma size_stable_under_extension_sample :
  determineTokenSize ([x28; x00; x06] ++ [x68; x65; x6c; x6c; x6f; x00])
    = (9, 0, None).
Proof.
  apply (size_stable_under_extension [x28; x00; x06]
           [x68; x65; x6c; x6c; x6f; x00] x28 9).
  - reflexivity.
  - cbn [In]. intros [E|[E|[E|[]]]]; discriminate E.
  - reflexivity.
  - discriminate.
Defined.

Lemma ParseHeaderToken32bit_cases_sample :
  ParseHeaderToken32bit sampleText
    = (zeroHeaderToken32bit, Some ErrHeaderLength).
Proof.
  apply (proj1 (ParseHeaderToken32bit_cases sampleText)).
  vm_compute; discriminate.
Defined.

Lemma decoder_keeps_id_and_type_sample :
  hd_error sampleText = Some (TokenID sampleTextToken) /\
  In (TokenID sampleTextToken) (variantIDs sampleTextToken) /\
  In (TokenID sampleTextToken) decoded /\
  (forall v, sampleTextToken <> IsHeaderToken64bit v) /\
  (forall v, sampleTextToken <> IsExpandedHeaderToken32bit v) /\
  (forall v, sampleTextToken <> IsExpandedHeaderToken64bit v).
Proof.
  apply (decoder_keeps_id_and_type sampleText sampleTextToken).
  reflexivity.
Defined.

Lemma unknown_token_consumes_one_byte_sample :
  TokenFromByteInput 1 (xff :: sampleText : Buffer)
    = Some (Err (ErrTokenSize xff), sampleText).
Proof.
  apply (proj1 (unknown_token_consumes_one_byte 1 xff sampleText)).
  unfold sizerIDs. cbn [In]. intros Hin.
  repeat (destruct Hin as [Hin|Hin]; [discriminate Hin|]). exact Hin.
Defined.

Lemma undecoded_token_is_read_then_refused_sample :
  TokenFromByteInput 1
    ((x22 :: [x01; x00; x00; x00; x2a]) ++ sampleText : Buffer)
    = Some (Err (ErrNewTokenID x22), sampleText) /\
  ReadBsmRecord 1
    ((x22 :: [x01; x00; x00; x00; x2a]) ++ sampleText : Buffer)
    = Some (Returns (mkBsmRecord 0 0 [], Some (ErrNewTokenID x22)),
            sampleText).
Proof.
  apply (undecoded_token_is_read_then_refused 1 x22
           [x01; x00; x00; x00; x2a] sampleText).
  - unfold sizedNotDecoded. left; reflexivity.
  - reflexivity.
Defined.

Lemma truncated_token_is_an_error_sample :
  TokenFromByteInput 1 (x13 :: [xb1; x05] : Buffer)
    = Some (Err (ErrReadCount (len [xb1; x05]) (7 - 1)), []).
Proof.
  apply (truncated_token_is_an_error 1 x13 [xb1; x05] 7).
  - reflexivity.
  - reflexivity.
Defined.

Lemma nul_counted_tokens_never_decode_sample :
  TokenFromByteInput 1 ([x25; x00; x01] ++ [x61; x00] : Buffer)
    = Some (if beValue (slice [x25; x00; x01] 1 3) =? 0
            then Err (ErrNewTokenID x25)
            else Panic, [x61; x00]).
Proof.
  apply (nul_counted_tokens_never_decode 0 x25 3 [x25; x00; x01]
           [x61; x00]).
  - left; reflexivity.
  - reflexivity.
  - reflexivity.
Defined.

Lemma sampleStream_recordBytes : recordBytes sampleStream sampleRecord.
Proof.
  exists sampleHeader32, sampleTrailer, [sampleText], sampleHeaderToken,
    (IsTrailerToken (mkTrailerToken x13 0xb105 0)).
  split; [reflexivity|].
  split; [split; reflexivity|].
  split; [reflexivity|].
  split; [repeat constructor|].
  split; [reflexivity|].
  split; [split; reflexivity|reflexivity].
Defined.

Lemma ReadBsmRecord_reads_record_sample :
  ReadBsmRecord 1 (sampleStream ++ [xff] : Buffer)
    = Some (Returns (sampleRecord, None), [xff]).
Proof.
  apply (ReadBsmRecord_reads_record 0 sampleStream sampleRecord [xff]).
  - exact sampleStream_recordBytes.
  - cbn [sampleRecord Tokens length]. lia.
Defined.

Lemma RecordGenerator_yields_records_sample :
  RecordGenerator 1 3 (concat [sampleStream; sampleStream] : Buffer)
    = Some (map (fun rec => mkParsingResult rec None)
              [sampleRecord; sampleRecord] ++ [endOfStream], Closed, []).
Proof.
  apply (RecordGenerator_yields_records 0 3 [sampleStream; sampleStream]
           [sampleRecord; sampleRecord]).
  - repeat constructor; exact sampleStream_recordBytes.
  - repeat constructor; cbn [sampleRecord Tokens length]; lia.
  - cbn [length]. lia.
Defined.

Lemma record_time_is_32bit_sample :
  0 <= Seconds sampleRecord < 2 ^ 32 /\
  0 <= NanoSeconds sampleRecord < 2 ^ 32.
Proof.
  apply (@record_time_is_32bit Buffer Buffer_Read 1 sampleStream []
           sampleRecord None).
  reflexivity.
Defined.

Lemma RecordGenerator_ends_with_EOF_sample :
  exists (init : list ParsingResult) (last : ParsingResult),
    [mkParsingResult sampleRecord None; endOfStream] = init ++ [last] /\
    isEOF (ParsingResult_Error last) = true /\
    Forall notEOF init.
Proof.
  apply (@RecordGenerator_ends_with_EOF Buffer Buffer_Read 1 2
           sampleStream [] [mkParsingResult sampleRecord None; endOfStream]
           Closed).
  reflexivity.
Defined.

Lemma RecordGenerator_does_not_stop_on_error_sample :
  ReadBsmRecord 1 (ErrIO 5 : ErrReader)
    = Some (Returns (mkBsmRecord 0 0 [], Some (ErrIO 5)), ErrIO 5) /\
  RecordGenerator 1 1000 (ErrIO 5 : ErrReader) = None.
Proof.
  apply (@RecordGenerator_does_not_stop_on_error ErrReader ErrReader_Read
           1 1000 (ErrIO 5) (ErrIO 5)).
  - reflexivity.
  - discriminate.
Defined.

Lemma RecordGenerator_ends_on_Buffer_sample :
  exists (sent : list ParsingResult) (e : ending) (b' : Buffer),
    RecordGenerator (S (S 34)) 35 sampleStream = Some (sent, e, b') /\
    (length sent <= S (length sampleStream))%nat.
Proof.
  apply (RecordGenerator_ends_on_Buffer 34 35 sampleStream).
  - cbn. lia.
  - cbn. lia.
Defined.

Lemma string_token_round_trip_sample :
  TokenFromByteInput 1
    (stringTokenBytes x28 [x68; x65; x6c; x6c; x6f] x00 ++ [xff] : Buffer)
    = Some (Ok (stringToken x28 (len [x68; x65; x6c; x6c; x6f] + 1)
                  [x68; x65; x6c; x6c; x6f]), [xff]).
Proof.
  apply (string_token_round_trip 0 x28 x00 [x68; x65; x6c; x6c; x6f] [xff]).
  - right; left; reflexivity.
  - vm_compute; discriminate.
Defined.

Lemma record_must_start_with_header_sample :
  ReadBsmRecord 1 (sampleText ++ sampleTrailer : Buffer)
    = Some (Returns (mkBsmRecord 0 0 [], Some ErrNoHeader), sampleTrailer).
Proof.
  apply (record_must_start_with_header 0 sampleText sampleTextToken
           sampleTrailer).
  - split; reflexivity.
  - reflexivity.
Defined.

(** * Framing on byte sources that fill their reads *)

Lemma Buffer_fillsReads : fillsReads (fun b : Buffer => b).
Proof.
  intros b n Hn. exists (skipn (Z.to_nat n) b).
  unfold Read, Buffer_Read.
  destruct b as [|c b]; [cbn in Hn; lia|]. split; reflexivity.
Qed.

(** For the four tokens that carry one string, a declared length of 0
    makes the switch slice with a high bound under the low one. *)
Lemma empty_string_is_not_decoded (buf : list byte) (id : byte)
    (lo hi : Z) (t : empty) :
  hd_error buf = Some id ->
  In (id, lo, hi) [(x23, 1, 3); (x28, 1, 3); (x60, 1, 3); (x2d, 6, 8)] ->
  hi <= len buf ->
  beValue (slice buf lo hi) = 0 ->
  processBuffer buf <> Ok t.
Proof.
  intros Hid Hin Hlen Hv.
  destruct buf as [|b rest]; [discriminate|].
  cbn [hd_error] in Hid. injection Hid as ->.
  cbn [In] in Hin.
  repeat (destruct Hin as [E|Hin]; [injection E as <- <- <-|]);
    try contradiction;
    unfold processBuffer;
    change (index (?a :: rest) 0) with (Ok a); cbn [bind]; cbv beta iota;
    repeat field_step; rewrite Hv;
    unfold gslice; cbn; discriminate.
Qed.

Section FullReads.

Context {R : Type} `{Reader R} (content : R -> list byte).

Hypothesis Hfull : fillsReads content.

Lemma Read_full (input : R) (data rest : list byte) :
  content input = data ++ rest -> 0 < len data ->
  exists input' : R,
    Read input (len data) = (data, None, input') /\ content input' = rest.
Proof.
  intros Hc Hd.
  destruct (Hfull input (len data)) as (input' & Hr & Hc').
  - rewrite Hc, len_app. pose proof (len_nonneg rest). lia.
  - exists input'. rewrite Hc, firstn_len_app in Hr.
    rewrite Hc, skipn_len_app in Hc'. auto.
Qed.

Lemma readInto_full (input : R) (buf data rest : list byte) (lo : Z) :
  content input = data ++ rest -> 0 < len data ->
  0 <= lo -> len buf = lo + len data ->
  exists input' : R,
    readInto input buf lo (lo + len data)
      = (firstn (Z.to_nat lo) buf ++ data, len data, None, input') /\
    content input' = rest.
Proof.
  intros Hc Hd Hlo Hlen.
  destruct (Read_full input data rest Hc Hd) as (input' & Hr & Hc').
  exists input'. split; [|exact Hc']. unfold readInto.
  replace (lo + len data - lo) with (len data) by lia.
  rewrite Hr.
  assert (E : firstn (Z.to_nat (len data)) data = data)
    by (apply firstn_all2; unfold len; lia).
  rewrite E.
  rewrite skipn_all2 by (unfold len in *; lia).
  now rewrite app_nil_r.
Qed.

Lemma readRemaining_full (input : R) (p data rest : list byte) :
  content input = data ++ rest -> 0 < len data ->
  exists input' : R,
    readRemaining input p (len p) (len p + len data)
      = (processBuffer (p ++ data), input') /\
    content input' = rest.
Proof.
  intros Hc Hd. pose proof (len_nonneg p) as Hp.
  destruct (readInto_full input (p ++ make (len data)) data rest (len p)
              Hc Hd Hp) as (input' & Hr & Hc').
  { rewrite len_app, len_make by lia. reflexivity. }
  exists input'. split; [|exact Hc'].
  unfold readRemaining.
  destruct (Z.ltb_spec (len p + len data) 0); [lia|].
  rewrite copy_make by lia.
  unfold sliceInBounds. rewrite len_app, len_make by lia.
  destruct (Z.leb_spec 0 (len p)); [|lia].
  destruct (Z.leb_spec (len p) (len p + len data)); [|lia].
  destruct (Z.leb_spec (len p + len data) (len p + len data)); [|lia].
  cbn [andb].
  rewrite Hr.
  rewrite firstn_len_app.
  replace (len data =? len p + len data - len p) with true
    by (symmetry; apply Z.eqb_eq; lia).
  reflexivity.
Qed.

Lemma fill_full (fuel : nat) (input : R) (p data rest : list byte) :
  content input = data ++ rest -> 0 < len data ->
  exists input' : R,
    fill (S fuel) input (p ++ make (len data)) (len p) (len data)
      = Some (Ok (p ++ data, len p + len data), input') /\
    content input' = rest.
Proof.
  intros Hc Hd. pose proof (len_nonneg p) as Hp.
  destruct (readInto_full input (p ++ make (len data)) data rest (len p)
              Hc Hd Hp) as (input' & Hr & Hc').
  { rewrite len_app, len_make by lia. reflexivity. }
  exists input'. split; [|exact Hc'].
  cbn [fill].
  destruct (Z.gtb_spec (len data) 0); [|lia].
  unfold sliceInBounds. rewrite len_app, len_make by lia.
  destruct (Z.leb_spec 0 (len p)); [|lia].
  destruct (Z.leb_spec (len p) (len p + len data)); [|lia].
  destruct (Z.leb_spec (len p + len data) (len p + len data)); [|lia].
  cbn [andb].
  rewrite Hr.
  rewrite firstn_len_app. rewrite Z.eqb_refl. cbn [negb].
  destruct fuel; cbn [fill]; reflexivity.
Qed.

Lemma first_read_full (input : R) (id : byte) (rest : list byte) :
  content input = id :: rest ->
  exists input' : R,
    readInto input [x00] 0 1 = ([id], 1, None, input') /\
    content input' = rest.
Proof.
  intros Hc.
  exact (readInto_full input [x00] [id] rest 0 Hc eq_refl ltac:(lia) eq_refl).
Qed.

(** A token whose size the sizer gives from the ID alone. *)
Lemma TokenFromByteInput_one_call_full (fuel : nat) (input : R) (id : byte)
    (tl rest : list byte) (n : Z) :
  content input = (id :: tl) ++ rest ->
  determineTokenSize [id] = (n, 0, None) ->
  n = len (id :: tl) -> 1 < n ->
  exists input' : R,
    TokenFromByteInput fuel input = Some (processBuffer (id :: tl), input') /\
    content input' = rest.
Proof.
  intros Hc Hsize Hn Hbig. rewrite len_cons in Hn.
  destruct (first_read_full input id (tl ++ rest) Hc)
    as (input1 & Hr1 & Hc1).
  destruct (readRemaining_full input1 [id] tl rest Hc1 ltac:(lia))
    as (input2 & Hr2 & Hc2).
  exists input2. split; [|exact Hc2].
  unfold TokenFromByteInput. rewrite Hr1. cbv beta iota zeta.
  change (slice [id] 0 1) with [id]. rewrite Hsize. cbv beta iota zeta.
  cbn [negb Z.eqb Pos.eqb].
  change (len [id]) with 1 in Hr2.
  rewrite <- Hn in Hr2. rewrite Hr2. reflexivity.
Qed.

(** A token whose size the sizer gives once it has the first [k]
    bytes. *)
Lemma TokenFromByteInput_two_calls_full (fuel : nat) (input : R) (id : byte)
    (tl rest : list byte) (k n : Z) :
  content input = (id :: tl) ++ rest ->
  determineTokenSize [id] = (0, k - 1, None) ->
  1 < k -> k < len (id :: tl) ->
  determineTokenSize (slice (id :: tl) 0 k) = (n, 0, None) ->
  n = len (id :: tl) ->
  exists input' : R,
    TokenFromByteInput (S fuel) input
      = Some (processBuffer (id :: tl), input') /\
    content input' = rest.
Proof.
  intros Hc Hfirst Hk Hlong Hsize Hn. rewrite len_cons in Hlong, Hn.
  pose proof (len_nonneg tl) as Htl.
  set (d1 := firstn (Z.to_nat (k - 1)) tl).
  set (d2 := skipn (Z.to_nat (k - 1)) tl).
  assert (Etl : tl = d1 ++ d2) by (symmetry; apply firstn_skipn).
  assert (Hd1 : len d1 = k - 1).
  { unfold d1, len in *. rewrite length_firstn. lia. }
  assert (Hd2 : len d2 = len tl - (k - 1)).
  { unfold d2, len in *. rewrite length_skipn. lia. }
  assert (Eprefix : slice (id :: tl) 0 k = [id] ++ d1).
  { rewrite prefix_cons by lia. unfold d1, slice.
    cbn [Z.to_nat skipn app]. now rewrite Z.sub_0_r. }
  rewrite Eprefix in Hsize.
  destruct (first_read_full input id (tl ++ rest) Hc)
    as (input1 & Hr1 & Hc1).
  rewrite Etl, <- app_assoc in Hc1.
  destruct (fill_full fuel input1 [id] d1 (d2 ++ rest) Hc1 ltac:(lia))
    as (input2 & Hfill & Hc2).
  destruct (readRemaining_full input2 ([id] ++ d1) d2 rest Hc2 ltac:(lia))
    as (input3 & Hr3 & Hc3).
  exists input3. split; [|exact Hc3].
  unfold TokenFromByteInput. rewrite Hr1. cbv beta iota zeta.
  change (slice [id] 0 1) with [id]. rewrite Hfirst. cbv beta iota zeta.
  cbn [negb Z.eqb Pos.eqb].
  destruct (Z.eqb_spec (k - 1) 0); [lia|]. cbn [negb].
  destruct (Z.ltb_spec (1 + (k - 1)) 0); [lia|].
  replace (copy (make (1 + (k - 1))) [id]) with ([id] ++ make (len d1))
    by (rewrite Hd1; symmetry; apply (copy_make [id]); lia).
  change (len [id]) with 1 in Hfill. rewrite Hd1 in Hfill at 2 3.
  rewrite Hfill, Hsize.
  replace (len ([id] ++ d1)) with (1 + (k - 1)) in Hr3
    by (rewrite len_app, Hd1; reflexivity).
  replace (1 + (k - 1) + len d2) with n in Hr3 by lia.
  rewrite Hr3, <- app_assoc, <- Etl. reflexivity.
Qed.

(** A token that the switch decodes, ahead of [rest] in a source that
    fills its reads: [TokenFromByteInput] consumes exactly the token and
    returns it. *)
Lemma TokenFromByteInput_full (fuel : nat) (input : R)
    (buf rest : list byte) (t : empty) :
  content input = buf ++ rest ->
  tokenBytes buf t ->
  exists input' : R,
    TokenFromByteInput (S fuel) input = Some (Ok t, input') /\
    content input' = rest.
Proof.
  intros Hc [Hsize Hp].
  destruct (processBuffer_Ok_inv buf t Hp) as (Hid & Hvar & _).
  pose proof (variantIDs_decoded t _ Hvar) as Hdec.
  set (id := TokenID t) in *. clearbody id.
  assert (Hpos : len buf <> 0)
    by (destruct buf; [discriminate|rewrite len_cons; pose proof (len_nonneg buf); lia]).
  pose proof (reportedSize_decoded buf id (len buf) Hid Hdec Hsize Hpos) as Hs.
  clear Hsize. rewrite <- Hp.
  destruct buf as [|b tl]; [discriminate|].
  cbn [hd_error] in Hid. injection Hid as ->.
  unfold decoded in Hdec. cbn [In] in Hdec.
  repeat (destruct Hdec as [<-|Hdec]); try contradiction;
    try (unfold determineTokenSize in Hs; cbv beta iota in Hs;
         apply sized_inj in Hs;
         eapply TokenFromByteInput_one_call_full;
         [exact Hc|reflexivity|symmetry; exact Hs|rewrite <- Hs; lia]).
  - (* 0x23 *)
    apply TokenFromByteInput_two_calls_full
      with (k := 3) (n := len (x23 :: tl));
      [exact Hc|reflexivity|lia| |rewrite determineTokenSize_prefix by (cbn [In]; tauto); exact Hs|reflexivity].
    unfold determineTokenSize in Hs; cbv beta iota in Hs.
    apply withUint16_sized in Hs; [|assumption|lia..].
    destruct Hs as [Hlong Hs]. apply sized_inj in Hs.
    destruct (Z.eq_dec (beValue (slice (x23 :: tl) 1 3)) 0) as [Hz|Hnz].
    + exfalso.
      apply (empty_string_is_not_decoded (x23 :: tl) x23 1 3 t eq_refl);
        [cbn [In]; tauto|lia|exact Hz|exact Hp].
    + pose proof (beValue_bounds (slice (x23 :: tl) 1 3)). lia.
  - (* 0x28 *)
    apply TokenFromByteInput_two_calls_full
      with (k := 3) (n := len (x28 :: tl));
      [exact Hc|reflexivity|lia| |rewrite determineTokenSize_prefix by (cbn [In]; tauto); exact Hs|reflexivity].
    unfold determineTokenSize in Hs; cbv beta iota in Hs.
    apply withUint16_sized in Hs; [|assumption|lia..].
    destruct Hs as [Hlong Hs]. apply sized_inj in Hs.
    destruct (Z.eq_dec (beValue (slice (x28 :: tl) 1 3)) 0) as [Hz|Hnz].
    + exfalso.
      apply (empty_string_is_not_decoded (x28 :: tl) x28 1 3 t eq_refl);
        [cbn [In]; tauto|lia|exact Hz|exact Hp].
    + pose proof (beValue_bounds (slice (x28 :: tl) 1 3)). lia.
  - (* 0x2d *)
    apply TokenFromByteInput_two_calls_full
      with (k := 8) (n := len (x2d :: tl));
      [exact Hc|reflexivity|lia| |rewrite determineTokenSize_prefix by (cbn [In]; tauto); exact Hs|reflexivity].
    unfold determineTokenSize in Hs; cbv beta iota in Hs.
    apply withUint16_sized in Hs; [|assumption|lia..].
    destruct Hs as [Hlong Hs]. apply sized_inj in Hs.
    destruct (Z.eq_dec (beValue (slice (x2d :: tl) 6 8)) 0) as [Hz|Hnz].
    + exfalso.
      apply (empty_string_is_not_decoded (x2d :: tl) x2d 6 8 t eq_refl);
        [cbn [In]; tauto|lia|exact Hz|exact Hp].
    + pose proof (beValue_bounds (slice (x2d :: tl) 6 8)). lia.
  - (* 0x60 *)
    apply TokenFromByteInput_two_calls_full
      with (k := 3) (n := len (x60 :: tl));
      [exact Hc|reflexivity|lia| |rewrite determineTokenSize_prefix by (cbn [In]; tauto); exact Hs|reflexivity].
    unfold determineTokenSize in Hs; cbv beta iota in Hs.
    apply withUint16_sized in Hs; [|assumption|lia..].
    destruct Hs as [Hlong Hs]. apply sized_inj in Hs.
    destruct (Z.eq_dec (beValue (slice (x60 :: tl) 1 3)) 0) as [Hz|Hnz].
    + exfalso.
      apply (empty_string_is_not_decoded (x60 :: tl) x60 1 3 t eq_refl);
        [cbn [In]; tauto|lia|exact Hz|exact Hp].
    + pose proof (beValue_bounds (slice (x60 :: tl) 1 3)). lia.
  - (* 0x7a *)
    apply TokenFromByteInput_two_calls_full
      with (k := 37) (n := len (x7a :: tl));
      [exact Hc|reflexivity|lia| |rewrite determineTokenSize_prefix by (cbn [In]; tauto); exact Hs|reflexivity].
    unfold determineTokenSize in Hs; cbv beta iota in Hs.
    apply withUint32_sized in Hs; [|assumption|lia..].
    destruct Hs as [Hlong Hs]. apply address_sized in Hs.
    destruct Hs as [Hs|[[_ Hlen]|[_ Hlen]]]; [discriminate Hs|lia|lia].
  - (* 0x7b *)
    apply TokenFromByteInput_two_calls_full
      with (k := 37) (n := len (x7b :: tl));
      [exact Hc|reflexivity|lia| |rewrite determineTokenSize_prefix by (cbn [In]; tauto); exact Hs|reflexivity].
    unfold determineTokenSize in Hs; cbv beta iota in Hs.
    apply withUint32_sized in Hs; [|assumption|lia..].
    destruct Hs as [Hlong Hs]. apply address_sized in Hs.
    destruct Hs as [Hs|[[_ Hlen]|[_ Hlen]]]; [discriminate Hs|lia|lia].
Qed.

End FullReads.


Section FullReadsFraming.

Context {R : Type} `{Reader R} (content : R -> list byte).

Hypothesis Hfull : fillsReads content.

Lemma collect_full (tokenFuel : nat) (trailer : list byte) (tr : empty)
    (rest : list byte) :
  tokenBytes trailer tr -> isTrailerToken tr = true ->
  forall (interior : list (list byte)) (ts : list empty),
    Forall2 tokenBytes interior ts ->
    forall (fuel : nat) (next : empty) (rec : BsmRecord) (input : R),
      content input = concat interior ++ trailer ++ rest ->
      forallb notTrailer (next :: ts) = true ->
      (length ts < fuel)%nat ->
      exists input' : R,
        collect (S tokenFuel) fuel input rec next
          = Some (Returns (mkBsmRecord (Seconds rec) (NanoSeconds rec)
                             (Tokens rec ++ next :: ts), None), input') /\
        content input' = rest.
Proof.
  intros Htrailer Hend interior ts Hall.
  induction Hall as [|buf t interior ts Hbuf Hall IH];
    intros fuel next rec input Hc Hnot Hfuel;
    (destruct fuel as [|fuel]; [cbn [length] in Hfuel; lia|]);
    cbn [forallb] in Hnot; apply andb_prop in Hnot;
    destruct Hnot as [Hnext Hnot];
    unfold notTrailer in Hnext; apply negb_true_iff in Hnext;
    cbn [collect]; rewrite Hnext.
  - cbn [concat app] in Hc.
    destruct (TokenFromByteInput_full content Hfull tokenFuel input trailer
                rest tr Hc Htrailer) as (input1 & Ht & Hc1).
    exists input1. split; [|exact Hc1]. rewrite Ht.
    destruct fuel; cbn [collect]; rewrite Hend; reflexivity.
  - cbn [concat] in Hc. rewrite <- app_assoc in Hc.
    destruct (TokenFromByteInput_full content Hfull tokenFuel input buf
                _ t Hc Hbuf) as (input1 & Ht & Hc1).
    destruct (IH fuel t
                (mkBsmRecord (Seconds rec) (NanoSeconds rec)
                   (Tokens rec ++ [next])) input1 Hc1 Hnot
                ltac:(cbn [length] in Hfuel; lia))
      as (input2 & Hcol & Hc2).
    exists input2. split; [|exact Hc2]. rewrite Ht, Hcol.
    cbn [Seconds NanoSeconds Tokens]. rewrite <- app_assoc. reflexivity.
Qed.

Lemma ReadBsmRecord_full (fuel : nat) (header trailer : list byte)
    (interior : list (list byte)) (h tr : empty) (ts : list empty)
    (seconds nanoSeconds : Z) (rest : list byte) (input : R) :
  content input = header ++ concat interior ++ trailer ++ rest ->
  tokenBytes header h ->
  headerTime h = Some (seconds, nanoSeconds) ->
  Forall2 tokenBytes interior ts ->
  forallb notTrailer ts = true ->
  tokenBytes trailer tr ->
  isTrailerToken tr = true ->
  (length ts <= S fuel)%nat ->
  exists input' : R,
    ReadBsmRecord (S fuel) input
      = Some (Returns (mkBsmRecord seconds nanoSeconds ts, None), input') /\
    content input' = rest.
Proof.
  intros Hc Hheader Htime Hall Hnot Htrailer Hend Hfuel.
  destruct (TokenFromByteInput_full content Hfull fuel input header _ h
              Hc Hheader) as (input1 & Hh & Hc1).
  assert (Hbody : exists input' : R,
    match TokenFromByteInput (S fuel) input1 with
    | None => None
    | Some (Panic, input) => Some (Panics, input)
    | Some (Err e, input) =>
        Some (Returns (mkBsmRecord seconds nanoSeconds [], Some e), input)
    | Some (Ok nextToken, input) =>
        collect (S fuel) (S fuel) input
          (mkBsmRecord seconds nanoSeconds []) nextToken
    end = Some (Returns (mkBsmRecord seconds nanoSeconds ts, None), input')
    /\ content input' = rest).
  { destruct Hall as [|buf t interior ts Hbuf Hall].
    - cbn [concat app] in Hc1.
      destruct (TokenFromByteInput_full content Hfull fuel input1 trailer
                  rest tr Hc1 Htrailer) as (input2 & Ht & Hc2).
      exists input2. split; [|exact Hc2]. rewrite Ht.
      cbn [collect]. rewrite Hend. reflexivity.
    - cbn [concat] in Hc1. rewrite <- app_assoc in Hc1.
      destruct (TokenFromByteInput_full content Hfull fuel input1 buf
                  _ t Hc1 Hbuf) as (input2 & Ht & Hc2).
      destruct (collect_full fuel trailer tr rest Htrailer Hend
                  interior ts Hall (S fuel) t
                  (mkBsmRecord seconds nanoSeconds []) input2 Hc2 Hnot
                  ltac:(cbn [length] in Hfuel; lia))
        as (input3 & Hcol & Hc3).
      exists input3. split; [|exact Hc3]. rewrite Ht, Hcol. reflexivity. }
  destruct Hbody as (input' & Hbody & Hc').
  exists input'. split; [|exact Hc'].
  unfold ReadBsmRecord. rewrite Hh.
  destruct h; try discriminate Htime;
    cbn [headerTime] in Htime; injection Htime as <- <-;
    cbv beta zeta; cbn [Tokens]; exact Hbody.
Qed.

(** A 32-bit header at once followed by a trailer, whatever their other
    bytes and whatever the fuel. *)
Lemma ReadBsmRecord_header_trailer_full (fuel : nat)
    (header trailer rest : list byte) (input : R) :
  hd_error header = Some x14 -> len header = 18 ->
  hd_error trailer = Some x13 -> len trailer = 7 ->
  content input = header ++ trailer ++ rest ->
  exists input' : R,
    ReadBsmRecord fuel input
      = Some (Returns (mkBsmRecord (beValue (slice header 10 14))
                         (beValue (slice header 14 18)) [], None), input') /\
    content input' = rest.
Proof.
  intros Hh Hhlen Ht Htlen Hc.
  destruct header as [|h htl]; [discriminate|].
  cbn [hd_error] in Hh. injection Hh as ->.
  destruct trailer as [|t ttl]; [discriminate|].
  cbn [hd_error] in Ht. injection Ht as ->.
  destruct (TokenFromByteInput_one_call_full content Hfull fuel input x14
              htl _ 18 Hc eq_refl (eq_sym Hhlen) ltac:(lia))
    as (input1 & Hr1 & Hc1).
  destruct (TokenFromByteInput_one_call_full content Hfull fuel input1 x13
              ttl _ 7 Hc1 eq_refl (eq_sym Htlen) ltac:(lia))
    as (input2 & Hr2 & Hc2).
  exists input2. split; [|exact Hc2].
  unfold ReadBsmRecord. rewrite Hr1.
  rewrite header32_token_fields by (reflexivity || assumption).
  cbv beta iota zeta.
  cbn [HeaderToken32bit_Seconds HeaderToken32bit_NanoSeconds Tokens].
  rewrite Hr2.
  rewrite trailer_token_fields by (reflexivity || assumption).
  destruct fuel; reflexivity.
Qed.

End FullReadsFraming.

(** C2, as the code has it. Framing. A record that [ReadBsmRecord]
    returns with a nil error carries exactly the tokens decoded strictly
    between the opening header token and the first trailer token after
    it, in their order; the header and the trailer are not in the list,
    and the record's time stamps are the header's. A byte source that
    fills every read while bytes are left, and that holds a header
    token, tokens the decoder knows that are no trailers, and a trailer
    token, yields that record and is left with the bytes after the
    trailer. In particular a 32-bit header token followed at once by a
    trailer token yields, whatever the fuel, a record with an empty
    token list and the header's seconds and nanoseconds, 32-bit values
    held in 64-bit fields. *)
Theorem framing_header_trailer_stripped :
  (forall (R : Type) (reader : Reader R) (fuel : nat) (input input' : R)
          (rec : BsmRecord),
     ReadBsmRecord fuel input = Some (Returns (rec, None), input') ->
     exists (header : empty) (interior : list empty) (trailer : empty),
       decodes fuel input (header :: interior ++ [trailer]) input' /\
       headerTime header = Some (Seconds rec, NanoSeconds rec) /\
       isTrailerToken trailer = true /\
       forallb notTrailer interior = true /\
       Tokens rec = interior) /\
  (forall (R : Type) (reader : Reader R) (content : R -> list byte)
          (fuel : nat) (bytes rest : list byte) (rec : BsmRecord)
          (input : R),
     fillsReads content ->
     recordBytes bytes rec ->
     content input = bytes ++ rest ->
     (length (Tokens rec) <= S fuel)%nat ->
     exists input' : R,
       ReadBsmRecord (S fuel) input = Some (Returns (rec, None), input') /\
       content input' = rest) /\
  (forall (R : Type) (reader : Reader R) (content : R -> list byte)
          (fuel : nat) (header trailer rest : list byte) (input : R),
     fillsReads content ->
     hd_error header = Some x14 -> len header = 18 ->
     hd_error trailer = Some x13 -> len trailer = 7 ->
     content input = header ++ trailer ++ rest ->
     (exists input' : R,
        ReadBsmRecord fuel input
          = Some (Returns (mkBsmRecord (beValue (slice header 10 14))
                             (beValue (slice header 14 18)) [], None),
                  input') /\
        content input' = rest) /\
     0 <= beValue (slice header 10 14) < 2 ^ 32 /\
     0 <= beValue (slice header 14 18) < 2 ^ 32).
Proof.
  split; [|split].
  - intros R reader fuel input input' rec Hret.
    unfold ReadBsmRecord in Hret.
    destruct (TokenFromByteInput fuel input)
      as [[[header|e|] input1]|] eqn:Hheader; try discriminate Hret.
    destruct header; try discriminate Hret;
      cbv beta zeta in Hret;
      (destruct (TokenFromByteInput fuel input1)
         as [[[next|e|] input2]|] eqn:Hnext; try discriminate Hret);
      apply collect_returns in Hret;
      destruct Hret as (later & interior & trailer & Hdec & Hsplit & Htrl
                        & Hint & Htok & Hsec & Hnano);
      cbn [Tokens Seconds NanoSeconds app] in Htok, Hsec, Hnano;
      (eexists; exists interior, trailer);
      rewrite <- Hsplit, Hsec, Hnano;
      (split;
       [ eapply decodes_cons; [exact Hheader|];
         eapply decodes_cons; [exact Hnext|exact Hdec]
       | exact (conj eq_refl (conj Htrl (conj Hint Htok))) ]).
  - intros R reader content fuel bytes rest rec input Hfull
      (header & trailer & interior & h & tr & -> & Hheader & Htime
       & Hall & Hnot & Htrailer & Hend) Hc Hfuel.
    rewrite <- !app_assoc in Hc.
    destruct (ReadBsmRecord_full content Hfull fuel header trailer interior
                h tr (Tokens rec) (Seconds rec) (NanoSeconds rec) rest input
                Hc Hheader Htime Hall Hnot Htrailer Hend Hfuel)
      as (input' & Hr & Hc').
    exists input'. split; [|exact Hc']. rewrite Hr. now destruct rec.
  - intros R reader content fuel header trailer rest input Hfull
      Hh Hhlen Ht Htlen Hc.
    split; [|split; [apply (beValue_uint32 header 10); lia
                    |apply (beValue_uint32 header 14); lia]].
    exact (ReadBsmRecord_header_trailer_full content Hfull fuel header
             trailer rest input Hh Hhlen Ht Htlen Hc).
Qed.

(** C2, as the claim states it, fails on a byte source that returns
    fewer bytes than asked for: [TokenFromByteInput] does not repeat its
    last read, so the header and trailer that a [bytes.Buffer] turns into
    a record give, read one byte at a time, the error "read 1 bytes, but
    wanted exactly 17" and no record. *)
Lemma framing_fails_on_one_byte_reads :
  ReadBsmRecord 1 (sampleHeader32 ++ sampleTrailer : Buffer)
    = Some (Returns (mkBsmRecord 0x5a9ac2e6 0x00030128 [], None), []) /\
  ReadBsmRecord 1 (mkOneByteReader (sampleHeader32 ++ sampleTrailer))
    = Some (Returns (mkBsmRecord 0 0 [], Some (ErrReadCount 1 17)),
            mkOneByteReader (skipn 2 (sampleHeader32 ++ sampleTrailer))) /\
  forall (fuel : nat) (rec : BsmRecord) (input' : OneByteReader),
    ReadBsmRecord fuel (mkOneByteReader (sampleHeader32 ++ sampleTrailer))
      <> Some (Returns (rec, None), input').
Proof.
  split; [reflexivity|]. split; [reflexivity|].
  intros fuel rec input'. destruct fuel; vm_compute; discriminate.
Qed.

Lemma framing_sample :
  (exists (header : empty) (interior : list empty) (trailer : empty),
     decodes 1%nat sampleStream (header :: interior ++ [trailer]) [] /\
     headerTime header
       = Some (Seconds sampleRecord, NanoSeconds sampleRecord) /\
     isTrailerToken trailer = true /\
     forallb notTrailer interior = true /\
     Tokens sampleRecord = interior) /\
  (exists input' : Buffer,
     ReadBsmRecord 1%nat (sampleStream ++ [xff] : Buffer)
       = Some (Returns (sampleRecord, None), input') /\
     input' = [xff]) /\
  ((exists input' : Buffer,
      ReadBsmRecord 0%nat (sampleHeader32 ++ sampleTrailer ++ [] : Buffer)
        = Some (Returns (mkBsmRecord (beValue (slice sampleHeader32 10 14))
                           (beValue (slice sampleHeader32 14 18)) [], None),
                input') /\
      input' = []) /\
   0 <= beValue (slice sampleHeader32 10 14) < 2 ^ 32 /\
   0 <= beValue (slice sampleHeader32 14 18) < 2 ^ 32).
Proof.
  split; [|split].
  - apply (proj1 framing_header_trailer_stripped Buffer Buffer_Read 1%nat
             sampleStream [] sampleRecord).
    reflexivity.
  - apply (proj1 (proj2 framing_header_trailer_stripped) Buffer Buffer_Read
             (fun b : Buffer => b) 0%nat sampleStream [xff] sampleRecord
             (sampleStream ++ [xff])).
    + exact Buffer_fillsReads.
    + exact sampleStream_recordBytes.
    + reflexivity.
    + cbn [sampleRecord Tokens length]. lia.
  - apply (proj2 (proj2 framing_header_trailer_stripped) Buffer Buffer_Read
             (fun b : Buffer => b) 0%nat sampleHeader32 sampleTrailer []
             (sampleHeader32 ++ sampleTrailer ++ [])).
    + exact Buffer_fillsReads.
    + reflexivity.
    + reflexivity.
    + reflexivity.
    + reflexivity.
    + reflexivity.
Defined.


(** * The bytes a token is made of *)

Lemma skipn_make (k n : Z) :
  0 <= k <= n -> skipn (Z.to_nat k) (make n) = make (n - k).
Proof.
  intros Hk. unfold make.
  replace (Z.to_nat n) with (Z.to_nat k + Z.to_nat (n - k))%nat by lia.
  rewrite repeat_app, skipn_app, repeat_length, Nat.sub_diag.
  rewrite skipn_all2 by (rewrite repeat_length; lia).
  reflexivity.
Qed.

(** A [Read] of a [bytes.Buffer] that returns no error stores the bytes
    it takes from the front of the buffer. *)
Lemma readInto_Buffer_inv (b b' : Buffer) (p : list byte) (m n : Z)
    (buf' : list byte) :
  0 <= m ->
  readInto b (p ++ make m) (len p) (len p + m) = (buf', n, None, b') ->
  exists data : list byte,
    b = data ++ b' /\ len data = n /\ n <= m /\
    buf' = (p ++ data) ++ make (m - n).
Proof.
  intros Hm Hr. pose proof (len_nonneg p) as Hp.
  unfold readInto in Hr.
  replace (len p + m - len p) with m in Hr by lia.
  assert (Hread : exists data : list byte,
            Read b m = (data, None, b') /\ b = data ++ b' /\ len data <= m).
  { unfold Read, Buffer_Read in *.
    destruct b as [|c b0].
    - destruct (Z.eqb_spec m 0).
      + injection Hr as _ _ <-. exists []. cbn. repeat split; lia.
      + discriminate Hr.
    - injection Hr as _ _ <-. eexists. split; [reflexivity|].
      split; [symmetry; apply firstn_skipn|].
      unfold len. rewrite length_firstn. lia. }
  destruct Hread as (data & Hread & Hb & Hlen).
  rewrite Hread in Hr.
  assert (E : firstn (Z.to_nat m) data = data)
    by (apply firstn_all2; unfold len in Hlen; lia).
  rewrite E in Hr. injection Hr as <- <-.
  exists data. pose proof (len_nonneg data) as Hd.
  repeat split; try assumption.
  rewrite firstn_len_app.
  replace (Z.to_nat (len p + len data))
    with (length p + Z.to_nat (len data))%nat by (unfold len; lia).
  rewrite skipn_app, Nat.add_comm, Nat.add_sub.
  rewrite (skipn_all2 p) by lia. cbn [app].
  rewrite skipn_make by lia. now rewrite <- app_assoc.
Qed.

(** The loop on a [bytes.Buffer]: when it ends without an error, the
    bytes asked for were at the front of the buffer and are now behind
    those the token buffer held. *)
Lemma fill_Buffer_inv (fuel : nat) :
  forall (b b' : Buffer) (p tb' : list byte) (inc idx' : Z),
    0 <= inc ->
    fill fuel b (p ++ make inc) (len p) inc = Some (Ok (tb', idx'), b') ->
    exists data : list byte,
      b = data ++ b' /\ len data = inc /\ tb' = p ++ data /\
      idx' = len p + inc.
Proof.
  induction fuel as [|fuel IH]; intros b b' p tb' inc idx' Hinc Hf;
    cbn [fill] in Hf;
    destruct (Z.gtb_spec inc 0) as [Hpos|Hneg]; try discriminate Hf;
    try (injection Hf as <- <- <-; exists [];
         replace inc with 0 by lia;
         repeat split; try reflexivity; lia).
  pose proof (len_nonneg p) as Hp.
  unfold sliceInBounds in Hf. rewrite len_app, len_make in Hf by lia.
  destruct (Z.leb_spec 0 (len p)); [|lia].
  destruct (Z.leb_spec (len p) (len p + inc)); [|lia].
  destruct (Z.leb_spec (len p + inc) (len p + inc)); [|lia].
  cbn [andb] in Hf.
  destruct (readInto b (p ++ make inc) (len p) (len p + inc))
    as [[[tb1 n] [e|]] b1] eqn:Hr; [discriminate Hf|].
  apply readInto_Buffer_inv in Hr; [|lia].
  destruct Hr as (data & -> & Hn & Hle & ->).
  pose proof (len_nonneg data) as Hd.
  assert (Hinc' : (if negb (n =? inc) then inc - n else 0) = inc - n)
    by (destruct (Z.eqb_spec n inc); cbn [negb]; lia).
  rewrite Hinc' in Hf.
  replace (len p + n) with (len (p ++ data)) in Hf
    by (rewrite len_app; lia).
  apply IH in Hf; [|lia].
  destruct Hf as (data2 & -> & Hn2 & -> & ->).
  exists (data ++ data2). rewrite !len_app.
  repeat split; try lia.
  - now rewrite app_assoc.
  - now rewrite app_assoc.
Qed.

(** The last read on a [bytes.Buffer]: when the switch is reached, it
    runs on the token buffer followed by the bytes taken from the front
    of the buffer, as many as were missing. *)
Lemma readRemaining_Buffer_inv (b b' : Buffer) (tb : list byte)
    (buflen : Z) (t : empty) :
  readRemaining b tb (len tb) buflen = (Ok t, b') ->
  exists data : list byte,
    b = data ++ b' /\ len tb + len data = buflen /\
    processBuffer (tb ++ data) = Ok t.
Proof.
  unfold readRemaining. intros Hr. pose proof (len_nonneg tb) as Htb.
  destruct (Z.ltb_spec buflen 0); [discriminate Hr|].
  unfold sliceInBounds in Hr. rewrite len_copy, len_make in Hr by lia.
  destruct (Z.leb_spec 0 (len tb)); [|lia].
  destruct (Z.leb_spec (len tb) buflen); [|discriminate Hr].
  destruct (Z.leb_spec buflen buflen); [|lia].
  cbn [andb] in Hr.
  replace buflen with (len tb + (buflen - len tb)) in Hr at 1 2 by lia.
  rewrite copy_make in Hr by lia.
  destruct (readInto b (tb ++ make (buflen - len tb)) (len tb)
              (len tb + (buflen - len tb)))
    as [[[buf n] [e|]] b1] eqn:Hread; [discriminate Hr|].
  apply readInto_Buffer_inv in Hread; [|lia].
  destruct Hread as (data & -> & Hn & Hle & ->).
  destruct (Z.eqb_spec n (buflen - len tb)) as [E|];
    cbn [negb] in Hr; [|discriminate Hr].
  injection Hr as Hp <-.
  exists data. split; [reflexivity|]. split; [lia|].
  replace (buflen - len tb - n) with 0 in Hp by lia.
  change (make 0) with (@nil byte) in Hp. now rewrite app_nil_r in Hp.
Qed.

(** On a [bytes.Buffer], a token that [TokenFromByteInput] returns was
    decoded from exactly the bytes the call took from the buffer: these
    bytes stood at the front of the buffer, they are as many as the
    sizer reported for them, the switch gives the token on them, and
    their first byte is the token's ID. The call reads no byte past the
    token. *)
Theorem returned_token_comes_from_sized_buffer (fuel : nat)
    (b b' : Buffer) (t : empty) :
  TokenFromByteInput fuel b = Some (Ok t, b') ->
  exists buf : list byte,
    b = buf ++ b' /\
    reportedSize buf = Some (len buf) /\
    processBuffer buf = Ok t /\
    hd_error buf = Some (TokenID t).
Proof.
  intros Ht.
  assert (Hbuf : exists buf : list byte,
            b = buf ++ b' /\ reportedSize buf = Some (len buf) /\
            processBuffer buf = Ok t).
  { destruct b as [|id tail]; [discriminate Ht|].
    rewrite TokenFromByteInput_Buffer_start in Ht.
    destruct (determineTokenSize [id]) as [[buflen1 inc] [e|]] eqn:Hs1;
      [discriminate Ht|].
    pose proof (first_call_request id _ _ Hs1) as Hinc.
    cbv beta iota zeta in Ht.
    destruct (Z.eqb_spec inc 0) as [->|Hnz]; cbn [negb] in Ht.
    - (* one call of the sizer *)
      assert (Hrem : readRemaining tail [id] (len [id]) buflen1 = (Ok t, b'))
        by (injection Ht as Ht; exact Ht).
      apply readRemaining_Buffer_inv in Hrem.
      destruct Hrem as (data & -> & Hlen & Hp).
      exists ([id] ++ data). split; [reflexivity|]. split; [|exact Hp].
      unfold reportedSize. cbn [app].
      change (slice (id :: data) 0 1) with [id]. rewrite Hs1.
      cbv beta iota zeta. cbn [negb Z.eqb]. f_equal.
      rewrite len_cons. change (len [id]) with 1 in Hlen. lia.
    - (* two calls of the sizer *)
      destruct (Z.ltb_spec (1 + inc) 0); [lia|].
      replace (copy (make (1 + inc)) [id]) with ([id] ++ make inc) in Ht
        by (symmetry; apply (copy_make [id]); lia).
      match type of Ht with
      | context [@fill ?S ?rd ?f ?i ?tb ?x ?n] =>
          destruct (@fill S rd f i tb x n)
            as [[[[tb1 idx1]|e|] b1]|] eqn:Hfill; try discriminate Ht
      end.
      cbv beta iota zeta in Ht.
      apply (fill_Buffer_inv fuel tail b1 [id]) in Hfill; [|lia].
      destruct Hfill as (data & -> & Hd & -> & ->).
      destruct (determineTokenSize ([id] ++ data))
        as [[buflen inc2] [e|]] eqn:Hs2; cbv beta iota zeta in Ht;
        [discriminate Ht|].
      assert (Hrem : readRemaining b1 ([id] ++ data) (len ([id] ++ data))
                       buflen = (Ok t, b')).
      { rewrite len_app, Hd. injection Ht as Ht. exact Ht. }
      apply readRemaining_Buffer_inv in Hrem.
      destruct Hrem as (data2 & -> & Hlen & Hp).
      exists (([id] ++ data) ++ data2).
      split; [cbn [app]; now rewrite <- app_assoc|]. split; [|exact Hp].
      unfold reportedSize.
      change (slice (([id] ++ data) ++ data2) 0 1) with [id]. rewrite Hs1.
      cbv beta iota zeta.
      destruct (Z.eqb_spec inc 0); [contradiction|]. cbn [negb].
      replace (1 + inc) with (len ([id] ++ data))
        by (rewrite len_app, Hd; reflexivity).
      rewrite slice_whole_prefix, Hs2. now rewrite len_app, Hlen. }
  destruct Hbuf as (buf & Hb & Hsize & Hp).
  destruct (processBuffer_Ok_inv buf t Hp) as (Hid & _).
  exists buf. auto.
Qed.

Lemma returned_token_comes_from_sized_buffer_sample :
  exists buf : list byte,
    (sampleText ++ sampleTrailer : Buffer) = buf ++ sampleTrailer /\
    reportedSize buf = Some (len buf) /\
    processBuffer buf = Ok sampleTextToken /\
    hd_error buf = Some (TokenID sampleTextToken).
Proof.
  apply (returned_token_comes_from_sized_buffer 1
           (sampleText ++ sampleTrailer) sampleTrailer sampleTextToken).
  reflexivity.
Defined.
